(** * rss_telegram_bot.py: feed tracking, deduplication and the check cycles

    A shallow embedding of [src/rss_telegram_bot.py].  The handlers are
    written as programs of a small free monad whose operations are the
    effects the Python code has: reading and writing the global
    [rss_bot.data], calling [feedparser.parse], awaiting a Telegram
    transport call, touching the data file and logging.  Exceptions are
    part of the programs, with [try_except] for the [try] blocks of the
    source.

    The programs have two semantics.  [run] executes one handler from its
    start to its end; [advance] executes a coroutine up to its next
    [await], and [interleave] lets the asyncio event loop switch between
    two coroutines at their [await]s, in any order.  What the network, the
    transport and the file system do is a parameter of both ([env]).

    The file has the model first (data, programs, semantics, the loops as
    functions, reachable states, the invariant of two overlapping checks,
    concrete inputs), then the lemmas and the theorems. *)

From Stdlib Require Import String Ascii ZArith DecimalString DecimalN
  DecimalFacts.
From stdpp Require Import gmap list.

Set Default Proof Using "Type".
Local Open Scope Z_scope.
Local Open Scope list_scope.

(** ** Python values *)

(** A Python [str] is a sequence of Unicode code points: [len] and slicing
    count code points, not bytes. *)
Abbreviation pystr := (list N).

(** An ASCII literal of the source. *)
Definition lit (s : string) : pystr := N_of_ascii <$> list_ascii_of_string s.

(** [str(n)] for a non-negative [int], as the f-strings print it. *)
Definition str_of_nat (n : nat) : pystr :=
  lit (NilEmpty.string_of_uint (Nat.to_uint n)).

(** Truthiness of a [str] or a [list]: non-empty. *)
Definition truthy {A} (l : list A) : bool :=
  match l with [] => false | _ :: _ => true end.

(** [l.remove(x)]: deletes the first occurrence (the handler only calls it
    after [x in l]). *)
Fixpoint list_remove (x : pystr) (l : list pystr) : list pystr :=
  match l with
  | [] => []
  | y :: l' => if decide (x = y) then l' else y :: list_remove x l'
  end.

(** ** Data model *)

(** An entry of [feedparser.parse(url).entries]: the keys the bot reads,
    each possibly absent. *)
Record Entry := {
  e_title : option pystr;
  e_link : option pystr;
  e_published : option pystr;
  e_summary : option pystr;
  e_description : option pystr;
  e_id : option pystr
}.

(** The dict built per entry by [get_feed_posts]. *)
Record Post := {
  title : pystr;
  link : pystr;
  published : pystr;
  summary : pystr;
  id : pystr
}.

(** [rss_bot.data]: the three keys of the data structure. *)
Record TrackingState := {
  feeds : list pystr;
  seen_posts : gmap pystr (list pystr);
  chat_ids : list Z
}.

Definition set_feeds (l : list pystr) (d : TrackingState) : TrackingState :=
  {| feeds := l; seen_posts := seen_posts d; chat_ids := chat_ids d |}.
Definition set_seen_posts (m : gmap pystr (list pystr)) (d : TrackingState)
  : TrackingState :=
  {| feeds := feeds d; seen_posts := m; chat_ids := chat_ids d |}.
Definition set_chat_ids (l : list Z) (d : TrackingState) : TrackingState :=
  {| feeds := feeds d; seen_posts := seen_posts d; chat_ids := l |}.

(** The default data structure of [load_data]. *)
Definition seed_feed : pystr :=
  lit "https://status.aws.amazon.com/rss/multipleservices-us-east-1.rss".

Definition default_data : TrackingState :=
  {| feeds := [seed_feed]; seen_posts := ∅; chat_ids := [] |}.

(** ** Effects *)

(** Exceptions ([except Exception] catches every one of them). *)
Inductive exn :=
| KeyError
| FetchError
| TransportError
| IOError
| JSONDecodeError.

(** The two awaited transport calls. *)
Inductive output :=
| Reply (text : pystr)                 (* update.message.reply_text(text) *)
| Send (chat_id : Z) (text : pystr).   (* context.bot.send_message(chat_id, text) *)

(** The calls to [logger]; the text of the caught exception is left out. *)
Inductive log_msg :=
| ErrLoading
| ErrSaving
| ErrFetching (url : pystr)
| ErrSending (chat_id : Z)
| InfoPeriodic.

Inductive result (A : Type) :=
| Ok (a : A)
| Raised (e : exn).
Arguments Ok {A} a.
Arguments Raised {A} e.

Declare Scope prog_scope.
Delimit Scope prog_scope with prog.

Section Bot.

(** The content of [DATA_FILE] and the [json] library: [json_dump d] is the
    text [json.dump(d, f, indent=2)] writes, [json_load t] is the value of
    [json.load(f)] on a file holding [t], [None] when it raises. *)
Variable text : Type.
Variable json_dump : TrackingState -> text.
Variable json_load : text -> option TrackingState.

(** Programs: the effects of the bot, with their continuations.
    [FeedparserParse] answers [None] when [feedparser.parse] raises;
    [Await] is a suspension point of the coroutine and answers [false] when
    the awaited call raises; [FileRead] answers [None] when [open] or the
    read raises; [FileWrite] answers [false] when [open] or the write
    raises. *)
Inductive prog (A : Type) : Type :=
| Ret (a : A)
| Raise (e : exn)
| GetData (k : TrackingState -> prog A)
| SetData (d : TrackingState) (k : prog A)
| FeedparserParse (url : pystr) (k : option (list Entry) -> prog A)
| Await (o : output) (k : bool -> prog A)
| FileExists (k : bool -> prog A)
| FileRead (k : option text -> prog A)
| FileWrite (t : text) (k : bool -> prog A)
| Log (m : log_msg) (k : prog A).
Arguments Ret {A} a.
Arguments Raise {A} e.
Arguments GetData {A} k.
Arguments SetData {A} d k.
Arguments FeedparserParse {A} url k.
Arguments Await {A} o k.
Arguments FileExists {A} k.
Arguments FileRead {A} k.
Arguments FileWrite {A} t k.
Arguments Log {A} m k.

Fixpoint bind {A B} (m : prog A) (f : A -> prog B) : prog B :=
  match m with
  | Ret a => f a
  | Raise e => Raise e
  | GetData k => GetData (fun d => bind (k d) f)
  | SetData d k => SetData d (bind k f)
  | FeedparserParse u k => FeedparserParse u (fun r => bind (k r) f)
  | Await o k => Await o (fun b => bind (k b) f)
  | FileExists k => FileExists (fun b => bind (k b) f)
  | FileRead k => FileRead (fun r => bind (k r) f)
  | FileWrite t k => FileWrite t (fun b => bind (k b) f)
  | Log m k => Log m (bind k f)
  end.

(** [try: m except Exception as e: h e]. *)
Fixpoint try_except {A} (m : prog A) (h : exn -> prog A) : prog A :=
  match m with
  | Ret a => Ret a
  | Raise e => h e
  | GetData k => GetData (fun d => try_except (k d) h)
  | SetData d k => SetData d (try_except k h)
  | FeedparserParse u k => FeedparserParse u (fun r => try_except (k r) h)
  | Await o k => Await o (fun b => try_except (k b) h)
  | FileExists k => FileExists (fun b => try_except (k b) h)
  | FileRead k => FileRead (fun r => try_except (k r) h)
  | FileWrite t k => FileWrite t (fun b => try_except (k b) h)
  | Log m k => Log m (try_except k h)
  end.

Bind Scope prog_scope with prog.
Notation "x <- m ;; k" := (bind m (fun x => k))
  (at level 20, m at level 99, k at level 200) : prog_scope.
Notation "m ;; k" := (bind m (fun _ => k))
  (at level 100, k at level 200, right associativity) : prog_scope.
Local Open Scope prog_scope.

Definition get_data : prog TrackingState := GetData Ret.
Definition set_data (d : TrackingState) : prog unit := SetData d (Ret tt).
Definition log (m : log_msg) : prog unit := Log m (Ret tt).

(** [await f(...)]: the coroutine is suspended; the exception of the
    awaited call is raised in the caller. *)
Definition await (o : output) : prog unit :=
  Await o (fun ok => if ok then Ret tt else Raise TransportError).

(** [for x in l: body x]. *)
Fixpoint for_each {A} (l : list A) (body : A -> prog unit) : prog unit :=
  match l with
  | [] => Ret tt
  | x :: l' => body x ;; for_each l' body
  end.

(** A [for] loop that updates a local variable of the handler. *)
Fixpoint for_fold {A S} (l : list A) (body : S -> A -> prog S) (s : S)
  : prog S :=
  match l with
  | [] => Ret s
  | x :: l' => s' <- body s x ;; for_fold l' body s'
  end.

(** ** The bot: [RSSBot] *)

Definition file_read : prog text :=
  FileRead (fun r => match r with Some t => Ret t | None => Raise IOError end).

Definition file_write (t : text) : prog unit :=
  FileWrite t (fun ok => if ok then Ret tt else Raise IOError).

Definition json_load_file (t : text) : prog TrackingState :=
  match json_load t with Some d => Ret d | None => Raise JSONDecodeError end.

(** [RSSBot.load_data]: the content of the data file when it exists and
    loads, the default data structure otherwise. *)
Definition load_data : prog TrackingState :=
  ex <- FileExists Ret ;;
  r <- (if ex : bool then
          try_except (t <- file_read ;; d <- json_load_file t ;; Ret (Some d))
                     (fun _ => log ErrLoading ;; Ret None)
        else Ret None) ;;
  match r with
  | Some d => Ret d
  | None => Ret default_data
  end.

(** [RSSBot.__init__]. *)
Definition init : prog unit :=
  d <- load_data ;; set_data d.

(** [RSSBot.save_data]. *)
Definition save_data : prog unit :=
  try_except (d <- get_data ;; file_write (json_dump d))
             (fun _ => log ErrSaving).

(** [entry.get(key, default)]. *)
Definition entry_get (v : option pystr) (default : pystr) : pystr :=
  match v with Some x => x | None => default end.

Definition post_of_entry (e : Entry) : Post :=
  {| title := entry_get (e_title e) (lit "No title");
     link := entry_get (e_link e) [];
     published := entry_get (e_published e) [];
     summary := entry_get (e_summary e) (entry_get (e_description e) []);
     id := entry_get (e_id e) (entry_get (e_link e) []) |}.

Definition feedparser_parse (url : pystr) : prog (list Entry) :=
  FeedparserParse url
    (fun r => match r with Some es => Ret es | None => Raise FetchError end).

(** [RSSBot.get_feed_posts]. *)
Definition get_feed_posts (feed_url : pystr) : prog (list Post) :=
  try_except (entries <- feedparser_parse feed_url ;;
              Ret (post_of_entry <$> entries))
             (fun _ => log (ErrFetching feed_url) ;; Ret []).

(** ** Accesses to [rss_bot.data] *)

(** [rss_bot.data['seen_posts'][feed_url]]: [KeyError] when absent. *)
Definition lookup_seen (feed_url : pystr) : prog (list pystr) :=
  d <- get_data ;;
  match seen_posts d !! feed_url with
  | Some l => Ret l
  | None => Raise KeyError
  end.

(** [rss_bot.data['seen_posts'][feed_url] = []]. *)
Definition reset_seen (feed_url : pystr) : prog unit :=
  d <- get_data ;;
  set_data (set_seen_posts (<[feed_url := []]> (seen_posts d)) d).

(** [rss_bot.data['seen_posts'][feed_url].append(i)]. *)
Definition append_seen (feed_url i : pystr) : prog unit :=
  l <- lookup_seen feed_url ;;
  d <- get_data ;;
  set_data (set_seen_posts (<[feed_url := l ++ [i]]> (seen_posts d)) d).

(** [if feed_url not in rss_bot.data['seen_posts']:
       rss_bot.data['seen_posts'][feed_url] = []]. *)
Definition init_seen (feed_url : pystr) : prog unit :=
  d <- get_data ;;
  match seen_posts d !! feed_url with
  | Some _ => Ret tt
  | None => reset_seen feed_url
  end.

(** ** Messages *)

Definition nl : pystr := [10%N].

Definition welcome (n : nat) : pystr :=
  lit "Welcome to RSS Feed Monitor Bot!" ++ nl ++ nl ++
  lit "Available commands:" ++ nl ++
  lit "/feeds - List all monitored RSS feeds" ++ nl ++
  lit "/addfeed <url> - Add a new RSS feed" ++ nl ++
  lit "/removefeed <url> - Remove an RSS feed" ++ nl ++
  lit "/check - Manually check feeds for updates" ++ nl ++
  lit "/list - Show last 10 posts from all feeds" ++ nl ++ nl ++
  lit "Currently monitoring " ++ str_of_nat n ++ lit " feed(s)".

Definition msg_add_usage : pystr :=
  lit "Please provide a feed URL." ++ nl ++ lit "Usage: /addfeed <url>".
Definition msg_already : pystr := lit "This feed is already being monitored.".
Definition msg_validating : pystr := lit "Validating RSS feed...".
Definition msg_could_not_fetch : pystr :=
  lit "Could not fetch the RSS feed. Please check the URL and try again.".
Definition msg_added (n : nat) : pystr :=
  lit "Successfully added feed!" ++ nl ++
  lit "Found " ++ str_of_nat n ++ lit " existing posts." ++ nl ++
  lit "You'll be notified of new posts from now on.".
Definition msg_remove_usage : pystr :=
  lit "Please provide a feed URL." ++ nl ++ lit "Usage: /removefeed <url>".
Definition msg_not_monitored : pystr := lit "This feed is not being monitored.".
Definition msg_removed (feed_url : pystr) : pystr :=
  lit "Removed feed: " ++ feed_url.
Definition msg_checking : pystr := lit "Checking feeds for updates...".
Definition msg_no_new : pystr := lit "No new posts found.".
Definition msg_found (n : nat) : pystr :=
  lit "Found " ++ str_of_nat n ++ lit " new post(s)!".

(** The marker appended to a truncated summary. *)
Definition truncation_marker : pystr := lit "...".

(** The summary as it enters the message:
    [summary = post['summary'][:500]], then [summary += "..."] when
    [len(post['summary']) > 500]. *)
Definition truncate_summary (s : pystr) : pystr :=
  let summary := take 500 s in
  if decide (500 < length s)%nat then summary ++ truncation_marker
  else summary.

(** The head of the notification: the three f-strings and the optional
    date line.  The non-ASCII characters are those of the source file. *)
Definition message_head (post : Post) : pystr :=
  let message :=
    [240; 376; 8221; 8221]%N ++ lit " New Post Alert!" ++ nl ++ nl ++
    [240; 376; 8220; 176]%N ++ lit " " ++ title post ++ nl ++ nl ++
    [240; 376; 8221; 8212]%N ++ lit " " ++ link post ++ nl ++ nl in
  if truthy (published post)
  then message ++ ([240; 376; 8220; 8230]%N ++ lit " " ++ published post
                   ++ nl ++ nl)
  else message.

(** The notification message built in both check handlers. *)
Definition format_message (post : Post) : pystr :=
  let message := message_head post in
  if truthy (summary post)
  then message ++ truncate_summary (summary post)
  else message.

(** ** The handlers *)

(** [start], for [update.effective_chat.id = chat_id]. *)
Definition start (chat_id : Z) : prog unit :=
  d <- get_data ;;
  (if decide (chat_id ∈ chat_ids d) then Ret tt
   else set_data (set_chat_ids (chat_ids d ++ [chat_id]) d) ;; save_data) ;;
  d <- get_data ;;
  await (Reply (welcome (length (feeds d)))).

(** The body of [for post in posts] in [add_feed]. *)
Definition mark_seen (feed_url : pystr) (post : Post) : prog unit :=
  seen <- lookup_seen feed_url ;;
  if decide (id post ∈ seen) then Ret tt
  else append_seen feed_url (id post).

(** [add_feed], for [context.args = args]. *)
Definition add_feed (args : list pystr) : prog unit :=
  match args with
  | [] => await (Reply msg_add_usage)
  | feed_url :: _ =>
    d <- get_data ;;
    if decide (feed_url ∈ feeds d) then await (Reply msg_already)
    else
      await (Reply msg_validating) ;;
      posts <- get_feed_posts feed_url ;;
      if truthy posts then
        d <- get_data ;;
        set_data (set_feeds (feeds d ++ [feed_url]) d) ;;
        reset_seen feed_url ;;
        for_each posts (mark_seen feed_url) ;;
        save_data ;;
        await (Reply (msg_added (length posts)))
      else await (Reply msg_could_not_fetch)
  end.

(** [remove_feed]; [has_message] is the truth value of [update.message]. *)
Definition remove_feed (has_message : bool) (args : list pystr) : prog unit :=
  if has_message then
    match args with
    | [] => await (Reply msg_remove_usage)
    | feed_url :: _ =>
      d <- get_data ;;
      if decide (feed_url ∈ feeds d) then
        set_data (set_feeds (list_remove feed_url (feeds d)) d) ;;
        d <- get_data ;;
        (match seen_posts d !! feed_url with
         | Some _ => set_data (set_seen_posts (delete feed_url (seen_posts d)) d)
         | None => Ret tt
         end) ;;
        save_data ;;
        await (Reply (msg_removed feed_url))
      else await (Reply msg_not_monitored)
    end
  else Ret tt.

(** The body of [for post in posts] in [check_feeds]; [n] is
    [new_posts_found]. *)
Definition check_post (feed_url : pystr) (n : nat) (post : Post) : prog nat :=
  seen <- lookup_seen feed_url ;;
  if decide (id post ∈ seen) then Ret n
  else
    append_seen feed_url (id post) ;;
    await (Reply (format_message post)) ;;
    Ret (S n).

(** The body of [for feed_url in rss_bot.data['feeds']] in [check_feeds]. *)
Definition check_feed (n : nat) (feed_url : pystr) : prog nat :=
  posts <- get_feed_posts feed_url ;;
  init_seen feed_url ;;
  for_fold posts (check_post feed_url) n.

(** [check_feeds].  The loop runs over the feeds list as it is when the
    loop starts: no check handler changes the list, so this is the list
    the iterator of the source reads. *)
Definition check_feeds : prog unit :=
  await (Reply msg_checking) ;;
  d <- get_data ;;
  n <- for_fold (feeds d) check_feed 0%nat ;;
  save_data ;;
  match n with
  | O => await (Reply msg_no_new)
  | S _ => await (Reply (msg_found n))
  end.

(** [for chat_id in rss_bot.data['chat_ids']] with its [try]; no check
    handler changes the chats while the loop runs. *)
Definition send_all (message : pystr) : prog unit :=
  d <- get_data ;;
  for_each (chat_ids d) (fun chat_id =>
    try_except (await (Send chat_id message))
               (fun _ => log (ErrSending chat_id))).

(** The body of [for post in posts] in [check_feeds_periodic]. *)
Definition periodic_post (feed_url : pystr) (post : Post) : prog unit :=
  seen <- lookup_seen feed_url ;;
  if decide (id post ∈ seen) then Ret tt
  else
    append_seen feed_url (id post) ;;
    send_all (format_message post).

Definition periodic_feed (feed_url : pystr) : prog unit :=
  posts <- get_feed_posts feed_url ;;
  init_seen feed_url ;;
  for_each posts (periodic_post feed_url).

(** [check_feeds_periodic]. *)
Definition check_feeds_periodic : prog unit :=
  log InfoPeriodic ;;
  d <- get_data ;;
  for_each (feeds d) periodic_feed ;;
  save_data.

(** ** Semantics *)

(** What a write to the data file does: it succeeds, or it raises and
    leaves the file absent, truncated or as it was. *)
Inductive write_outcome :=
| Written
| WriteFailed (left : option text).

(** The environment of a run: what [feedparser.parse] answers for a URL
    ([None]: it raises), whether an awaited transport call succeeds given
    the calls made before it, whether the data file can be read, and what
    the n-th write to it does. *)
Record env := {
  env_parse : pystr -> option (list Entry);
  env_transport : list output -> output -> bool;
  env_read_ok : bool;
  env_write : nat -> write_outcome
}.

(** The process and its surroundings: the global [rss_bot.data], the data
    file ([None]: it does not exist), the transport calls made so far, the
    log, and the number of writes attempted. *)
Record world := {
  data : TrackingState;
  disk : option text;
  sent : list output;
  logs : list log_msg;
  writes : nat
}.

Definition with_data (d : TrackingState) (w : world) : world :=
  {| data := d; disk := disk w; sent := sent w; logs := logs w;
     writes := writes w |}.
Definition with_sent (o : output) (w : world) : world :=
  {| data := data w; disk := disk w; sent := sent w ++ [o]; logs := logs w;
     writes := writes w |}.
Definition with_log (m : log_msg) (w : world) : world :=
  {| data := data w; disk := disk w; sent := sent w; logs := logs w ++ [m];
     writes := writes w |}.
Definition with_write (c : option text) (w : world) : world :=
  {| data := data w; disk := c; sent := sent w; logs := logs w;
     writes := S (writes w) |}.

Definition file_exists (w : world) : bool :=
  match disk w with Some _ => true | None => false end.

Definition read_file (E : env) (w : world) : option text :=
  if env_read_ok E then disk w else None.

Definition write_file (E : env) (t : text) (w : world) : bool * world :=
  match env_write E (writes w) with
  | Written => (true, with_write (Some t) w)
  | WriteFailed c => (false, with_write c w)
  end.

(** One handler run from its start to its end, nothing else running in
    between. *)
Fixpoint run {A} (E : env) (p : prog A) (w : world) : result A * world :=
  match p with
  | Ret a => (Ok a, w)
  | Raise e => (Raised e, w)
  | GetData k => run E (k (data w)) w
  | SetData d k => run E k (with_data d w)
  | FeedparserParse u k => run E (k (env_parse E u)) w
  | Await o k => run E (k (env_transport E (sent w) o)) (with_sent o w)
  | FileExists k => run E (k (file_exists w)) w
  | FileRead k => run E (k (read_file E w)) w
  | FileWrite t k =>
    let '(ok, w') := write_file E t w in run E (k ok) w'
  | Log m k => run E k (with_log m w)
  end.

(** A coroutine of the event loop is suspended at an [await] (or not
    started yet), with what is left of it to run, or it has ended. *)
Inductive status (A : Type) :=
| Finished (r : result A)
| Suspended (p : prog A).

(** A coroutine run up to its next [await] (or to its end): the transport
    call is issued, its outcome is fixed, and the coroutine is suspended
    with what is left of it.  Nothing else runs in between. *)
Fixpoint advance {A} (E : env) (p : prog A) (w : world) : status A * world :=
  match p with
  | Ret a => (Finished A (Ok a), w)
  | Raise e => (Finished A (Raised e), w)
  | GetData k => advance E (k (data w)) w
  | SetData d k => advance E k (with_data d w)
  | FeedparserParse u k => advance E (k (env_parse E u)) w
  | Await o k => (Suspended A (k (env_transport E (sent w) o)), with_sent o w)
  | FileExists k => advance E (k (file_exists w)) w
  | FileRead k => advance E (k (read_file E w)) w
  | FileWrite t k =>
    let '(ok, w') := write_file E t w in advance E (k ok) w'
  | Log m k => advance E k (with_log m w)
  end.

(** The event loop resumes a coroutine; one that has ended stays so. *)
Definition resume {A} (E : env) (t : status A) (w : world)
  : status A * world :=
  match t with
  | Finished _ _ => (t, w)
  | Suspended _ p => advance E p w
  end.

(** Two coroutines on the event loop.  [sched] lists which one the loop
    resumes at each turn ([true]: the first); each runs up to its next
    [await]. *)
Fixpoint interleave {A B} (E : env) (sched : list bool)
    (a : status A) (b : status B) (w : world)
  : status A * status B * world :=
  match sched with
  | [] => (a, b, w)
  | true :: sched' =>
    let '(a', w') := resume E a w in interleave E sched' a' b w'
  | false :: sched' =>
    let '(b', w') := resume E b w in interleave E sched' a b' w'
  end.

(** A coroutine run to its end with nothing else running. *)
Definition complete {A} (E : env) (t : status A) (w : world)
  : result A * world :=
  match t with
  | Finished _ r => (r, w)
  | Suspended _ p => run E p w
  end.

(** Two handlers that overlap: the event loop follows [sched], and when
    [sched] is used up the first coroutine and then the second run to their
    ends.  Every execution of the two on the event loop is of this form for
    some [sched]. *)
Definition overlap {A B} (E : env) (sched : list bool)
    (pa : prog A) (pb : prog B) (w : world) : result A * result B * world :=
  let '(a, b, w1) := interleave E sched (Suspended A pa) (Suspended B pb) w in
  let '(ra, w2) := complete E a w1 in
  let '(rb, w3) := complete E b w2 in
  (ra, rb, w3).

(** The process start: [rss_bot = RSSBot()] with the data file holding
    [file]. *)
Definition boot (E : env) (file : option text) : world :=
  snd (run E init {| data := default_data; disk := file; sent := [];
                     logs := []; writes := 0 |}).

End Bot.

Arguments Ret {text A} a.
Arguments Raise {text A} e.
Arguments GetData {text A} k.
Arguments SetData {text A} d k.
Arguments FeedparserParse {text A} url k.
Arguments Await {text A} o k.
Arguments FileExists {text A} k.
Arguments FileRead {text A} k.
Arguments FileWrite {text A} t k.
Arguments Log {text A} m k.
Arguments bind {text A B} m f.
Arguments try_except {text A} m h.
Arguments get_data {text}.
Arguments set_data {text} d.
Arguments log {text} m.
Arguments await {text} o.
Arguments for_each {text A} l body.
Arguments for_fold {text A S} l body s.
Arguments file_read {text}.
Arguments file_write {text} t.
Arguments json_load_file {text} json_load t.
Arguments load_data {text} json_load.
Arguments init {text} json_load.
Arguments save_data {text} json_dump.
Arguments feedparser_parse {text} url.
Arguments get_feed_posts {text} feed_url.
Arguments lookup_seen {text} feed_url.
Arguments reset_seen {text} feed_url.
Arguments append_seen {text} feed_url i.
Arguments init_seen {text} feed_url.
Arguments start {text} json_dump chat_id.
Arguments mark_seen {text} feed_url post.
Arguments add_feed {text} json_dump args.
Arguments remove_feed {text} json_dump has_message args.
Arguments check_post {text} feed_url n post.
Arguments check_feed {text} n feed_url.
Arguments check_feeds {text} json_dump.
Arguments send_all {text} message.
Arguments periodic_post {text} feed_url post.
Arguments periodic_feed {text} feed_url.
Arguments check_feeds_periodic {text} json_dump.
Arguments Written {text}.
Arguments WriteFailed {text} left.
Arguments env_parse {text} e url.
Arguments env_transport {text} e history o.
Arguments env_read_ok {text} e.
Arguments env_write {text} e n.
Arguments data {text} w.
Arguments disk {text} w.
Arguments sent {text} w.
Arguments logs {text} w.
Arguments writes {text} w.
Arguments with_data {text} d w.
Arguments with_sent {text} o w.
Arguments with_log {text} m w.
Arguments with_write {text} c w.
Arguments file_exists {text} w.
Arguments read_file {text} E w.
Arguments write_file {text} E t w.
Arguments run {text A} E p w.
Arguments advance {text A} E p w.
Arguments Finished {text A} r.
Arguments Suspended {text A} p.
Arguments resume {text A} E t w.
Arguments interleave {text A B} E sched a b w.
Arguments complete {text A} E t w.
Arguments overlap {text A B} E sched pa pb w.
Arguments boot {text} json_load E file.

Bind Scope prog_scope with prog.
Notation "x <- m ;; k" := (bind m (fun x => k))
  (at level 20, m at level 99, k at level 200) : prog_scope.
Notation "m ;; k" := (bind m (fun _ => k))
  (at level 100, k at level 200, right associativity) : prog_scope.

(** ** The loops as functions *)

Section Functional.

Context {text : Type}.

(** The posts [get_feed_posts] returns for a URL. *)
Definition posts_of (E : env text) (feed_url : pystr) : list Post :=
  match env_parse E feed_url with
  | Some entries => post_of_entry <$> entries
  | None => []
  end.

(** The posts a [for post in posts] loop of the check handlers finds new,
    starting from the seen list [seen]. *)
Fixpoint new_posts (seen : list pystr) (posts : list Post) : list Post :=
  match posts with
  | [] => []
  | post :: posts' =>
    if decide (id post ∈ seen) then new_posts seen posts'
    else post :: new_posts (seen ++ [id post]) posts'
  end.

(** The seen list after the loop. *)
Fixpoint seen_after (seen : list pystr) (posts : list Post) : list pystr :=
  match posts with
  | [] => seen
  | post :: posts' =>
    if decide (id post ∈ seen) then seen_after seen posts'
    else seen_after (seen ++ [id post]) posts'
  end.

(** The seen list of a feed at the start of its turn: empty when the feed
    has no entry yet. *)
Definition seen_of (m : gmap pystr (list pystr)) (feed_url : pystr)
  : list pystr :=
  match m !! feed_url with Some l => l | None => [] end.

(** [seen_posts] after a cycle over the feeds [fs]. *)
Fixpoint cycle_seen (E : env text) (fs : list pystr)
    (m : gmap pystr (list pystr)) : gmap pystr (list pystr) :=
  match fs with
  | [] => m
  | f :: fs' =>
    cycle_seen E fs' (<[f := seen_after (seen_of m f) (posts_of E f)]> m)
  end.

(** The new posts of a cycle over the feeds [fs], each with its feed, in
    the order the cycle finds them. *)
Fixpoint cycle_new (E : env text) (fs : list pystr)
    (m : gmap pystr (list pystr)) : list (pystr * Post) :=
  match fs with
  | [] => []
  | f :: fs' =>
    (pair f <$> new_posts (seen_of m f) (posts_of E f)) ++
    cycle_new E fs' (<[f := seen_after (seen_of m f) (posts_of E f)]> m)
  end.

(** The messages of one new post in the periodic check: one per chat. *)
Definition fanout (chats : list Z) (post : Post) : list output :=
  (fun chat_id => Send chat_id (format_message post)) <$> chats.

(** The message of one new post in the manual check. *)
Definition announce (post : Post) : output := Reply (format_message post).

(** The last reply of the manual check. *)
Definition summary_reply (n : nat) : output :=
  match n with
  | O => Reply msg_no_new
  | S _ => Reply (msg_found n)
  end.

(** A transport call that carries the notification of a post, and how
    many of a list of calls do. *)
Definition notifies (post : Post) (o : output) : bool :=
  match o with
  | Reply t | Send _ t => bool_decide (t = format_message post)
  end.

Definition notifications (post : Post) (l : list output) : nat :=
  length (filter (fun o => notifies post o = true) l).

(** The world after [save_data]. *)
Definition saved (json_dump : TrackingState -> text) (E : env text)
    (w : world text) : world text :=
  match env_write E (writes w) with
  | Written => with_write (Some (json_dump (data w))) w
  | WriteFailed c => with_log ErrSaving (with_write c w)
  end.

(** The world after [get_feed_posts]. *)
Definition fetched (E : env text) (feed_url : pystr) (w : world text)
  : world text :=
  match env_parse E feed_url with
  | Some _ => w
  | None => with_log (ErrFetching feed_url) w
  end.

(** [data] with the seen list of [f] set to [l]. *)
Definition put_seen (f : pystr) (l : list pystr) (d : TrackingState)
  : TrackingState :=
  set_seen_posts (<[f := l]> (seen_posts d)) d.

(** [data] after [add_feed] has registered [f] and marked [posts] seen. *)
Definition added (f : pystr) (posts : list Post) (d : TrackingState)
  : TrackingState :=
  put_seen f (seen_after [] posts) (set_feeds (feeds d ++ [f]) d).

(** [data] after [remove_feed] has dropped [f]. *)
Definition removed (f : pystr) (d : TrackingState) : TrackingState :=
  set_seen_posts (delete f (seen_posts d))
                 (set_feeds (list_remove f (feeds d)) d).

(** [w'] is [w] with the data [d'] and the transport calls [out] added;
    the log is left open. *)
Definition steps_to (w w' : world text) (d' : TrackingState)
    (out : list output) : Prop :=
  data w' = d' /\ sent w' = sent w ++ out /\
  disk w' = disk w /\ writes w' = writes w.

(** A program keeps a property of [rss_bot.data], however it ends. *)
Definition keeps {A} (I : TrackingState -> Prop) (p : prog text A) : Prop :=
  forall E w, I (data w) -> I (data (run E p w).2).

(** A transport that never raises. *)
Definition reliable (E : env text) : Prop :=
  forall history o, env_transport E history o = true.

(** The transport calls a handler gets through when it has the calls
    [outs] to make one after the other, nothing else calling in between,
    and stops at the first that raises: the calls made, the one that raised
    included, and whether none raised. *)
Fixpoint calls_made (E : env text) (history outs : list output)
  : list output * bool :=
  match outs with
  | [] => ([], true)
  | o :: outs' =>
    if env_transport E history o then
      let '(made, ok) := calls_made E (history ++ [o]) outs' in
      (o :: made, ok)
    else ([o], false)
  end.

(** ** Reachable states *)

Variable json_dump : TrackingState -> text.
Variable json_load : text -> option TrackingState.

(** The updates and the job the application dispatches.  [list_feeds] and
    [list_posts] read [rss_bot.data] and write none of it: they are left
    out. *)
Inductive handler :=
| HStart (chat_id : Z)
| HAddFeed (args : list pystr)
| HRemoveFeed (has_message : bool) (args : list pystr)
| HCheckFeeds
| HCheckFeedsPeriodic.

Definition handle (h : handler) : prog text unit :=
  match h with
  | HStart chat_id => start json_dump chat_id
  | HAddFeed args => add_feed json_dump args
  | HRemoveFeed has_message args => remove_feed json_dump has_message args
  | HCheckFeeds => check_feeds json_dump
  | HCheckFeedsPeriodic => check_feeds_periodic json_dump
  end.

(** The worlds reached from a process start that loaded [d0], handlers
    running one after the other, in any environment. *)
Inductive reachable_from (d0 : TrackingState) : world text -> Prop :=
| reach_boot E file :
    data (boot json_load E file) = d0 ->
    reachable_from d0 (boot json_load E file)
| reach_handle E h w :
    reachable_from d0 w ->
    reachable_from d0 (run E (handle h) w).2.

(** ** Invariants of [rss_bot.data] *)

(** No id twice in a seen list. *)
Definition seen_nodup (d : TrackingState) : Prop :=
  forall f l, seen_posts d !! f = Some l -> NoDup l.

(** Every feed of the list has a seen list. *)
Definition feeds_have_seen (d : TrackingState) : Prop :=
  forall f, f ∈ feeds d -> is_Some (seen_posts d !! f).

(** Every seen list belongs to a feed of the list. *)
Definition no_orphan_seen (d : TrackingState) : Prop :=
  forall f, is_Some (seen_posts d !! f) -> f ∈ feeds d.

(** What holds of the states reached from the default data: the feeds are
    distinct, no seen list is orphaned, and every feed has a seen list but
    possibly the seed feed of the default data. *)
Definition tracking_inv (d : TrackingState) : Prop :=
  NoDup (feeds d) /\
  no_orphan_seen d /\
  (forall f, f ∈ feeds d -> is_Some (seen_posts d !! f) \/ f = seed_feed).

(** [tracking_inv] while a loop runs over the feeds [fs] of the list. *)
Definition tracking_inv_on (fs : list pystr) (d : TrackingState) : Prop :=
  tracking_inv d /\ feeds d = fs.

End Functional.

Arguments handle {text} json_dump h.
Arguments reachable_from {text} json_dump json_load d0 w.

(** ** A manual check and a periodic check that overlap *)

Section Overlap.

Context {text : Type}.
Variable json_dump : TrackingState -> text.
Variable E : env text.

Local Open Scope prog_scope.

Definition is_reply (o : output) : bool :=
  match o with Reply _ => true | Send _ _ => false end.

(** The replies of the manual check, and the messages of the periodic
    check, among the transport calls. *)
Definition replies_of (l : list output) : list output :=
  filter (fun o => is_reply o = true) l.
Definition sends_of (l : list output) : list output :=
  filter (fun o => is_reply o = false) l.

(** The ids of the posts of feed [g] in a list of posts with their feeds. *)
Definition ids_of (g : pystr) (l : list (pystr * Post)) : list pystr :=
  (fun x => id x.2) <$> filter (fun x => x.1 = g) l.

(** The posts a handler found new, in a history that tells for each new
    post which handler found it ([true]: the manual check). *)
Definition found_by (who : bool) (hist : list (bool * (pystr * Post)))
  : list (pystr * Post) :=
  snd <$> filter (fun x => x.1 = who) hist.

(** What tells a new post of the history from the others: its feed and
    its id. *)
Definition post_key (x : bool * (pystr * Post)) : pystr * pystr :=
  (x.2.1, id x.2.2).

(** *** The manual check from the inside *)

(** What is left of [check_feeds] after the loops. *)
Definition manual_tail (n : nat) : prog text unit :=
  save_data json_dump ;;
  match n with
  | O => await (Reply msg_no_new)
  | S _ => await (Reply (msg_found n))
  end.

(** ... from the feed loop on, the feeds [fs] to go. *)
Definition manual_feeds (n : nat) (fs : list pystr) : prog text unit :=
  bind (for_fold fs check_feed n) manual_tail.

(** ... from the post loop of feed [f] on, its posts [ps] to go. *)
Definition manual_posts (n : nat) (f : pystr) (ps : list Post)
    (fs : list pystr) : prog text unit :=
  bind (bind (for_fold ps (check_post f) n)
             (fun n' => for_fold fs check_feed n'))
       manual_tail.

(** ... after the first reply. *)
Definition manual_begin : prog text unit :=
  d <- get_data ;; manual_feeds 0 (feeds d).

(** Where the manual check is. *)
Inductive manual_pos :=
| MStart
| MBegin
| MFeeds (n : nat) (fs : list pystr)
| MPosts (n : nat) (f : pystr) (ps : list Post) (fs : list pystr)
| MLast
| MFailed
| MDone (r : result unit).

Definition manual_task (pos : manual_pos) : status text unit :=
  match pos with
  | MStart => Suspended (check_feeds json_dump)
  | MBegin => Suspended manual_begin
  | MFeeds n fs => Suspended (manual_feeds n fs)
  | MPosts n f ps fs => Suspended (manual_posts n f ps fs)
  | MLast => Suspended (Ret tt)
  | MFailed => Suspended (Raise TransportError)
  | MDone r => Finished r
  end.

(** *** The periodic check from the inside *)

(** The body of [for chat_id in rss_bot.data['chat_ids']]. *)
Definition send_one (message : pystr) (chat_id : Z) : prog text unit :=
  try_except (await (Send chat_id message))
             (fun _ => log (ErrSending chat_id)).

(** What is left of [check_feeds_periodic] from the feed loop on. *)
Definition periodic_feeds (fs : list pystr) : prog text unit :=
  bind (for_each fs periodic_feed) (fun _ => save_data json_dump).

(** ... from the post loop of feed [f] on. *)
Definition periodic_posts (f : pystr) (ps : list Post) (fs : list pystr)
  : prog text unit :=
  bind (bind (for_each ps (periodic_post f))
             (fun _ => for_each fs periodic_feed))
       (fun _ => save_data json_dump).

(** ... from the chat loop of a message on: [first] is what is left of the
    body for the chat the message was just sent to. *)
Definition periodic_chats (first : prog text unit) (message : pystr)
    (cs : list Z) (f : pystr) (ps : list Post) (fs : list pystr)
  : prog text unit :=
  bind (bind (bind (bind first (fun _ => for_each cs (send_one message)))
                   (fun _ => for_each ps (periodic_post f)))
             (fun _ => for_each fs periodic_feed))
       (fun _ => save_data json_dump).

(** What is left of [send_one] after its [await]. *)
Definition after_send (ok : bool) (chat_id : Z) : prog text unit :=
  if ok then Ret tt else log (ErrSending chat_id).

(** Where the periodic check is. *)
Inductive periodic_pos :=
| PStart
| PFeeds (fs : list pystr)
| PPosts (f : pystr) (ps : list Post) (fs : list pystr)
| PChats (ok : bool) (chat_id : Z) (post : Post) (cs : list Z)
         (f : pystr) (ps : list Post) (fs : list pystr)
| PDone (r : result unit).

Definition periodic_task (pos : periodic_pos) : status text unit :=
  match pos with
  | PStart => Suspended (check_feeds_periodic json_dump)
  | PFeeds fs => Suspended (periodic_feeds fs)
  | PPosts f ps fs => Suspended (periodic_posts f ps fs)
  | PChats ok c post cs f ps fs =>
    Suspended (periodic_chats (after_send ok c) (format_message post)
                              cs f ps fs)
  | PDone r => Finished r
  end.

(** *** What holds while the two run *)

(** The world when the two handlers start. *)
Variable w0 : world text.

Definition announce_of (x : pystr * Post) : output := announce x.2.
Definition fanout_of (x : pystr * Post) : list output :=
  fanout (chat_ids (data w0)) x.2.

(** The shared data: the feeds and the chats stay, every seen list is the
    one at the start followed by the ids of the new posts of its feed in
    the order they were found, no id is twice in it, and the new posts are
    fetched posts of feeds of the list. *)
Definition shared (w : world text) (hist : list (bool * (pystr * Post)))
  : Prop :=
  feeds (data w) = feeds (data w0)
  /\ chat_ids (data w) = chat_ids (data w0)
  /\ (forall g, seen_of (seen_posts (data w)) g =
                seen_of (seen_posts (data w0)) g ++ ids_of g (snd <$> hist))
  /\ (forall g, NoDup (seen_of (seen_posts (data w)) g))
  /\ (forall x, x ∈ hist ->
                x.2.1 ∈ feeds (data w0) /\ x.2.2 ∈ posts_of E x.2.1).

(** The loops of a handler stay within the feeds of the list and the posts
    fetched, and the feed of a post loop has its seen list. *)
Definition within (w : world text) (cur : option (pystr * list Post))
    (fs : list pystr) : Prop :=
  (forall g, g ∈ fs -> g ∈ feeds (data w0))
  /\ match cur with
     | Some (f, ps) =>
       f ∈ feeds (data w0)
       /\ (forall post, post ∈ ps -> post ∈ posts_of E f)
       /\ is_Some (seen_posts (data w) !! f)
     | None => True
     end.

(** The replies of the manual check so far, [la] being the new posts it
    found.  When a reply has raised, the transport has refused a call, and
    the replies end with the reply of the last new post found or with the
    count. *)
Definition manual_inv (pos : manual_pos) (la : list (pystr * Post))
    (w : world text) : Prop :=
  let head := replies_of (sent w0) ++
              Reply msg_checking :: (announce_of <$> la) in
  let failed :=
    (replies_of (sent w) = head \/
     replies_of (sent w) = head ++ [summary_reply (length la)])
    /\ (exists history o, env_transport E history o = false) in
  match pos with
  | MStart => la = [] /\ replies_of (sent w) = replies_of (sent w0)
  | MBegin =>
    la = [] /\
    replies_of (sent w) = replies_of (sent w0) ++ [Reply msg_checking]
  | MFeeds n fs =>
    n = length la /\ replies_of (sent w) = head /\ within w None fs
  | MPosts n f ps fs =>
    n = length la /\ replies_of (sent w) = head /\ within w (Some (f, ps)) fs
  | MLast | MDone (Ok _) =>
    replies_of (sent w) = head ++ [summary_reply (length la)]
  | MFailed => failed
  | MDone (Raised e) => e = TransportError /\ failed
  end.

(** What the periodic check has still to look at. *)
Definition feed_to_do (pos : periodic_pos) (g : pystr) : Prop :=
  match pos with
  | PStart => True
  | PFeeds fs | PPosts _ _ fs | PChats _ _ _ _ _ _ fs => g ∈ fs
  | PDone _ => False
  end.

Definition post_to_do (pos : periodic_pos) (g : pystr) (post : Post) : Prop :=
  match pos with
  | PPosts f ps _ | PChats _ _ _ _ f ps _ => g = f /\ post ∈ ps
  | _ => False
  end.

(** Every feed of the list is still to do, or it has a seen list that
    holds the id of each of its posts but those still to do. *)
Definition covered (pos : periodic_pos) (w : world text) : Prop :=
  forall g, g ∈ feeds (data w0) ->
    feed_to_do pos g \/
    (is_Some (seen_posts (data w) !! g) /\
     forall post, post ∈ posts_of E g ->
       id post ∈ seen_of (seen_posts (data w)) g \/ post_to_do pos g post).

(** The data file holds the data, when the writes succeed. *)
Definition persisted (w : world text) : Prop :=
  (forall n, env_write E n = Written) ->
  disk w = Some (json_dump (data w)).

(** The messages of the periodic check so far, [lb] being the new posts it
    found: those of the last one may still be under way. *)
Definition periodic_inv (pos : periodic_pos) (lb : list (pystr * Post))
    (w : world text) : Prop :=
  let all := sends_of (sent w0) ++ flat_map fanout_of lb in
  covered pos w /\
  match pos with
  | PStart => lb = [] /\ sends_of (sent w) = sends_of (sent w0)
  | PFeeds fs => sends_of (sent w) = all /\ within w None fs
  | PPosts f ps fs => sends_of (sent w) = all /\ within w (Some (f, ps)) fs
  | PChats _ _ post cs f ps fs =>
    sends_of (sent w) ++ ((fun c => Send c (format_message post)) <$> cs) = all
    /\ within w (Some (f, ps)) fs
  | PDone r => r = Ok tt /\ sends_of (sent w) = all /\ persisted w
  end.

(** The entries of [seen_posts] stay. *)
Definition entries_stay (w w' : world text) : Prop :=
  forall g, is_Some (seen_posts (data w) !! g) ->
            is_Some (seen_posts (data w') !! g).

(** Once the periodic check has been through every feed, nothing is left
    for the manual check to change. *)
Definition settled (w : world text) : Prop := covered (PDone (Ok tt)) w.

(** What a turn of the manual check does, from the world [w] with the
    history [hist]. *)
Definition manual_turn (w : world text)
    (hist : list (bool * (pystr * Post)))
    (r : status text unit * world text) : Prop :=
  exists pos' new,
    r.1 = manual_task pos'
    /\ shared r.2 (hist ++ (pair true <$> new))
    /\ manual_inv pos' (found_by true hist ++ new) r.2
    /\ sends_of (sent r.2) = sends_of (sent w)
    /\ entries_stay w r.2
    /\ (settled w -> data r.2 = data w /\ (persisted w -> persisted r.2)).

(** What a turn of the periodic check does. *)
Definition periodic_turn (w : world text)
    (hist : list (bool * (pystr * Post)))
    (r : status text unit * world text) : Prop :=
  exists pos' new,
    r.1 = periodic_task pos'
    /\ shared r.2 (hist ++ (pair false <$> new))
    /\ periodic_inv pos' (found_by false hist ++ new) r.2
    /\ replies_of (sent r.2) = replies_of (sent w)
    /\ entries_stay w r.2.

(** The invariant of the two coroutines on the event loop. *)
Definition overlap_inv (a b : status text unit) (w : world text) : Prop :=
  exists pa pb hist,
    a = manual_task pa /\ b = periodic_task pb
    /\ shared w hist
    /\ manual_inv pa (found_by true hist) w
    /\ periodic_inv pb (found_by false hist) w.

End Overlap.

(** ** The data file: [json.dump] and [json.load] *)

Module Json.

(** The values [json.load] builds; a number with a fraction or an
    exponent, [NaN] and the infinities are kept as their text. *)
#[warnings="-register-all"]
Inductive value :=
| Null
| Bool (b : bool)
| Int (z : Z)
| Float (literal : pystr)
| Str (s : pystr)
| Arr (l : list value)
| Obj (l : list (pystr * value)).

(** *** [json.dump(data, f, indent=2)] *)

(** A hexadecimal digit, lower case, and ['{0:04x}'.format(n)]. *)
Definition hex_digit (d : N) : N := (if d <? 10 then 48 + d else 87 + d)%N.

Definition hex4 (n : N) : pystr :=
  [hex_digit (N.land (N.shiftr n 12) 15); hex_digit (N.land (N.shiftr n 8) 15);
   hex_digit (N.land (N.shiftr n 4) 15); hex_digit (N.land n 15)].

(** [\uXXXX]. *)
Definition escape_u (n : N) : pystr := [92; 117]%N ++ hex4 n.

(** What [encode_basestring_ascii] writes for a character: the character
    itself when it is printable ASCII other than the quote and the
    backslash, a short escape for those two and for the five control
    characters that have one, [\uXXXX] for the others below U+10000, and
    the two [\uXXXX] of the surrogate pair for those above. *)
Definition escape_char (c : N) : pystr :=
  (if c =? 34 then [92; 34]
   else if c =? 92 then [92; 92]
   else if c =? 10 then [92; 110]
   else if c =? 13 then [92; 114]
   else if c =? 9 then [92; 116]
   else if c =? 8 then [92; 98]
   else if c =? 12 then [92; 102]
   else if (32 <=? c) && (c <=? 126) then [c]
   else if c <? 65536 then escape_u c
   else
     let n := c - 65536 in
     escape_u (N.lor 55296 (N.land (N.shiftr n 10) 1023)) ++
     escape_u (N.lor 56320 (N.land n 1023)))%N.

Definition encode_string (s : pystr) : pystr :=
  [34%N] ++ flat_map escape_char s ++ [34%N].

(** The digits of a number in base ten. *)
Definition digit_char (d : N) : N := (48 + d)%N.

Fixpoint digits_of_uint (u : Decimal.uint) : pystr :=
  match u with
  | Decimal.Nil => []
  | Decimal.D0 u' => digit_char 0 :: digits_of_uint u'
  | Decimal.D1 u' => digit_char 1 :: digits_of_uint u'
  | Decimal.D2 u' => digit_char 2 :: digits_of_uint u'
  | Decimal.D3 u' => digit_char 3 :: digits_of_uint u'
  | Decimal.D4 u' => digit_char 4 :: digits_of_uint u'
  | Decimal.D5 u' => digit_char 5 :: digits_of_uint u'
  | Decimal.D6 u' => digit_char 6 :: digits_of_uint u'
  | Decimal.D7 u' => digit_char 7 :: digits_of_uint u'
  | Decimal.D8 u' => digit_char 8 :: digits_of_uint u'
  | Decimal.D9 u' => digit_char 9 :: digits_of_uint u'
  end.

(** [int.__repr__]. *)
Definition encode_int (z : Z) : pystr :=
  if (z <? 0)%Z then 45%N :: digits_of_uint (N.to_uint (Z.abs_N z))
  else digits_of_uint (N.to_uint (Z.abs_N z)).

(** A new line and the indentation of a level: two spaces per level. *)
Definition newline_indent (level : nat) : pystr :=
  10%N :: replicate (2 * level) 32%N.

(** [separator.join(items)]. *)
Fixpoint join (separator : pystr) (items : list pystr) : pystr :=
  match items with
  | [] => []
  | [x] => x
  | x :: items' => x ++ separator ++ join separator items'
  end.

(** The items of a list or of a dict, one per line. *)
Definition block (opening closing : N) (level : nat) (items : list pystr)
  : pystr :=
  match items with
  | [] => [opening; closing]
  | _ =>
    [opening] ++ newline_indent (S level) ++
    join (44%N :: newline_indent (S level)) items ++
    newline_indent level ++ [closing]
  end.

Fixpoint encode (level : nat) (v : value) : pystr :=
  match v with
  | Null => lit "null"
  | Bool true => lit "true"
  | Bool false => lit "false"
  | Int z => encode_int z
  | Float literal => literal
  | Str s => encode_string s
  | Arr l => block 91 93 level (encode (S level) <$> l)
  | Obj l =>
    block 123 125 level
      ((fun kv => encode_string kv.1 ++ [58; 32]%N ++ encode (S level) kv.2)
         <$> l)
  end.

(** [rss_bot.data] as a value: the three keys in the order of the default
    data structure.  The keys of [seen_posts] come in the order of the map;
    Python writes them in the order they were inserted, which the map does
    not record and which has no part in what is read back. *)
Definition of_state (d : TrackingState) : value :=
  Obj [(lit "feeds", Arr (Str <$> feeds d));
       (lit "seen_posts",
        Obj ((fun kv => (kv.1, Arr (Str <$> kv.2)))
               <$> map_to_list (seen_posts d)));
       (lit "chat_ids", Arr (Int <$> chat_ids d))].

Definition dump (d : TrackingState) : pystr := encode 0 (of_state d).

(** *** [json.load(f)] *)

Definition is_ws (c : N) : bool :=
  ((c =? 32) || (c =? 9) || (c =? 10) || (c =? 13))%N.

Fixpoint skip_ws (s : pystr) : pystr :=
  match s with
  | c :: s' => if is_ws c then skip_ws s' else s
  | [] => []
  end.

Definition unhex_digit (c : N) : option N :=
  (if (48 <=? c) && (c <=? 57) then Some (c - 48)
   else if (97 <=? c) && (c <=? 102) then Some (c - 87)
   else if (65 <=? c) && (c <=? 70) then Some (c - 55)
   else None)%N.

Definition unhex4 (a b c d : N) : option N :=
  match unhex_digit a, unhex_digit b, unhex_digit c, unhex_digit d with
  | Some x3, Some x2, Some x1, Some x0 =>
    Some (N.lor (N.shiftl (N.lor (N.shiftl (N.lor (N.shiftl x3 4) x2) 4) x1) 4)
                x0)
  | _, _, _, _ => None
  end.

(** The character of a short escape. *)
Definition simple_escape (e : N) : option N :=
  (if e =? 34 then Some 34
   else if e =? 92 then Some 92
   else if e =? 47 then Some 47
   else if e =? 98 then Some 8
   else if e =? 102 then Some 12
   else if e =? 110 then Some 10
   else if e =? 114 then Some 13
   else if e =? 116 then Some 9
   else None)%N.

(** What a string literal is made of: characters, written as they are or
    by a short escape, and [\uXXXX] escapes. *)
Inductive piece :=
| Raw (c : N)
| Esc (n : N).

(** The pieces of a string literal up to its closing quote, and what
    follows it.  A control character written as it is, an escape that is
    none and a missing closing quote raise. *)
Fixpoint scan_pieces (s : pystr) : option (list piece * pystr) :=
  match s with
  | [] => None
  | c :: s1 =>
    if (c =? 34)%N then Some ([], s1)
    else if (c =? 92)%N then
      match s1 with
      | [] => None
      | e :: s2 =>
        if (e =? 117)%N then
          match s2 with
          | a :: b :: c' :: d :: s3 =>
            match unhex4 a b c' d, scan_pieces s3 with
            | Some n, Some (ps, rest) => Some (Esc n :: ps, rest)
            | _, _ => None
            end
          | _ => None
          end
        else
          match simple_escape e, scan_pieces s2 with
          | Some x, Some (ps, rest) => Some (Raw x :: ps, rest)
          | _, _ => None
          end
      end
    else if (c <? 32)%N then None
    else
      match scan_pieces s1 with
      | Some (ps, rest) => Some (Raw c :: ps, rest)
      | None => None
      end
  end.

Definition is_high (n : N) : bool := ((55296 <=? n) && (n <=? 56319))%N.
Definition is_low (n : N) : bool := ((56320 <=? n) && (n <=? 57343))%N.

(** The characters of the pieces: a [\uXXXX] of a high surrogate directly
    followed by a [\uXXXX] of a low surrogate is the one character of the
    pair. *)
Fixpoint chars_of (ps : list piece) : pystr :=
  match ps with
  | [] => []
  | Raw c :: ps' => c :: chars_of ps'
  | Esc h :: ps' =>
    match ps' with
    | Esc l :: ps'' =>
      if is_high h && is_low l
      then (65536 + N.lor (N.shiftl (h - 55296) 10) (l - 56320))%N
             :: chars_of ps''
      else h :: chars_of ps'
    | _ => h :: chars_of ps'
    end
  end.

Definition is_digit (c : N) : bool := ((48 <=? c) && (c <=? 57))%N.

(** The longest run of digits a text starts with, and the rest. *)
Fixpoint scan_digits (s : pystr) : pystr * pystr :=
  match s with
  | c :: s' =>
    if is_digit c then
      let '(ds, rest) := scan_digits s' in (c :: ds, rest)
    else ([], s)
  | [] => ([], [])
  end.

Definition digit_cons (c : N) (u : Decimal.uint) : Decimal.uint :=
  (if c =? 48 then Decimal.D0 u
   else if c =? 49 then Decimal.D1 u
   else if c =? 50 then Decimal.D2 u
   else if c =? 51 then Decimal.D3 u
   else if c =? 52 then Decimal.D4 u
   else if c =? 53 then Decimal.D5 u
   else if c =? 54 then Decimal.D6 u
   else if c =? 55 then Decimal.D7 u
   else if c =? 56 then Decimal.D8 u
   else Decimal.D9 u)%N.

Definition uint_of_digits (ds : pystr) : Decimal.uint :=
  foldr digit_cons Decimal.Nil ds.

(** The integer part of a number: [0], or a digit from 1 to 9 and every
    digit that follows. *)
Definition scan_integer (s : pystr) : option (pystr * pystr) :=
  match s with
  | c :: s' =>
    if (c =? 48)%N then Some ([c], s')
    else if is_digit c then Some (scan_digits s)
    else None
  | [] => None
  end.

(** The fraction, when a point and a digit follow. *)
Definition scan_fraction (s : pystr) : pystr * pystr :=
  match s with
  | c :: s' =>
    if (c =? 46)%N then
      match scan_digits s' with
      | ([], _) => ([], s)
      | (ds, rest) => (c :: ds, rest)
      end
    else ([], s)
  | [] => ([], [])
  end.

(** The exponent, when [e] or [E], a sign or none, and a digit follow. *)
Definition scan_exponent (s : pystr) : pystr * pystr :=
  match s with
  | c :: s' =>
    if ((c =? 101) || (c =? 69))%N then
      match s' with
      | sign :: s'' =>
        if ((sign =? 43) || (sign =? 45))%N then
          match scan_digits s'' with
          | ([], _) => ([], s)
          | (ds, rest) => (c :: sign :: ds, rest)
          end
        else
          match scan_digits s' with
          | ([], _) => ([], s)
          | (ds, rest) => (c :: ds, rest)
          end
      | [] => ([], s)
      end
    else ([], s)
  | [] => ([], [])
  end.

(** A number: an [int] when it has neither fraction nor exponent. *)
Definition scan_number (s : pystr) : option (value * pystr) :=
  let '(sign, s1) :=
    match s with
    | c :: s' => if (c =? 45)%N then ([c], s') else ([], s)
    | [] => ([], [])
    end in
  match scan_integer s1 with
  | None => None
  | Some (ds, s2) =>
    let '(frac, s3) := scan_fraction s2 in
    let '(expo, s4) := scan_exponent s3 in
    match frac, expo with
    | [], [] =>
      let n := Z.of_N (N.of_uint (uint_of_digits ds)) in
      Some (Int (match sign with [] => n | _ => - n end)%Z, s4)
    | _, _ => Some (Float (sign ++ ds ++ frac ++ expo), s4)
    end
  end.

(** [s] without the word [word] it starts with. *)
Fixpoint strip_word (word s : pystr) : option pystr :=
  match word with
  | [] => Some s
  | c :: word' =>
    match s with
    | c' :: s' => if (c =? c')%N then strip_word word' s' else None
    | [] => None
    end
  end.

(** The words that are values. *)
Definition scan_word (s : pystr) : option (value * pystr) :=
  match strip_word (lit "null") s with
  | Some rest => Some (Null, rest)
  | None =>
  match strip_word (lit "true") s with
  | Some rest => Some (Bool true, rest)
  | None =>
  match strip_word (lit "false") s with
  | Some rest => Some (Bool false, rest)
  | None =>
  match strip_word (lit "NaN") s with
  | Some rest => Some (Float (lit "NaN"), rest)
  | None =>
  match strip_word (lit "Infinity") s with
  | Some rest => Some (Float (lit "Infinity"), rest)
  | None =>
  match strip_word (lit "-Infinity") s with
  | Some rest => Some (Float (lit "-Infinity"), rest)
  | None => None
  end end end end end end.

(** The scanner: a value at the start of a text, and the rest of the
    text.  [fuel] bounds the values, items and members still to read. *)
Fixpoint scan_value (fuel : nat) (s : pystr) : option (value * pystr) :=
  match fuel with
  | O => None
  | S fuel' =>
    match s with
    | [] => None
    | c :: s1 =>
      if (c =? 34)%N then
        match scan_pieces s1 with
        | Some (ps, rest) => Some (Str (chars_of ps), rest)
        | None => None
        end
      else if (c =? 123)%N then
        match skip_ws s1 with
        | c1 :: s2 =>
          if (c1 =? 125)%N then Some (Obj [], s2)
          else scan_members fuel' [] (c1 :: s2)
        | [] => None
        end
      else if (c =? 91)%N then
        match skip_ws s1 with
        | c1 :: s2 =>
          if (c1 =? 93)%N then Some (Arr [], s2)
          else scan_items fuel' [] (c1 :: s2)
        | [] => None
        end
      else
        match scan_number s with
        | Some r => Some r
        | None => scan_word s
        end
    end
  end
with scan_items (fuel : nat) (acc : list value) (s : pystr)
  : option (value * pystr) :=
  match fuel with
  | O => None
  | S fuel' =>
    match scan_value fuel' s with
    | Some (v, rest) =>
      match skip_ws rest with
      | c :: r =>
        if (c =? 93)%N then Some (Arr (acc ++ [v]), r)
        else if (c =? 44)%N then scan_items fuel' (acc ++ [v]) (skip_ws r)
        else None
      | [] => None
      end
    | None => None
    end
  end
with scan_members (fuel : nat) (acc : list (pystr * value)) (s : pystr)
  : option (value * pystr) :=
  match fuel with
  | O => None
  | S fuel' =>
    match s with
    | c :: s1 =>
      if (c =? 34)%N then
        match scan_pieces s1 with
        | Some (ps, rest) =>
          match skip_ws rest with
          | colon :: r =>
            if (colon =? 58)%N then
              match scan_value fuel' (skip_ws r) with
              | Some (v, rest') =>
                match skip_ws rest' with
                | c' :: r' =>
                  if (c' =? 125)%N
                  then Some (Obj (acc ++ [(chars_of ps, v)]), r')
                  else if (c' =? 44)%N
                  then scan_members fuel' (acc ++ [(chars_of ps, v)])
                                    (skip_ws r')
                  else None
                | [] => None
                end
              | None => None
              end
            else None
          | [] => None
          end
        | None => None
        end
      else None
    | [] => None
    end
  end.

(** [json.loads]: one value, with nothing but white space around it. *)
Definition loads (s : pystr) : option value :=
  match scan_value (S (length s)) (skip_ws s) with
  | Some (v, rest) =>
    match skip_ws rest with
    | [] => Some v
    | _ :: _ => None
    end
  | None => None
  end.

(** *** The value as [rss_bot.data] *)

Definition as_str (v : value) : option pystr :=
  match v with Str s => Some s | _ => None end.

Definition as_int (v : value) : option Z :=
  match v with Int z => Some z | _ => None end.

Definition as_list {A} (item : value -> option A) (v : value)
  : option (list A) :=
  match v with Arr l => mapM item l | _ => None end.

(** A dict built from the members in their order: a key that comes again
    takes the place of the one before. *)
Definition as_dict {A} (item : value -> option A) (v : value)
  : option (gmap pystr A) :=
  match v with
  | Obj l =>
    l' ← mapM (fun kv => pair kv.1 <$> item kv.2) l;
    Some (list_to_map (reverse l'))
  | _ => None
  end.

(** The value of key [k] of an object. *)
Definition member (k : pystr) (v : value) : option value :=
  match v with
  | Obj l => (list_to_map (reverse l) : gmap pystr value) !! k
  | _ => None
  end.

(** The value read as the data structure of the bot: an object whose keys
    [feeds], [seen_posts] and [chat_ids] hold a list of strings, a dict of
    lists of strings and a list of integers.  A value of another shape is
    no [TrackingState]: the model answers [None] for it, as for a text
    that [json.load] refuses. *)
Definition to_state (v : value) : option TrackingState :=
  fs ← member (lit "feeds") v ≫= as_list as_str;
  sp ← member (lit "seen_posts") v ≫= as_dict (as_list as_str);
  cs ← member (lit "chat_ids") v ≫= as_list as_int;
  Some {| feeds := fs; seen_posts := sp; chat_ids := cs |}.

Definition load (t : pystr) : option TrackingState :=
  loads t ≫= to_state.

(** *** Strings that come back as they were written *)

(** The pieces [escape_char] writes a character as. *)
Definition pieces_of (c : N) : list piece :=
  (if (c =? 34) || (c =? 92) || (c =? 10) || (c =? 13) || (c =? 9)
      || (c =? 8) || (c =? 12) || ((32 <=? c) && (c <=? 126))
   then [Raw c]
   else if c <? 65536 then [Esc c]
   else
     let n := c - 65536 in
     [Esc (N.lor 55296 (N.land (N.shiftr n 10) 1023));
      Esc (N.lor 56320 (N.land n 1023))])%N.

(** A text that goes on after a value of a list or of a dict: with a comma
    or with a new line. *)
Definition closed (rest : pystr) : Prop :=
  exists c r, rest = c :: r /\ (c = 44 \/ c = 10)%N.

(** A text that starts as a value does: with a character that is neither
    white space nor a closing bracket. *)
Definition opens (t : pystr) : Prop :=
  exists c r, t = c :: r /\ is_ws c = false /\ (c <> 93 /\ c <> 125)%N.

(** A value that the scanner, with [k] of fuel or more, reads back from
    what [encode] writes for it at a level. *)
Definition readable (k level : nat) (v : value) : Prop :=
  opens (encode level v)
  /\ forall fuel rest,
       (k <= fuel)%nat -> closed rest ->
       scan_value fuel (encode level v ++ rest) = Some (v, rest).

(** ... with more fuel than its text has characters, which is what
    [loads] gives to the scanner. *)
Definition written (level : nat) (v : value) : Prop :=
  readable (S (length (encode level v))) level v.

(** The text of a member of a dict: its key, a colon and a space, its
    value. *)
Definition member_text (level : nat) (kv : pystr * value) : pystr :=
  encode_string kv.1 ++ [58; 32]%N ++ encode (S level) kv.2.

(** A Python string: every character is a code point. *)
Definition valid_str (s : pystr) : Prop :=
  Forall (fun c => (c < 1114112)%N) s.

(** No high surrogate directly followed by a low surrogate. *)
Fixpoint no_pair (s : pystr) : Prop :=
  match s with
  | c :: s' =>
    match s' with
    | c' :: _ => ~ (is_high c = true /\ is_low c' = true)
    | [] => True
    end /\ no_pair s'
  | [] => True
  end.

Definition plain_str (s : pystr) : Prop := valid_str s /\ no_pair s.

(** The data whose strings are such. *)
Definition plain (d : TrackingState) : Prop :=
  Forall plain_str (feeds d)
  /\ (forall f l, seen_posts d !! f = Some l ->
        plain_str f /\ Forall plain_str l).

(** A new line or a printable ASCII character. *)
Definition printable (c : N) : Prop := (c = 10 \/ 32 <= c <= 126)%N.

End Json.

(** ** Concrete inputs *)

Module Sample.

(** A data file that holds the data structure itself. *)
Definition dump (d : TrackingState) : TrackingState := d.
Definition load (t : TrackingState) : option TrackingState := Some t.

Definition entry (i : string) : Entry :=
  {| e_title := Some (lit "post"); e_link := Some (lit "http://x/" ++ lit i);
     e_published := None; e_summary := None; e_description := None;
     e_id := Some (lit i) |}.

Definition url_a : pystr := lit "http://a/rss".
Definition url_b : pystr := lit "http://b/rss".
Definition url_c : pystr := lit "http://c/rss".

(** [url_a] has two distinct posts, [url_b] twice the same post, the fetch
    of [url_c] raises, any other feed is empty; the transport and the disk
    work. *)
Definition net (url : pystr) : option (list Entry) :=
  if decide (url = url_a) then Some [entry "1"; entry "2"]
  else if decide (url = url_b) then Some [entry "7"; entry "7"]
  else if decide (url = url_c) then None
  else Some [].

Definition E : env TrackingState :=
  {| env_parse := net;
     env_transport := fun _ _ => true;
     env_read_ok := true;
     env_write := fun _ => Written |}.

(** The process started without a data file. *)
Definition w0 : world TrackingState := boot load E None.

(** ... after [/addfeed http://a/rss]. *)
Definition w1 : world TrackingState := (run E (add_feed dump [url_a]) w0).2.

(** Three feeds, the second of which cannot be fetched, and one chat. *)
Definition w3 : world TrackingState :=
  {| data := {| feeds := [url_a; url_c; url_b]; seen_posts := ∅;
                chat_ids := [42] |};
     disk := None; sent := []; logs := []; writes := 0 |}.

(** A manual check and a periodic check that take turns. *)
Definition turns : list bool :=
  [true; true; false; false; true; true; true; false].

(** A post with a summary of [n] characters. *)
Definition post_with_summary (n : nat) : Post :=
  {| title := lit "t"; link := lit "l"; published := lit "today";
     summary := replicate n 120%N; id := lit "i" |}.

End Sample.

Module Cases.

(** The network of [Sample.E] with a transport that refuses the third call
    made since the process started and takes every other. *)
Definition E_refusing : env TrackingState :=
  {| env_parse := Sample.net;
     env_transport := fun history _ => negb (length history =? 2)%nat;
     env_read_ok := true;
     env_write := fun _ => Written |}.

(** One feed with two posts not seen yet, and no chat registered. *)
Definition w_no_chat : world TrackingState :=
  {| data := {| feeds := [Sample.url_a]; seen_posts := ∅; chat_ids := [] |};
     disk := None; sent := []; logs := []; writes := 0 |}.

(** The same with two chats registered. *)
Definition w_two_chats : world TrackingState :=
  {| data := {| feeds := [Sample.url_a]; seen_posts := ∅;
                chat_ids := [42; 43] |};
     disk := None; sent := []; logs := []; writes := 0 |}.

Definition post_1 : Post := post_of_entry (Sample.entry "1").

(** A disk that takes every write and a data file that can be read. *)
Definition E_disk : env pystr :=
  {| env_parse := fun _ => Some [];
     env_transport := fun _ _ => true;
     env_read_ok := true;
     env_write := fun _ => Written |}.

(** A disk that is full: the write raises and leaves an empty file. *)
Definition E_disk_full : env pystr :=
  {| env_parse := fun _ => Some [];
     env_transport := fun _ _ => true;
     env_read_ok := true;
     env_write := fun _ => WriteFailed (Some []) |}.

(** A data file that cannot be read. *)
Definition E_unreadable : env pystr :=
  {| env_parse := fun _ => Some [];
     env_transport := fun _ _ => true;
     env_read_ok := false;
     env_write := fun _ => Written |}.

(** The process holding [d], with no data file yet. *)
Definition holding (d : TrackingState) : world pystr :=
  {| data := d; disk := None; sent := []; logs := []; writes := 0 |}.

(** A feed whose URL has a quote, a backslash, a new line, a letter with an
    accent, a character outside the basic plane and a high surrogate on its
    own; a feed with no post seen and one with two; a negative chat id. *)
Definition d_mixed : TrackingState :=
  {| feeds := [lit "http://a/" ++ [34; 92; 10; 233; 128512; 55357]%N;
               lit "http://b/rss"];
     seen_posts := <[lit "http://b/rss" := [lit "1"; lit "2"]]>
                     (<[lit "http://a/" ++ [34; 92; 10; 233; 128512; 55357]%N
                        := []]> ∅);
     chat_ids := [42; -7] |}.

(** One feed, whose URL is the high surrogate U+D83D followed by the low
    surrogate U+DE00; nothing seen, no chat. *)
Definition d_pair : TrackingState :=
  {| feeds := [[55357; 56832]%N]; seen_posts := ∅; chat_ids := [] |}.

(** The same with the one character U+1F600 the two surrogates encode. *)
Definition d_joined : TrackingState :=
  {| feeds := [[128512%N]]; seen_posts := ∅; chat_ids := [] |}.

(** One feed with no post seen, no chat. *)
Definition d_small : TrackingState :=
  {| feeds := [lit "a"]; seen_posts := <[lit "a" := []]> ∅; chat_ids := [] |}.

End Cases.

(** * Properties *)

(** Induction on a program, along the run from the world [w]. *)
Ltac prog_induction p w :=
  revert w;
  induction p as [?|?|? IH|? ? IH|? ? IH|? ? IH|? IH|? IH|? ? IH|? ? IH];
  intros w; simpl; auto;
  match goal with
  | |- context [write_file ?E ?t w] =>
    destruct (write_file E t w) as [? ?]; apply IH
  end.

Section Properties.

Context {text : Type}.
Variable json_dump : TrackingState -> text.
Variable json_load : text -> option TrackingState.

Implicit Types (E : env text) (w : world text) (d : TrackingState).
Implicit Types (f g url : pystr) (posts : list Post) (seen : list pystr).
Implicit Types (fs : list pystr) (m : gmap pystr (list pystr)).
Local Open Scope prog_scope.

(** ** The semantics of the combinators *)

Lemma run_bind {A B} E (m : prog text A) (k : A -> prog text B) w :
  run E (bind m k) w =
  match run E m w with
  | (Ok a, w') => run E (k a) w'
  | (Raised e, w') => (Raised e, w')
  end.
Proof.
  prog_induction m w.
Qed.

Lemma run_try_except {A} E (m : prog text A) (h : exn -> prog text A) w :
  run E (try_except m h) w =
  match run E m w with
  | (Ok a, w') => (Ok a, w')
  | (Raised e, w') => run E (h e) w'
  end.
Proof.
  prog_induction m w.
Qed.

(** ** The leaves *)

Lemma saved_data E w : data (saved json_dump E w) = data w.
Proof. unfold saved. by destruct (env_write E (writes w)). Qed.

Lemma saved_sent E w : sent (saved json_dump E w) = sent w.
Proof. unfold saved. by destruct (env_write E (writes w)). Qed.

Lemma fetched_data E f w : data (fetched E f w) = data w.
Proof. unfold fetched. by destruct (env_parse E f). Qed.

Lemma fetched_sent E f w : sent (fetched E f w) = sent w.
Proof. unfold fetched. by destruct (env_parse E f). Qed.

Lemma fetched_disk E f w : disk (fetched E f w) = disk w.
Proof. unfold fetched. by destruct (env_parse E f). Qed.

Lemma fetched_writes E f w : writes (fetched E f w) = writes w.
Proof. unfold fetched. by destruct (env_parse E f). Qed.

Lemma run_await E o w :
  run E (await o) w =
  (if env_transport E (sent w) o then Ok tt else Raised TransportError,
   with_sent o w).
Proof. simpl. by destruct (env_transport E (sent w) o). Qed.

Lemma run_await_reliable E o w :
  reliable E -> run E (await o) w = (Ok tt, with_sent o w).
Proof. intros HE. by rewrite run_await, HE. Qed.

Lemma run_save_data E w :
  run E (save_data json_dump) w = (Ok tt, saved json_dump E w).
Proof.
  unfold save_data, saved. simpl. unfold write_file.
  by destruct (env_write E (writes w)).
Qed.

Lemma run_get_feed_posts E f w :
  run E (get_feed_posts f) w = (Ok (posts_of E f), fetched E f w).
Proof.
  unfold get_feed_posts, posts_of, fetched. simpl.
  by destruct (env_parse E f).
Qed.

Lemma run_get_data E w : run E get_data w = (Ok (data w), w).
Proof. reflexivity. Qed.

Lemma run_set_data E d w : run E (set_data d) w = (Ok tt, with_data d w).
Proof. reflexivity. Qed.

Lemma run_lookup_seen E f w :
  run E (lookup_seen f) w =
  (match seen_posts (data w) !! f with
   | Some l => Ok l
   | None => Raised KeyError
   end, w).
Proof. unfold lookup_seen. simpl. by destruct (seen_posts (data w) !! f). Qed.

Lemma run_reset_seen E f w :
  run E (reset_seen f) w = (Ok tt, with_data (put_seen f [] (data w)) w).
Proof. reflexivity. Qed.

Lemma run_append_seen E f i w seen :
  seen_posts (data w) !! f = Some seen ->
  run E (append_seen f i) w =
  (Ok tt, with_data (put_seen f (seen ++ [i]) (data w)) w).
Proof. intros H. unfold append_seen, lookup_seen. simpl. by rewrite H. Qed.

Lemma run_init_seen E f w :
  run E (init_seen f) w =
  (Ok tt, with_data (put_seen f (seen_of (seen_posts (data w)) f) (data w)) w).
Proof.
  unfold init_seen, seen_of, put_seen. simpl.
  destruct (seen_posts (data w) !! f) as [l|] eqn:H; simpl; [|done].
  rewrite insert_id by done. by destruct w as [[] ? ? ? ?].
Qed.

(** ** Keeping a property of the data *)

Lemma keeps_bind {A B} (I : TrackingState -> Prop) (m : prog text A)
    (k : A -> prog text B) :
  keeps I m -> (forall a, keeps I (k a)) -> keeps I (bind m k).
Proof.
  intros Hm Hk E w HI. rewrite run_bind.
  specialize (Hm E w HI). destruct (run E m w) as [[a|e] w']; simpl in *.
  - by apply Hk.
  - done.
Qed.

Lemma keeps_try_except {A} (I : TrackingState -> Prop) (m : prog text A)
    (h : exn -> prog text A) :
  keeps I m -> (forall e, keeps I (h e)) -> keeps I (try_except m h).
Proof.
  intros Hm Hh E w HI. rewrite run_try_except.
  specialize (Hm E w HI). destruct (run E m w) as [[a|e] w']; simpl in *.
  - done.
  - by apply Hh.
Qed.

Lemma keeps_for_each {A} (I : TrackingState -> Prop) (l : list A)
    (body : A -> prog text unit) :
  (forall x, x ∈ l -> keeps I (body x)) -> keeps I (for_each l body).
Proof.
  induction l as [|x l IH]; intros Hb.
  - by intros E w HI.
  - simpl. apply keeps_bind.
    + apply Hb. by left.
    + intros _. apply IH. intros y Hy. apply Hb. by right.
Qed.

Lemma keeps_for_fold {A S} (I : TrackingState -> Prop) (l : list A)
    (body : S -> A -> prog text S) (s : S) :
  (forall s x, x ∈ l -> keeps I (body s x)) -> keeps I (for_fold l body s).
Proof.
  revert s. induction l as [|x l IH]; intros s Hb.
  - by intros E w HI.
  - simpl. apply keeps_bind.
    + apply Hb. by left.
    + intros s'. apply IH. intros s'' y Hy. apply Hb. by right.
Qed.

Lemma keeps_ret {A} (I : TrackingState -> Prop) (a : A) :
  keeps I (Ret (text:=text) a).
Proof. by intros E w HI. Qed.

Lemma keeps_await (I : TrackingState -> Prop) o :
  keeps I (await (text:=text) o).
Proof. intros E w HI. by rewrite run_await. Qed.

Lemma keeps_log (I : TrackingState -> Prop) (msg : log_msg) :
  keeps I (log (text:=text) msg).
Proof. by intros E w HI. Qed.

Lemma keeps_save_data (I : TrackingState -> Prop) :
  keeps I (save_data json_dump).
Proof.
  intros E w HI. rewrite run_save_data. unfold saved.
  by destruct (env_write E (writes w)).
Qed.

Lemma keeps_get_feed_posts (I : TrackingState -> Prop) f :
  keeps I (get_feed_posts (text:=text) f).
Proof.
  intros E w HI. rewrite run_get_feed_posts. unfold fetched.
  by destruct (env_parse E f).
Qed.

(** ** The per-post bodies test membership before they append *)

Lemma seen_nodup_put_seen d f l :
  seen_nodup d -> NoDup l -> seen_nodup (put_seen f l d).
Proof.
  intros Hd Hl g l' Hg. unfold put_seen in Hg. simpl in Hg.
  destruct (decide (f = g)) as [->|Hne].
  - rewrite lookup_insert_eq in Hg. by simplify_eq.
  - rewrite lookup_insert_ne in Hg by done. by eapply Hd.
Qed.

Lemma NoDup_snoc (l : list pystr) (i : pystr) :
  NoDup l -> i ∉ l -> NoDup (l ++ [i]).
Proof.
  intros Hl Hi. apply NoDup_app. split_and!; [done| |apply NoDup_singleton].
  intros x Hx Hx'. apply list_elem_of_singleton in Hx'. by subst.
Qed.

Lemma run_mark_seen E f post w :
  run E (mark_seen f post) w =
  match seen_posts (data w) !! f with
  | Some seen =>
    if decide (id post ∈ seen) then (Ok tt, w)
    else (Ok tt, with_data (put_seen f (seen ++ [id post]) (data w)) w)
  | None => (Raised KeyError, w)
  end.
Proof.
  unfold mark_seen. rewrite run_bind, run_lookup_seen.
  destruct (seen_posts (data w) !! f) as [seen|] eqn:Hf; [|done].
  destruct (decide (id post ∈ seen)); [done|].
  by rewrite (run_append_seen _ _ _ _ seen).
Qed.

Lemma run_check_post E f n post w :
  run E (check_post f n post) w =
  match seen_posts (data w) !! f with
  | Some seen =>
    if decide (id post ∈ seen) then (Ok n, w)
    else
      let w' := with_data (put_seen f (seen ++ [id post]) (data w)) w in
      (if env_transport E (sent w) (Reply (format_message post))
       then Ok (S n) else Raised TransportError,
       with_sent (Reply (format_message post)) w')
  | None => (Raised KeyError, w)
  end.
Proof.
  unfold check_post. rewrite run_bind, run_lookup_seen.
  destruct (seen_posts (data w) !! f) as [seen|] eqn:Hf; [|done].
  destruct (decide (id post ∈ seen)); [done|].
  rewrite run_bind, (run_append_seen _ _ _ _ seen) by done.
  rewrite run_bind, run_await. simpl.
  by destruct (env_transport E (sent w) (Reply (format_message post))).
Qed.

Lemma keeps_send_all (I : TrackingState -> Prop) message :
  keeps I (send_all (text:=text) message).
Proof.
  intros E w HI. unfold send_all. rewrite run_bind, run_get_data.
  apply (keeps_for_each I); [|done].
  intros c _. apply keeps_try_except; [apply keeps_await|].
  intros _. apply keeps_log.
Qed.

Lemma keeps_mark_seen_nodup f post :
  keeps seen_nodup (mark_seen (text:=text) f post).
Proof.
  intros E w HI. rewrite run_mark_seen.
  destruct (seen_posts (data w) !! f) as [seen|] eqn:Hf; [|done].
  destruct (decide (id post ∈ seen)); [done|]. simpl.
  apply seen_nodup_put_seen; [done|]. apply NoDup_snoc; [by eapply HI|done].
Qed.

Lemma keeps_check_post_nodup f n post :
  keeps seen_nodup (check_post (text:=text) f n post).
Proof.
  intros E w HI. rewrite run_check_post.
  destruct (seen_posts (data w) !! f) as [seen|] eqn:Hf; [|done].
  destruct (decide (id post ∈ seen)); [done|]. simpl.
  apply seen_nodup_put_seen; [done|]. apply NoDup_snoc; [by eapply HI|done].
Qed.

Lemma keeps_periodic_post_nodup f post :
  keeps seen_nodup (periodic_post (text:=text) f post).
Proof.
  intros E w HI. unfold periodic_post. rewrite run_bind, run_lookup_seen.
  destruct (seen_posts (data w) !! f) as [seen|] eqn:Hf; [|done].
  destruct (decide (id post ∈ seen)); [done|].
  rewrite run_bind, (run_append_seen _ _ _ _ seen) by done.
  apply keeps_send_all. simpl.
  apply seen_nodup_put_seen; [done|]. apply NoDup_snoc; [by eapply HI|done].
Qed.

Lemma keeps_init_seen_nodup f : keeps seen_nodup (init_seen (text:=text) f).
Proof.
  intros E w HI. rewrite run_init_seen. simpl.
  apply seen_nodup_put_seen; [done|]. unfold seen_of.
  destruct (seen_posts (data w) !! f) eqn:Hf; [by eapply HI|apply NoDup_nil_2].
Qed.

Lemma keeps_reset_seen_nodup f : keeps seen_nodup (reset_seen (text:=text) f).
Proof.
  intros E w HI. rewrite run_reset_seen. simpl.
  apply seen_nodup_put_seen; [done|apply NoDup_nil_2].
Qed.

(** ** The handlers keep the seen lists duplicate-free *)

Lemma keeps_start (I : TrackingState -> Prop) chat_id :
  (forall d l, I d -> I (set_chat_ids l d)) ->
  keeps I (start json_dump chat_id).
Proof.
  intros Hset E w HI. unfold start.
  rewrite run_bind, run_get_data, run_bind.
  destruct (decide (chat_id ∈ chat_ids (data w))).
  - cbn [run]. by rewrite run_bind, run_get_data, run_await.
  - rewrite run_bind, run_set_data, run_save_data.
    rewrite run_bind, run_get_data, run_await. cbn [snd].
    simpl. rewrite saved_data. by apply Hset.
Qed.

Lemma keeps_add_feed_nodup args : keeps seen_nodup (add_feed json_dump args).
Proof.
  intros E w HI. unfold add_feed. destruct args as [|f args].
  { by rewrite run_await. }
  rewrite run_bind, run_get_data.
  destruct (decide (f ∈ feeds (data w))).
  { by rewrite run_await. }
  rewrite run_bind, run_await.
  destruct (env_transport E (sent w) (Reply msg_validating)); [|done].
  rewrite run_bind, run_get_feed_posts.
  destruct (truthy (posts_of E f)).
  - rewrite run_bind, run_get_data, run_bind, run_set_data.
    assert (keeps seen_nodup
              (reset_seen f ;; for_each (posts_of E f) (mark_seen f) ;;
               save_data json_dump ;;
               await (text:=text)
                 (Reply (msg_added (length (posts_of E f)))))) as Hk.
    { apply keeps_bind; [apply keeps_reset_seen_nodup|]. intros _.
      apply keeps_bind.
      { apply keeps_for_each. intros post _. apply keeps_mark_seen_nodup. }
      intros _. apply keeps_bind; [apply keeps_save_data|].
      intros _. apply keeps_await. }
    apply Hk. simpl. by rewrite fetched_data.
  - rewrite run_await. simpl. by rewrite fetched_data.
Qed.

Lemma seen_nodup_delete d f :
  seen_nodup d -> seen_nodup (set_seen_posts (delete f (seen_posts d)) d).
Proof.
  intros Hd g l Hg. simpl in Hg.
  apply lookup_delete_Some in Hg as [_ Hg]. by eapply Hd.
Qed.

Lemma keeps_remove_feed_nodup has_message args :
  keeps seen_nodup (remove_feed json_dump has_message args).
Proof.
  intros E w HI. unfold remove_feed.
  destruct has_message; [|done]. destruct args as [|f args].
  { by rewrite run_await. }
  rewrite run_bind, run_get_data.
  destruct (decide (f ∈ feeds (data w))); [|by rewrite run_await].
  rewrite run_bind, run_set_data, run_bind, run_get_data. simpl data.
  assert (keeps seen_nodup
            (save_data json_dump ;;
             await (text:=text) (Reply (msg_removed f)))) as Hk.
  { apply keeps_bind; [apply keeps_save_data|]. intros _. apply keeps_await. }
  rewrite run_bind. simpl seen_posts.
  destruct (seen_posts (data w) !! f) as [l|] eqn:Hf.
  - rewrite run_set_data. apply Hk. simpl.
    by apply (seen_nodup_delete (set_feeds _ (data w))).
  - cbn [run]. by apply Hk.
Qed.

Lemma keeps_check_feeds_nodup : keeps seen_nodup (check_feeds json_dump).
Proof.
  unfold check_feeds.
  apply keeps_bind; [apply keeps_await|]. intros _.
  apply keeps_bind; [by intros E w HI|]. intros d.
  apply keeps_bind.
  { apply keeps_for_fold. intros n f _. unfold check_feed.
    apply keeps_bind; [apply keeps_get_feed_posts|]. intros posts.
    apply keeps_bind; [apply keeps_init_seen_nodup|]. intros _.
    apply keeps_for_fold. intros n' post _. apply keeps_check_post_nodup. }
  intros n. apply keeps_bind; [apply keeps_save_data|]. intros _.
  destruct n; apply keeps_await.
Qed.

Lemma keeps_check_feeds_periodic_nodup :
  keeps seen_nodup (check_feeds_periodic json_dump).
Proof.
  unfold check_feeds_periodic.
  apply keeps_bind; [apply keeps_log|]. intros _.
  apply keeps_bind; [by intros E w HI|]. intros d.
  apply keeps_bind; [|intros _; apply keeps_save_data].
  apply keeps_for_each. intros f _. unfold periodic_feed.
  apply keeps_bind; [apply keeps_get_feed_posts|]. intros posts.
  apply keeps_bind; [apply keeps_init_seen_nodup|]. intros _.
  apply keeps_for_each. intros post _. apply keeps_periodic_post_nodup.
Qed.

Lemma keeps_handle_nodup h : keeps seen_nodup (handle json_dump h).
Proof.
  destruct h; simpl.
  - by apply keeps_start.
  - apply keeps_add_feed_nodup.
  - apply keeps_remove_feed_nodup.
  - apply keeps_check_feeds_nodup.
  - apply keeps_check_feeds_periodic_nodup.
Qed.

Lemma reachable_keeps (I : TrackingState -> Prop) d0 w :
  (forall h, keeps I (handle json_dump h)) ->
  I d0 -> reachable_from json_dump json_load d0 w -> I (data w).
Proof.
  intros Hk H0 Hw. induction Hw as [E file Hboot|E h w Hw IH].
  - by rewrite Hboot.
  - by apply Hk.
Qed.

(** ** The handlers keep the feeds list and the seen lists in step *)

Lemma list_remove_elem_of (x y : pystr) (l : list pystr) :
  NoDup l -> y ∈ list_remove x l <-> y ∈ l /\ y <> x.
Proof.
  induction l as [|z l IH]; intros Hl; simpl.
  { split; [by intros ?%not_elem_of_nil|by intros [?%not_elem_of_nil _]]. }
  apply NoDup_cons in Hl as [Hz Hl].
  destruct (decide (x = z)) as [->|Hne].
  - rewrite elem_of_cons. split.
    + intros Hy. split; [by right|]. by intros ->.
    + by intros [[->|Hy] Hne].
  - rewrite !elem_of_cons, IH by done. split.
    + intros [->|[Hy Hyx]]; [split; [by left|congruence]|split; [by right|done]].
    + intros [[->|Hy] Hyx]; [by left|by right].
Qed.

Lemma list_remove_NoDup (x : pystr) (l : list pystr) :
  NoDup l -> NoDup (list_remove x l).
Proof.
  induction l as [|z l IH]; intros Hl; simpl; [done|].
  pose proof Hl as Hl'. apply NoDup_cons in Hl as [Hz Hl].
  destruct (decide (x = z)); [done|].
  apply NoDup_cons. split; [|by apply IH].
  rewrite list_remove_elem_of by done. by intros [? _].
Qed.

Lemma tracking_inv_put_seen d f l :
  tracking_inv d -> f ∈ feeds d -> tracking_inv (put_seen f l d).
Proof.
  intros (Hnd & Horph & Hseen) Hf. split_and!; [done| |].
  - intros g Hg. simpl in Hg. destruct (decide (f = g)) as [->|Hne]; [done|].
    rewrite lookup_insert_ne in Hg by done. by apply Horph.
  - intros g Hg. simpl in *. destruct (decide (f = g)) as [->|Hne].
    + left. by rewrite lookup_insert_eq.
    + rewrite lookup_insert_ne by done. by apply Hseen.
Qed.

Lemma tracking_inv_set_chat_ids d l :
  tracking_inv d -> tracking_inv (set_chat_ids l d).
Proof. done. Qed.

Lemma tracking_inv_on_put_seen fs d f l :
  tracking_inv_on fs d -> f ∈ fs -> tracking_inv_on fs (put_seen f l d).
Proof.
  intros [Hd <-] Hf. split; [by apply tracking_inv_put_seen|done].
Qed.

Lemma tracking_inv_on_seen fs d f l :
  tracking_inv_on fs d -> seen_posts d !! f = Some l -> f ∈ fs.
Proof. intros [(_ & Horph & _) <-] Hf. apply Horph. by rewrite Hf. Qed.

Lemma keeps_mark_seen_inv fs f post :
  keeps (tracking_inv_on fs) (mark_seen (text:=text) f post).
Proof.
  intros E w HI. rewrite run_mark_seen.
  destruct (seen_posts (data w) !! f) as [seen|] eqn:Hf; [|done].
  destruct (decide (id post ∈ seen)); [done|]. simpl.
  apply tracking_inv_on_put_seen; [done|]. by eapply tracking_inv_on_seen.
Qed.

Lemma keeps_check_post_inv fs f n post :
  keeps (tracking_inv_on fs) (check_post (text:=text) f n post).
Proof.
  intros E w HI. rewrite run_check_post.
  destruct (seen_posts (data w) !! f) as [seen|] eqn:Hf; [|done].
  destruct (decide (id post ∈ seen)); [done|]. simpl.
  apply tracking_inv_on_put_seen; [done|]. by eapply tracking_inv_on_seen.
Qed.

Lemma keeps_periodic_post_inv fs f post :
  keeps (tracking_inv_on fs) (periodic_post (text:=text) f post).
Proof.
  intros E w HI. unfold periodic_post. rewrite run_bind, run_lookup_seen.
  destruct (seen_posts (data w) !! f) as [seen|] eqn:Hf; [|done].
  destruct (decide (id post ∈ seen)); [done|].
  rewrite run_bind, (run_append_seen _ _ _ _ seen) by done.
  apply keeps_send_all. simpl.
  apply tracking_inv_on_put_seen; [done|]. by eapply tracking_inv_on_seen.
Qed.

Lemma keeps_init_seen_inv fs f :
  f ∈ fs -> keeps (tracking_inv_on fs) (init_seen (text:=text) f).
Proof.
  intros Hf E w HI. rewrite run_init_seen. simpl.
  by apply tracking_inv_on_put_seen.
Qed.

Lemma keeps_check_feeds_inv : keeps tracking_inv (check_feeds json_dump).
Proof.
  intros E w HI. unfold check_feeds.
  rewrite run_bind, run_await.
  destruct (env_transport E (sent w) (Reply msg_checking)); [|done].
  rewrite run_bind, run_get_data. simpl data.
  assert (keeps (tracking_inv_on (feeds (data w)))
            (n <- for_fold (feeds (data w)) check_feed 0%nat ;;
             save_data json_dump ;;
             match n with
             | O => await (text:=text) (Reply msg_no_new)
             | S _ => await (Reply (msg_found n))
             end)) as Hk.
  { apply keeps_bind.
    { apply keeps_for_fold. intros n f Hf. unfold check_feed.
      apply keeps_bind; [apply keeps_get_feed_posts|]. intros posts.
      apply keeps_bind; [by apply keeps_init_seen_inv|]. intros _.
      apply keeps_for_fold. intros n' post _. apply keeps_check_post_inv. }
    intros n. apply keeps_bind; [apply keeps_save_data|]. intros _.
    destruct n; apply keeps_await. }
  by apply Hk.
Qed.

Lemma keeps_check_feeds_periodic_inv :
  keeps tracking_inv (check_feeds_periodic json_dump).
Proof.
  intros E w HI. unfold check_feeds_periodic.
  rewrite run_bind. cbn [log run].
  rewrite run_bind, run_get_data. simpl data.
  assert (keeps (tracking_inv_on (feeds (data w)))
            (for_each (feeds (data w)) periodic_feed ;;
             save_data json_dump)) as Hk.
  { apply keeps_bind; [|intros _; apply keeps_save_data].
    apply keeps_for_each. intros f Hf. unfold periodic_feed.
    apply keeps_bind; [apply keeps_get_feed_posts|]. intros posts.
    apply keeps_bind; [by apply keeps_init_seen_inv|]. intros _.
    apply keeps_for_each. intros post _. apply keeps_periodic_post_inv. }
  by apply Hk.
Qed.

(** ** [add_feed] and [remove_feed], step by step *)

Lemma put_seen_put_seen f l l' d :
  put_seen f l' (put_seen f l d) = put_seen f l' d.
Proof. unfold put_seen. simpl. by rewrite insert_insert_eq. Qed.

Lemma put_seen_same f l d :
  seen_posts d !! f = Some l -> put_seen f l d = d.
Proof. intros H. unfold put_seen. rewrite insert_id by done. by destruct d. Qed.

Lemma put_seen_id f l w :
  seen_posts (data w) !! f = Some l ->
  with_data (put_seen f l (data w)) w = w.
Proof. intros H. rewrite put_seen_same by done. by destruct w. Qed.

Lemma run_mark_seen_loop E f posts w seen :
  seen_posts (data w) !! f = Some seen ->
  run E (for_each posts (mark_seen f)) w =
  (Ok tt, with_data (put_seen f (seen_after seen posts) (data w)) w).
Proof.
  revert w seen. induction posts as [|post posts IH]; intros w seen Hf;
    cbn [for_each seen_after].
  { by rewrite put_seen_id. }
  rewrite run_bind, run_mark_seen, Hf.
  destruct (decide (id post ∈ seen)); [by apply IH|].
  rewrite (IH _ (seen ++ [id post])).
  - simpl. by rewrite put_seen_put_seen.
  - simpl. by rewrite lookup_insert_eq.
Qed.

Lemma run_add_feed E f args w :
  run E (add_feed json_dump (f :: args)) w =
  if decide (f ∈ feeds (data w)) then run E (await (Reply msg_already)) w
  else if env_transport E (sent w) (Reply msg_validating) then
    let w1 := fetched E f (with_sent (Reply msg_validating) w) in
    let posts := posts_of E f in
    if truthy posts then
      run E (await (Reply (msg_added (length posts))))
          (saved json_dump E (with_data (added f posts (data w)) w1))
    else run E (await (Reply msg_could_not_fetch)) w1
  else (Raised TransportError, with_sent (Reply msg_validating) w).
Proof.
  unfold add_feed. rewrite run_bind, run_get_data.
  destruct (decide (f ∈ feeds (data w))); [done|].
  rewrite run_bind, run_await.
  destruct (env_transport E (sent w) (Reply msg_validating)); [|done].
  rewrite run_bind, run_get_feed_posts. cbn zeta.
  destruct (truthy (posts_of E f)); [|done].
  rewrite run_bind, run_get_data, run_bind, run_set_data.
  rewrite run_bind, run_reset_seen.
  rewrite run_bind, (run_mark_seen_loop _ _ _ _ []).
  2:{ simpl. by rewrite lookup_insert_eq. }
  rewrite run_bind, run_save_data. simpl data.
  rewrite put_seen_put_seen, fetched_data. done.
Qed.

Lemma run_remove_feed E f args w :
  run E (remove_feed json_dump true (f :: args)) w =
  if decide (f ∈ feeds (data w)) then
    run E (await (Reply (msg_removed f)))
        (saved json_dump E (with_data (removed f (data w)) w))
  else run E (await (Reply msg_not_monitored)) w.
Proof.
  unfold remove_feed. rewrite run_bind, run_get_data.
  destruct (decide (f ∈ feeds (data w))); [|done].
  rewrite run_bind, run_set_data, run_bind, run_get_data, run_bind.
  simpl data. simpl seen_posts.
  destruct (seen_posts (data w) !! f) as [l|] eqn:Hf.
  - by rewrite run_set_data, run_bind, run_save_data.
  - cbn [run]. rewrite run_bind, run_save_data.
    unfold removed. by rewrite delete_id.
Qed.

Lemma tracking_inv_added f posts d :
  tracking_inv d -> f ∉ feeds d -> tracking_inv (added f posts d).
Proof.
  intros (Hnd & Horph & Hseen) Hf. unfold added. split_and!; simpl.
  - apply NoDup_app. split_and!; [done| |apply NoDup_singleton].
    intros x Hx ->%list_elem_of_singleton. done.
  - intros g Hg. simpl in *. rewrite elem_of_app, list_elem_of_singleton.
    destruct (decide (f = g)) as [->|Hne]; [by right|].
    rewrite lookup_insert_ne in Hg by done. left. by apply Horph.
  - intros g Hg. simpl in *. destruct (decide (f = g)) as [->|Hne].
    + left. by rewrite lookup_insert_eq.
    + rewrite lookup_insert_ne by done. apply Hseen.
      apply elem_of_app in Hg as [Hg|Hg%list_elem_of_singleton]; [done|].
      by subst.
Qed.

Lemma tracking_inv_removed f d : tracking_inv d -> tracking_inv (removed f d).
Proof.
  intros (Hnd & Horph & Hseen). unfold removed. split_and!; simpl.
  - by apply list_remove_NoDup.
  - intros g [l Hg]. simpl in *. apply lookup_delete_Some in Hg as [Hne Hg].
    apply list_remove_elem_of; [done|]. split; [|done].
    apply Horph. by rewrite Hg.
  - intros g Hg. simpl in *.
    apply list_remove_elem_of in Hg as [Hg Hne]; [|done].
    rewrite lookup_delete_ne by done. by apply Hseen.
Qed.

Lemma keeps_add_feed_inv args : keeps tracking_inv (add_feed json_dump args).
Proof.
  intros E w HI. destruct args as [|f args].
  { unfold add_feed. by rewrite run_await. }
  rewrite run_add_feed.
  destruct (decide (f ∈ feeds (data w))); [by rewrite run_await|].
  destruct (env_transport E (sent w) (Reply msg_validating)); [|done].
  cbn zeta. destruct (truthy (posts_of E f)); rewrite run_await; simpl.
  - rewrite saved_data. simpl. by apply tracking_inv_added.
  - by rewrite fetched_data.
Qed.

Lemma keeps_remove_feed_inv has_message args :
  keeps tracking_inv (remove_feed json_dump has_message args).
Proof.
  intros E w HI. destruct has_message; [|done]. destruct args as [|f args].
  { unfold remove_feed. by rewrite run_await. }
  rewrite run_remove_feed.
  destruct (decide (f ∈ feeds (data w))); rewrite run_await; simpl; [|done].
  rewrite saved_data. simpl. by apply tracking_inv_removed.
Qed.

Lemma keeps_handle_inv h : keeps tracking_inv (handle json_dump h).
Proof.
  destruct h; simpl.
  - by apply keeps_start.
  - apply keeps_add_feed_inv.
  - apply keeps_remove_feed_inv.
  - apply keeps_check_feeds_inv.
  - apply keeps_check_feeds_periodic_inv.
Qed.

Lemma tracking_inv_default : tracking_inv default_data.
Proof.
  split_and!; simpl.
  - apply NoDup_singleton.
  - intros f [l Hf]. simpl in Hf. by rewrite lookup_empty in Hf.
  - intros f Hf%list_elem_of_singleton. by right.
Qed.

(** ** The loops of the check handlers *)

Lemma steps_to_refl w : steps_to w w (data w) [].
Proof. unfold steps_to. by rewrite app_nil_r. Qed.

Lemma steps_to_trans w w1 w2 d1 d2 o1 o2 :
  steps_to w w1 d1 o1 -> steps_to w1 w2 d2 o2 ->
  steps_to w w2 d2 (o1 ++ o2).
Proof.
  intros (? & Hs1 & ? & ?) (? & Hs2 & ? & ?). unfold steps_to.
  rewrite Hs2, Hs1, app_assoc. split_and!; congruence.
Qed.

Lemma elem_of_seen_after_l seen posts i :
  i ∈ seen -> i ∈ seen_after seen posts.
Proof.
  revert seen. induction posts as [|post posts IH]; intros seen Hi; simpl;
    [done|].
  destruct (decide (id post ∈ seen)); [by apply IH|].
  apply IH. apply elem_of_app. by left.
Qed.

Lemma elem_of_seen_after_r seen posts post :
  post ∈ posts -> id post ∈ seen_after seen posts.
Proof.
  revert seen. induction posts as [|post' posts IH]; intros seen Hp; simpl.
  { by apply not_elem_of_nil in Hp. }
  apply elem_of_cons in Hp as [->|Hp].
  - destruct (decide (id post' ∈ seen)).
    + by apply elem_of_seen_after_l.
    + apply elem_of_seen_after_l. apply elem_of_app. right. by left.
  - destruct (decide (id post' ∈ seen)); by apply IH.
Qed.

Lemma seen_after_new_posts seen posts :
  seen_after seen posts = seen ++ (id <$> new_posts seen posts).
Proof.
  revert seen. induction posts as [|post posts IH]; intros seen; simpl.
  { by rewrite app_nil_r. }
  destruct (decide (id post ∈ seen)); [done|].
  rewrite IH. simpl. by rewrite <-app_assoc.
Qed.

Lemma new_posts_all_seen seen posts :
  (forall post, post ∈ posts -> id post ∈ seen) -> new_posts seen posts = [].
Proof.
  induction posts as [|post posts IH]; intros Hall; simpl; [done|].
  destruct (decide (id post ∈ seen)) as [|Hn].
  - apply IH. intros p Hp. apply Hall. by right.
  - destruct Hn. apply Hall. by left.
Qed.

Lemma seen_after_all_seen seen posts :
  (forall post, post ∈ posts -> id post ∈ seen) ->
  seen_after seen posts = seen.
Proof.
  intros Hall. by rewrite seen_after_new_posts, new_posts_all_seen, app_nil_r.
Qed.

Lemma new_posts_idempotent seen posts :
  new_posts (seen_after seen posts) posts = [].
Proof.
  apply new_posts_all_seen. intros post. apply elem_of_seen_after_r.
Qed.

Lemma seen_after_idempotent seen posts :
  seen_after (seen_after seen posts) posts = seen_after seen posts.
Proof.
  apply seen_after_all_seen. intros post. apply elem_of_seen_after_r.
Qed.

Lemma seen_after_NoDup seen posts :
  NoDup seen -> NoDup (seen_after seen posts).
Proof.
  revert seen. induction posts as [|post posts IH]; intros seen Hs; simpl;
    [done|].
  destruct (decide (id post ∈ seen)); [by apply IH|].
  apply IH. by apply NoDup_snoc.
Qed.

Lemma elem_of_seen_after seen posts i :
  i ∈ seen_after seen posts <-> i ∈ seen \/ i ∈ id <$> posts.
Proof.
  split.
  - rewrite seen_after_new_posts, elem_of_app. intros [?|Hi]; [by left|].
    right. apply list_elem_of_fmap in Hi as (p & -> & Hp).
    apply list_elem_of_fmap. exists p. split; [done|].
    clear -Hp. revert seen Hp.
    induction posts as [|post posts IH]; intros seen Hp; simpl in Hp.
    { by apply not_elem_of_nil in Hp. }
    destruct (decide (id post ∈ seen)).
    + right. by eapply IH.
    + apply elem_of_cons in Hp as [->|Hp]; [by left|right; by eapply IH].
  - intros [Hi|Hi]; [by apply elem_of_seen_after_l|].
    apply list_elem_of_fmap in Hi as (p & -> & Hp).
    by apply elem_of_seen_after_r.
Qed.

(** When every post is seen already, the loops do nothing. *)
Lemma run_check_posts_seen E f posts n w seen :
  seen_posts (data w) !! f = Some seen ->
  (forall post, post ∈ posts -> id post ∈ seen) ->
  run E (for_fold posts (check_post f) n) w = (Ok n, w).
Proof.
  intros Hf. induction posts as [|post posts IH]; intros Hall;
    cbn [for_fold]; [done|].
  rewrite run_bind, run_check_post, Hf.
  rewrite decide_True by (apply Hall; by left).
  apply IH. intros p Hp. apply Hall. by right.
Qed.

Lemma run_periodic_post E f post w seen :
  seen_posts (data w) !! f = Some seen ->
  run E (periodic_post f post) w =
  if decide (id post ∈ seen) then (Ok tt, w)
  else run E (send_all (format_message post))
           (with_data (put_seen f (seen ++ [id post]) (data w)) w).
Proof.
  intros Hf. unfold periodic_post. rewrite run_bind, run_lookup_seen, Hf.
  destruct (decide (id post ∈ seen)); [done|].
  by rewrite run_bind, (run_append_seen _ _ _ _ seen).
Qed.

Lemma run_periodic_posts_seen E f posts w seen :
  seen_posts (data w) !! f = Some seen ->
  (forall post, post ∈ posts -> id post ∈ seen) ->
  run E (for_each posts (periodic_post f)) w = (Ok tt, w).
Proof.
  intros Hf. induction posts as [|post posts IH]; intros Hall;
    cbn [for_each]; [done|].
  rewrite run_bind, (run_periodic_post _ _ _ _ seen) by done.
  rewrite decide_True by (apply Hall; by left).
  apply IH. intros p Hp. apply Hall. by right.
Qed.

Lemma run_send_chats E message (chats : list Z) w :
  exists w',
    run E (for_each chats (fun chat_id =>
             try_except (await (Send chat_id message))
                        (fun _ => log (ErrSending chat_id)))) w = (Ok tt, w')
    /\ steps_to w w' (data w) ((fun c => Send c message) <$> chats).
Proof.
  revert w. induction chats as [|c chats IH]; intros w; cbn [for_each].
  { exists w. split; [done|apply steps_to_refl]. }
  rewrite run_bind, run_try_except, run_await.
  destruct (env_transport E (sent w) (Send c message)); cbn [run log].
  - destruct (IH (with_sent (Send c message) w)) as (w' & -> & Hs').
    exists w'. split; [done|].
    destruct Hs' as (Hd' & Hsent' & Hdisk' & Hwr'). unfold steps_to.
    rewrite Hd', Hsent', Hdisk', Hwr'. simpl. by rewrite <-app_assoc.
  - destruct (IH (with_log (ErrSending c) (with_sent (Send c message) w)))
      as (w' & -> & Hs').
    exists w'. split; [done|].
    destruct Hs' as (Hd' & Hsent' & Hdisk' & Hwr'). unfold steps_to.
    rewrite Hd', Hsent', Hdisk', Hwr'. simpl. by rewrite <-app_assoc.
Qed.

Lemma run_send_all E message w :
  exists w',
    run E (send_all message) w = (Ok tt, w')
    /\ steps_to w w' (data w)
                ((fun c => Send c message) <$> chat_ids (data w)).
Proof.
  unfold send_all. rewrite run_bind, run_get_data. apply run_send_chats.
Qed.

Lemma run_periodic_posts E f posts w seen :
  seen_posts (data w) !! f = Some seen ->
  exists w',
    run E (for_each posts (periodic_post f)) w = (Ok tt, w')
    /\ steps_to w w' (put_seen f (seen_after seen posts) (data w))
                (flat_map (fanout (chat_ids (data w)))
                          (new_posts seen posts)).
Proof.
  revert w seen. induction posts as [|post posts IH]; intros w seen Hf;
    cbn [for_each seen_after new_posts flat_map].
  { exists w. split; [done|]. rewrite put_seen_same by done.
    apply steps_to_refl. }
  rewrite run_bind, (run_periodic_post _ _ _ _ seen) by done.
  destruct (decide (id post ∈ seen)); [by apply IH|].
  set (w1 := with_data (put_seen f (seen ++ [id post]) (data w)) w).
  destruct (run_send_all E (format_message post) w1) as (w2 & -> & Hs2).
  destruct Hs2 as (Hd2 & Hsent2 & Hdisk2 & Hwr2).
  destruct (IH w2 (seen ++ [id post])) as (w' & -> & Hs').
  { rewrite Hd2. simpl. by rewrite lookup_insert_eq. }
  exists w'. split; [done|].
  destruct Hs' as (Hd' & Hsent' & Hdisk' & Hwr'). unfold steps_to.
  rewrite Hd', Hsent', Hdisk', Hwr', Hd2, Hsent2, Hdisk2, Hwr2.
  subst w1. simpl. rewrite put_seen_put_seen, <-app_assoc.
  by split_and!.
Qed.

Lemma run_check_posts E f posts n w seen r w' :
  seen_posts (data w) !! f = Some seen ->
  run E (for_fold posts (check_post f) n) w = (r, w') ->
  match r with
  | Ok n' =>
    n' = (n + length (new_posts seen posts))%nat /\
    steps_to w w' (put_seen f (seen_after seen posts) (data w))
             (announce <$> new_posts seen posts)
  | Raised e => e = TransportError
  end.
Proof.
  revert w seen n. induction posts as [|post posts IH]; intros w seen n Hf;
    cbn [for_fold seen_after new_posts].
  { intros [= <- <-]. split; [by rewrite Nat.add_0_r|].
    rewrite put_seen_same by done. apply steps_to_refl. }
  rewrite run_bind, run_check_post, Hf.
  destruct (decide (id post ∈ seen)); [by apply IH|].
  cbn zeta.
  destruct (env_transport E (sent w) (Reply (format_message post)));
    [|by intros [= <- <-]].
  intros Hrun. apply (IH _ (seen ++ [id post])) in Hrun.
  2:{ simpl. by rewrite lookup_insert_eq. }
  destruct r as [n'|e]; [|done].
  destruct Hrun as (-> & Hd' & Hsent' & Hdisk' & Hwr'). split.
  { simpl. lia. }
  unfold steps_to. rewrite Hd', Hsent', Hdisk', Hwr'. simpl.
  rewrite put_seen_put_seen, <-app_assoc. by split_and!.
Qed.

Lemma run_check_posts_reliable E f posts n w seen :
  reliable E ->
  seen_posts (data w) !! f = Some seen ->
  exists w',
    run E (for_fold posts (check_post f) n) w =
      (Ok (n + length (new_posts seen posts))%nat, w')
    /\ steps_to w w' (put_seen f (seen_after seen posts) (data w))
                (announce <$> new_posts seen posts).
Proof.
  intros HE. revert w seen n.
  induction posts as [|post posts IH]; intros w seen n Hf;
    cbn [for_fold seen_after new_posts].
  { exists w. split; [by rewrite Nat.add_0_r|].
    rewrite put_seen_same by done. apply steps_to_refl. }
  rewrite run_bind, run_check_post, Hf.
  destruct (decide (id post ∈ seen)); [by apply IH|].
  cbn zeta. rewrite HE.
  destruct (IH (with_sent (Reply (format_message post))
                  (with_data (put_seen f (seen ++ [id post]) (data w)) w))
               (seen ++ [id post]) (S n)) as (w' & -> & Hs).
  { simpl. by rewrite lookup_insert_eq. }
  exists w'. split; [f_equal; f_equal; simpl; lia|].
  destruct Hs as (Hd' & Hsent' & Hdisk' & Hwr').
  unfold steps_to. rewrite Hd', Hsent', Hdisk', Hwr'. simpl.
  rewrite put_seen_put_seen, <-app_assoc. by split_and!.
Qed.

(** ** One feed, then the whole cycle *)

Lemma steps_to_fetched E f w w' d' out :
  steps_to (with_data (put_seen f (seen_of (seen_posts (data w)) f) (data w))
              (fetched E f w)) w' d' out ->
  steps_to w w' d' out.
Proof.
  unfold steps_to. simpl.
  by rewrite fetched_sent, fetched_disk, fetched_writes.
Qed.

Lemma lookup_put_seen_of f d :
  seen_posts (put_seen f (seen_of (seen_posts d) f) d) !! f =
  Some (seen_of (seen_posts d) f).
Proof. simpl. by rewrite lookup_insert_eq. Qed.

Lemma run_periodic_feed E f w :
  let seen := seen_of (seen_posts (data w)) f in
  exists w',
    run E (periodic_feed f) w = (Ok tt, w')
    /\ steps_to w w' (put_seen f (seen_after seen (posts_of E f)) (data w))
                (flat_map (fanout (chat_ids (data w)))
                          (new_posts seen (posts_of E f))).
Proof.
  intros seen. unfold periodic_feed.
  rewrite run_bind, run_get_feed_posts, run_bind, run_init_seen.
  rewrite fetched_data.
  edestruct (run_periodic_posts E f (posts_of E f)) as (w' & -> & Hs).
  { simpl. apply lookup_put_seen_of. }
  exists w'. split; [done|]. apply (steps_to_fetched E f).
  simpl in Hs. by rewrite put_seen_put_seen in Hs.
Qed.

Lemma run_check_feed E f n w r w' :
  let seen := seen_of (seen_posts (data w)) f in
  run E (check_feed n f) w = (r, w') ->
  match r with
  | Ok n' =>
    n' = (n + length (new_posts seen (posts_of E f)))%nat /\
    steps_to w w' (put_seen f (seen_after seen (posts_of E f)) (data w))
             (announce <$> new_posts seen (posts_of E f))
  | Raised e => e = TransportError
  end.
Proof.
  intros seen. unfold check_feed.
  rewrite run_bind, run_get_feed_posts, run_bind, run_init_seen.
  rewrite fetched_data. intros Hrun.
  apply (run_check_posts _ _ _ _ _ seen) in Hrun.
  2:{ simpl. apply lookup_put_seen_of. }
  destruct r as [n'|e]; [|done]. destruct Hrun as [-> Hs]. split; [done|].
  apply (steps_to_fetched E f).
  simpl in Hs. by rewrite put_seen_put_seen in Hs.
Qed.

Lemma run_check_feed_reliable E f n w :
  reliable E ->
  let seen := seen_of (seen_posts (data w)) f in
  exists w',
    run E (check_feed n f) w =
      (Ok (n + length (new_posts seen (posts_of E f)))%nat, w')
    /\ steps_to w w' (put_seen f (seen_after seen (posts_of E f)) (data w))
                (announce <$> new_posts seen (posts_of E f)).
Proof.
  intros HE seen. unfold check_feed.
  rewrite run_bind, run_get_feed_posts, run_bind, run_init_seen.
  rewrite fetched_data.
  edestruct (run_check_posts_reliable E f (posts_of E f) n) as (w' & -> & Hs);
    [done| |].
  { simpl. apply lookup_put_seen_of. }
  exists w'. split; [done|]. apply (steps_to_fetched E f).
  simpl in Hs. by rewrite put_seen_put_seen in Hs.
Qed.

Lemma flat_map_pair {A B C} (g : B -> list C) (a : A) (l : list B) :
  flat_map (fun x : A * B => g x.2) (pair a <$> l) = flat_map g l.
Proof. induction l as [|b l IH]; simpl; [done|]. f_equal. exact IH. Qed.

Lemma run_periodic_feeds E fs w :
  exists w',
    run E (for_each fs periodic_feed) w = (Ok tt, w')
    /\ steps_to w w'
         (set_seen_posts (cycle_seen E fs (seen_posts (data w))) (data w))
         (flat_map (fun x => fanout (chat_ids (data w)) x.2)
                   (cycle_new E fs (seen_posts (data w)))).
Proof.
  revert w. induction fs as [|f fs IH]; intros w;
    cbn [for_each cycle_seen cycle_new flat_map].
  { exists w. split; [done|].
    replace (set_seen_posts (seen_posts (data w)) (data w)) with (data w)
      by by destruct (data w).
    apply steps_to_refl. }
  rewrite run_bind. destruct (run_periodic_feed E f w) as (w1 & -> & Hs1).
  destruct (IH w1) as (w' & -> & Hs'). exists w'. split; [done|].
  pose proof Hs1 as (Hd1 & _). rewrite Hd1 in Hs'. simpl in Hs'.
  rewrite flat_map_app.
  eapply steps_to_trans; [|exact Hs'].
  clear -Hs1. destruct Hs1 as (? & Hsent1 & ? & ?). unfold steps_to.
  rewrite Hsent1, flat_map_pair. by split_and!.
Qed.

Lemma run_check_feeds_loop_reliable E fs n w :
  reliable E ->
  exists w',
    run E (for_fold fs check_feed n) w =
      (Ok (n + length (cycle_new E fs (seen_posts (data w))))%nat, w')
    /\ steps_to w w'
         (set_seen_posts (cycle_seen E fs (seen_posts (data w))) (data w))
         ((fun x => announce x.2) <$> cycle_new E fs (seen_posts (data w))).
Proof.
  intros HE. revert w n. induction fs as [|f fs IH]; intros w n;
    cbn [for_fold cycle_seen cycle_new].
  { exists w. split; [by rewrite Nat.add_0_r|].
    replace (set_seen_posts (seen_posts (data w)) (data w)) with (data w)
      by by destruct (data w).
    apply steps_to_refl. }
  rewrite run_bind.
  destruct (run_check_feed_reliable E f n w HE) as (w1 & -> & Hs1).
  destruct (IH w1 (n + length (new_posts (seen_of (seen_posts (data w)) f)
                                          (posts_of E f)))%nat)
    as (w' & -> & Hs').
  pose proof Hs1 as (Hd1 & _). rewrite Hd1 in Hs' |- *. simpl in Hs' |- *.
  exists w'. split.
  { f_equal. f_equal. rewrite length_app, length_fmap. lia. }
  rewrite fmap_app. eapply steps_to_trans; [|exact Hs'].
  clear -Hs1. destruct Hs1 as (? & Hsent1 & ? & ?). unfold steps_to.
  rewrite Hsent1. split_and!; try done. f_equal.
  by rewrite <-list_fmap_compose.
Qed.

Lemma run_check_feeds_periodic E w :
  exists w1,
    run E (check_feeds_periodic json_dump) w = (Ok tt, saved json_dump E w1)
    /\ steps_to w w1
         (set_seen_posts (cycle_seen E (feeds (data w)) (seen_posts (data w)))
                         (data w))
         (flat_map (fun x => fanout (chat_ids (data w)) x.2)
                   (cycle_new E (feeds (data w)) (seen_posts (data w)))).
Proof.
  unfold check_feeds_periodic. rewrite run_bind. cbn [run log].
  rewrite run_bind, run_get_data, run_bind. simpl data.
  destruct (run_periodic_feeds E (feeds (data w)) (with_log InfoPeriodic w))
    as (w1 & -> & Hs).
  exists w1. by rewrite run_save_data.
Qed.

Lemma run_check_feeds E w :
  reliable E ->
  let new := cycle_new E (feeds (data w)) (seen_posts (data w)) in
  exists w1,
    run E (check_feeds json_dump) w =
      (Ok tt, with_sent (summary_reply (length new)) (saved json_dump E w1))
    /\ steps_to w w1
         (set_seen_posts (cycle_seen E (feeds (data w)) (seen_posts (data w)))
                         (data w))
         (Reply msg_checking :: ((fun x => announce x.2) <$> new)).
Proof.
  intros HE new. unfold check_feeds.
  rewrite run_bind, run_await_reliable by done.
  rewrite run_bind, run_get_data, run_bind. simpl data.
  destruct (run_check_feeds_loop_reliable E (feeds (data w)) 0
              (with_sent (Reply msg_checking) w) HE) as (w1 & -> & Hs).
  simpl in Hs. fold new in Hs |- *.
  exists w1. rewrite run_bind, run_save_data. split.
  - change (0 + length (cycle_new E (feeds (data w))
                 (seen_posts (data (with_sent (Reply msg_checking) w)))))%nat
      with (length new).
    destruct (length new); cbn [summary_reply];
      by rewrite run_await_reliable.
  - destruct Hs as (? & Hsent & ? & ?). unfold steps_to. rewrite Hsent.
    simpl. rewrite <-app_assoc. by split_and!.
Qed.

(** ** A feed whose posts are all seen *)

Lemma run_check_feed_seen E f n w seen :
  seen_posts (data w) !! f = Some seen ->
  (forall post, post ∈ posts_of E f -> id post ∈ seen) ->
  run E (check_feed n f) w = (Ok n, fetched E f w).
Proof.
  intros Hf Hall. unfold check_feed.
  rewrite run_bind, run_get_feed_posts, run_bind, run_init_seen.
  rewrite fetched_data. unfold seen_of. rewrite Hf.
  rewrite <-(fetched_data E f w), put_seen_id
    by by rewrite fetched_data.
  apply (run_check_posts_seen _ _ _ _ _ seen); [by rewrite fetched_data|done].
Qed.

Lemma run_periodic_feed_seen E f w seen :
  seen_posts (data w) !! f = Some seen ->
  (forall post, post ∈ posts_of E f -> id post ∈ seen) ->
  run E (periodic_feed f) w = (Ok tt, fetched E f w).
Proof.
  intros Hf Hall. unfold periodic_feed.
  rewrite run_bind, run_get_feed_posts, run_bind, run_init_seen.
  rewrite fetched_data. unfold seen_of. rewrite Hf.
  rewrite <-(fetched_data E f w), put_seen_id
    by by rewrite fetched_data.
  apply (run_periodic_posts_seen _ _ _ _ seen); [by rewrite fetched_data|done].
Qed.

(** ** The new posts of a cycle, feed by feed *)

Lemma seen_of_insert f (l : list pystr) (m : gmap pystr (list pystr)) :
  seen_of (<[f := l]> m) f = l.
Proof. unfold seen_of. by rewrite lookup_insert_eq. Qed.

Lemma seen_of_insert_ne f g (l : list pystr) (m : gmap pystr (list pystr)) :
  f <> g -> seen_of (<[f := l]> m) g = seen_of m g.
Proof. intros Hne. unfold seen_of. by rewrite lookup_insert_ne. Qed.

Lemma cycle_new_feed E fs (m : gmap pystr (list pystr)) x :
  x ∈ cycle_new E fs m -> x.1 ∈ fs.
Proof.
  revert m. induction fs as [|f fs IH]; intros m; simpl.
  { by intros ?%not_elem_of_nil. }
  rewrite elem_of_app. intros [Hx|Hx].
  - apply list_elem_of_fmap in Hx as (p & -> & _). by left.
  - right. by eapply IH.
Qed.

Lemma cycle_new_seen E fs (m : gmap pystr (list pystr)) f x :
  (forall post, post ∈ posts_of E f -> id post ∈ seen_of m f) ->
  x ∈ cycle_new E fs m -> x.1 <> f.
Proof.
  revert m. induction fs as [|g fs IH]; intros m Hall; simpl.
  { by intros ?%not_elem_of_nil. }
  rewrite elem_of_app. intros [Hx|Hx].
  - apply list_elem_of_fmap in Hx as (p & -> & Hp). simpl. intros ->.
    rewrite new_posts_all_seen in Hp by done. by apply not_elem_of_nil in Hp.
  - eapply IH; [|exact Hx]. intros post Hpost.
    destruct (decide (g = f)) as [->|Hne].
    + rewrite seen_of_insert. apply elem_of_seen_after_l. by apply Hall.
    + rewrite seen_of_insert_ne by done. by apply Hall.
Qed.






Lemma cycle_seen_is_Some E fs m f :
  f ∈ fs \/ is_Some (m !! f) -> is_Some (cycle_seen E fs m !! f).
Proof.
  revert m. induction fs as [|g fs IH]; intros m; simpl.
  { intros [?%not_elem_of_nil|?]; done. }
  intros [Hf|Hf]; apply IH.
  - apply elem_of_cons in Hf as [->|Hf]; [right|by left].
    by rewrite lookup_insert_eq.
  - right. destruct (decide (g = f)) as [->|Hne].
    + by rewrite lookup_insert_eq.
    + by rewrite lookup_insert_ne.
Qed.

Lemma cycle_seen_lookup_seen E fs m f seen :
  m !! f = Some seen ->
  (forall post, post ∈ posts_of E f -> id post ∈ seen) ->
  cycle_seen E fs m !! f = Some seen.
Proof.
  revert m. induction fs as [|g fs IH]; intros m Hf Hall; simpl; [done|].
  apply IH; [|done]. destruct (decide (g = f)) as [->|Hne].
  - rewrite lookup_insert_eq. unfold seen_of. rewrite Hf.
    by rewrite seen_after_all_seen.
  - by rewrite lookup_insert_ne.
Qed.

(** ** The two cycles, as the caller sees them *)

Lemma check_feeds_periodic_cycle E w :
  let new := cycle_new E (feeds (data w)) (seen_posts (data w)) in
  let w' := (run E (check_feeds_periodic json_dump) w).2 in
  (run E (check_feeds_periodic json_dump) w).1 = Ok tt
  /\ data w' = set_seen_posts
                 (cycle_seen E (feeds (data w)) (seen_posts (data w))) (data w)
  /\ sent w' = sent w ++ flat_map (fun x => fanout (chat_ids (data w)) x.2) new.
Proof.
  intros new w'. subst w'.
  destruct (run_check_feeds_periodic E w) as (w1 & -> & Hd & Hs & _).
  simpl. by rewrite saved_data, saved_sent.
Qed.

Lemma check_feeds_cycle E w :
  reliable E ->
  let new := cycle_new E (feeds (data w)) (seen_posts (data w)) in
  let w' := (run E (check_feeds json_dump) w).2 in
  (run E (check_feeds json_dump) w).1 = Ok tt
  /\ data w' = set_seen_posts
                 (cycle_seen E (feeds (data w)) (seen_posts (data w))) (data w)
  /\ sent w' = sent w ++ Reply msg_checking ::
                 ((fun x => announce x.2) <$> new) ++
                 [summary_reply (length new)].
Proof.
  intros HE new w'. subst w'.
  destruct (run_check_feeds E w HE) as (w1 & -> & Hd & Hs & _).
  simpl. rewrite saved_data, saved_sent, Hs. split_and!; [done..|].
  by rewrite <-app_assoc.
Qed.

(** ** A cycle after a cycle *)

Lemma cycle_seen_grows E fs m g i :
  i ∈ seen_of m g -> i ∈ seen_of (cycle_seen E fs m) g.
Proof.
  revert m. induction fs as [|f fs IH]; intros m Hi; simpl; [done|].
  apply IH. destruct (decide (f = g)) as [->|Hne].
  - rewrite seen_of_insert. by apply elem_of_seen_after_l.
  - by rewrite seen_of_insert_ne.
Qed.

Lemma cycle_seen_covers E fs m f post :
  f ∈ fs -> post ∈ posts_of E f ->
  id post ∈ seen_of (cycle_seen E fs m) f.
Proof.
  revert m. induction fs as [|g fs IH]; intros m Hf Hpost; simpl.
  { by apply not_elem_of_nil in Hf. }
  apply elem_of_cons in Hf as [->|Hf]; [|by apply IH].
  apply cycle_seen_grows. rewrite seen_of_insert.
  by apply elem_of_seen_after_r.
Qed.

(** A cycle that follows a cycle over the same fetched posts finds no new
    post. *)
Lemma cycle_new_idempotent E E' fs m :
  (forall f, posts_of E' f = posts_of E f) ->
  cycle_new E' fs (cycle_seen E fs m) = [].
Proof.
  intros Hposts.
  destruct (cycle_new E' fs (cycle_seen E fs m)) as [|x l] eqn:Hnew; [done|].
  assert (x ∈ cycle_new E' fs (cycle_seen E fs m)) as Hx.
  { rewrite Hnew. by left. }
  destruct (cycle_new_seen E' fs (cycle_seen E fs m) x.1 x); try done.
  intros post Hpost. apply cycle_seen_covers.
  - by eapply cycle_new_feed.
  - by rewrite <-Hposts.
Qed.

Lemma cycle_seen_settled E fs m :
  (forall f, f ∈ fs ->
     is_Some (m !! f) /\
     forall post, post ∈ posts_of E f -> id post ∈ seen_of m f) ->
  cycle_seen E fs m = m.
Proof.
  induction fs as [|f fs IH]; intros Hall; simpl; [done|].
  destruct (Hall f) as [[l Hl] Hseen]; [by left|].
  rewrite seen_after_all_seen by done.
  unfold seen_of. rewrite Hl, insert_id by done.
  apply IH. intros g Hg. apply Hall. by right.
Qed.

Lemma cycle_seen_idempotent E E' fs m :
  (forall f, posts_of E' f = posts_of E f) ->
  cycle_seen E' fs (cycle_seen E fs m) = cycle_seen E fs m.
Proof.
  intros Hposts. apply cycle_seen_settled. intros f Hf. split.
  - apply cycle_seen_is_Some. by left.
  - intros post Hpost. apply cycle_seen_covers; [done|]. by rewrite <-Hposts.
Qed.

(** ** The manual cycle with any transport *)

Lemma calls_made_app E (history l1 l2 : list output) :
  calls_made E history (l1 ++ l2) =
  if (calls_made E history l1).2 then
    (l1 ++ (calls_made E (history ++ l1) l2).1,
     (calls_made E (history ++ l1) l2).2)
  else calls_made E history l1.
Proof.
  revert history. induction l1 as [|o l1 IH]; intros history; simpl.
  { rewrite app_nil_r. by destruct (calls_made E history l2). }
  destruct (env_transport E history o); [|done].
  rewrite IH, <-app_assoc. simpl.
  destruct (calls_made E (history ++ [o]) l1) as [made1 [|]]; simpl; [|done].
  by destruct (calls_made E (history ++ o :: l1) l2).
Qed.

Lemma calls_made_reliable E (history outs : list output) :
  reliable E -> calls_made E history outs = (outs, true).
Proof.
  intros HE. revert history. induction outs as [|o outs IH]; intros history;
    simpl; [done|].
  by rewrite HE, IH.
Qed.

Lemma calls_made_ok E (history outs : list output) :
  (calls_made E history outs).2 = true ->
  (calls_made E history outs).1 = outs.
Proof.
  revert history. induction outs as [|o outs IH]; intros history; simpl;
    [done|].
  destruct (env_transport E history o); [|done].
  specialize (IH (history ++ [o])).
  destruct (calls_made E (history ++ [o]) outs) as [made ok]. simpl in *.
  intros Hok. by rewrite IH.
Qed.

(** A reply that raised is the last call made, and the transport refused
    it. *)
Lemma calls_made_failed E (history outs : list output) :
  (calls_made E history outs).2 = false ->
  exists pre o post,
    outs = pre ++ o :: post
    /\ (calls_made E history outs).1 = pre ++ [o]
    /\ env_transport E (history ++ pre) o = false.
Proof.
  revert history. induction outs as [|o outs IH]; intros history; simpl;
    [done|].
  destruct (env_transport E history o) eqn:Ho.
  - specialize (IH (history ++ [o])).
    destruct (calls_made E (history ++ [o]) outs) as [made ok]. simpl in *.
    intros Hok. destruct (IH Hok) as (pre & o' & post & -> & -> & Hno).
    exists (o :: pre), o', post. rewrite <-app_assoc in Hno. by split_and!.
  - intros _. exists [], o, outs. rewrite app_nil_r. by split_and!.
Qed.

Lemma run_check_posts_any E f posts n w seen :
  seen_posts (data w) !! f = Some seen ->
  let new := new_posts seen posts in
  let made := calls_made E (sent w) (announce <$> new) in
  exists w',
    run E (for_fold posts (check_post f) n) w =
      (if made.2 then Ok (n + length new)%nat else Raised TransportError, w')
    /\ sent w' = sent w ++ made.1
    /\ disk w' = disk w /\ writes w' = writes w
    /\ (made.2 = true ->
        data w' = put_seen f (seen_after seen posts) (data w)).
Proof.
  revert w seen n. induction posts as [|post posts IH]; intros w seen n Hf;
    cbn [for_fold seen_after new_posts].
  { exists w. cbn. rewrite app_nil_r, Nat.add_0_r, put_seen_same by done.
    by split_and!. }
  rewrite run_bind, run_check_post, Hf.
  destruct (decide (id post ∈ seen)); [by apply IH|].
  cbn zeta. cbn [fmap list_fmap calls_made]. fold (announce post).
  destruct (env_transport E (sent w) (announce post)).
  - set (w1 := with_sent (announce post)
                 (with_data (put_seen f (seen ++ [id post]) (data w)) w)).
    destruct (IH w1 (seen ++ [id post]) (S n)) as (w' & Hrun & Hs & Hd & Hw & Hdata).
    { simpl. by rewrite lookup_insert_eq. }
    exists w'. cbn zeta in Hrun, Hs, Hdata. simpl sent in Hrun, Hs, Hdata.
    destruct (calls_made E (sent w ++ [announce post]) _) as [made ok].
    cbn [fst snd] in *. rewrite Hrun, Hs, Hd, Hw. split_and!; try done.
    + destruct ok; [|done]. do 2 f_equal. simpl. lia.
    + by rewrite <-app_assoc.
    + intros Hok. rewrite Hdata by done. subst w1. simpl.
      by rewrite put_seen_put_seen.
  - eexists. cbn [fst snd]. by split_and!.
Qed.

Lemma run_check_feed_any E f n w :
  let seen := seen_of (seen_posts (data w)) f in
  let new := new_posts seen (posts_of E f) in
  let made := calls_made E (sent w) (announce <$> new) in
  exists w',
    run E (check_feed n f) w =
      (if made.2 then Ok (n + length new)%nat else Raised TransportError, w')
    /\ sent w' = sent w ++ made.1
    /\ disk w' = disk w /\ writes w' = writes w
    /\ (made.2 = true ->
        data w' = put_seen f (seen_after seen (posts_of E f)) (data w)).
Proof.
  intros seen new made. unfold check_feed.
  rewrite run_bind, run_get_feed_posts, run_bind, run_init_seen.
  rewrite fetched_data.
  set (w1 := with_data _ (fetched E f w)).
  destruct (run_check_posts_any E f (posts_of E f) n w1 seen)
    as (w' & Hrun & Hs & Hd & Hw & Hdata).
  { subst w1. simpl. by rewrite lookup_insert_eq. }
  exists w'. subst w1. simpl in Hrun, Hs, Hd, Hw, Hdata.
  rewrite fetched_sent in Hrun, Hs, Hdata. rewrite fetched_disk in Hd.
  rewrite fetched_writes in Hw. split_and!; try done.
  intros Hok. rewrite Hdata by done. by rewrite put_seen_put_seen.
Qed.

Lemma run_check_feeds_loop_any E fs n w :
  let new := cycle_new E fs (seen_posts (data w)) in
  let made := calls_made E (sent w) ((fun x => announce x.2) <$> new) in
  exists w',
    run E (for_fold fs check_feed n) w =
      (if made.2 then Ok (n + length new)%nat else Raised TransportError, w')
    /\ sent w' = sent w ++ made.1
    /\ disk w' = disk w /\ writes w' = writes w
    /\ (made.2 = true ->
        data w' =
        set_seen_posts (cycle_seen E fs (seen_posts (data w))) (data w)).
Proof.
  revert w n. induction fs as [|f fs IH]; intros w n;
    cbn [for_fold cycle_seen cycle_new].
  { exists w. cbn. rewrite app_nil_r, Nat.add_0_r. split_and!; try done.
    intros _. by destruct (data w). }
  cbn zeta. rewrite run_bind, fmap_app, calls_made_app.
  rewrite <-list_fmap_compose.
  change ((fun x : pystr * Post => announce x.2) ∘ pair f) with announce.
  destruct (run_check_feed_any E f n w) as (w1 & -> & Hs1 & Hd1 & Hw1 & Hdata1).
  cbn zeta in Hs1, Hdata1.
  destruct (calls_made E (sent w) (announce <$> _)) as [made1 ok1] eqn:Hm1.
  cbn [fst snd] in *. destruct ok1; [|by exists w1].
  assert (made1 = announce <$>
            new_posts (seen_of (seen_posts (data w)) f) (posts_of E f)) as ->.
  { pose proof (calls_made_ok E (sent w)
      (announce <$> new_posts (seen_of (seen_posts (data w)) f) (posts_of E f)))
      as Hok. rewrite Hm1 in Hok. by apply Hok. }
  specialize (Hdata1 eq_refl).
  destruct (IH w1 (n + length (new_posts (seen_of (seen_posts (data w)) f)
                                          (posts_of E f)))%nat)
    as (w' & Hrun & Hs & Hd & Hw & Hdata).
  cbn zeta in Hrun, Hs, Hdata. rewrite Hdata1, Hs1 in Hrun, Hs, Hdata.
  simpl seen_posts in Hrun, Hs, Hdata.
  exists w'. rewrite Hrun, Hs, Hd, Hw, Hd1, Hw1.
  destruct (calls_made E _ ((fun x => announce x.2) <$> cycle_new E fs _))
    as [made2 ok2]. cbn [fst snd] in *. split_and!; try done.
  - destruct ok2; [|done]. do 2 f_equal. rewrite length_app, length_fmap. lia.
  - by rewrite <-app_assoc.
Qed.

(** The manual check with any transport: its replies are those of the
    whole cycle up to the first that raises, it ends normally when none
    does, and it has saved when it got to its last reply. *)
Lemma run_check_feeds_any E w :
  let new := cycle_new E (feeds (data w)) (seen_posts (data w)) in
  let outs := Reply msg_checking :: ((fun x => announce x.2) <$> new) ++
              [summary_reply (length new)] in
  let made := calls_made E (sent w) outs in
  let r := run E (check_feeds json_dump) w in
  r.1 = (if made.2 then Ok tt else Raised TransportError)
  /\ sent r.2 = sent w ++ made.1
  /\ ((length made.1 < length outs)%nat ->
      disk r.2 = disk w /\ writes r.2 = writes w)
  /\ (length made.1 = length outs ->
      data r.2 =
      set_seen_posts (cycle_seen E (feeds (data w)) (seen_posts (data w)))
                     (data w)
      /\ writes r.2 = S (writes w)).
Proof.
  intros new outs made r. subst r made outs. unfold check_feeds.
  rewrite run_bind, run_await. cbn [calls_made].
  destruct (env_transport E (sent w) (Reply msg_checking)).
  2:{ cbn [fst snd]. split_and!; try done.
      simpl. rewrite length_app. simpl. lia. }
  rewrite run_bind, run_get_data, run_bind. cbn [data with_sent].
  destruct (run_check_feeds_loop_any E (feeds (data w)) 0
              (with_sent (Reply msg_checking) w))
    as (w1 & Hrun & Hs1 & Hd1 & Hw1 & Hdata1).
  cbn zeta in Hrun, Hs1, Hdata1.
  cbn [data sent disk writes with_sent] in Hrun, Hs1, Hd1, Hw1, Hdata1.
  fold new in Hrun, Hs1, Hdata1 |- *.
  rewrite calls_made_app.
  destruct (calls_made E (sent w ++ [Reply msg_checking])
              ((fun x => announce x.2) <$> new)) as [made1 ok1] eqn:Hm1.
  cbn [fst snd] in Hrun, Hs1, Hdata1 |- *. rewrite Hrun.
  destruct ok1.
  2:{ cbn [fst snd]. rewrite Hs1, <-app_assoc. split_and!; try done.
      intros Hlen. exfalso.
      pose proof (calls_made_failed E (sent w ++ [Reply msg_checking])
                    ((fun x => announce x.2) <$> new)) as Hfail.
      rewrite Hm1 in Hfail.
      destruct (Hfail eq_refl) as (pre & o & post & Hnew & Hmade & _).
      cbn [fst] in Hmade. subst made1. revert Hlen. cbn [length].
      rewrite Hnew, !length_app. cbn [length]. lia. }
  assert (made1 = (fun x => announce x.2) <$> new) as ->.
  { pose proof (calls_made_ok E (sent w ++ [Reply msg_checking])
      ((fun x => announce x.2) <$> new)) as Hok. rewrite Hm1 in Hok.
    by apply Hok. }
  specialize (Hdata1 eq_refl).
  rewrite run_bind, run_save_data. cbn [calls_made].
  change (0 + length new)%nat with (length new).
  assert (run E (match length new with
                 | O => await (Reply msg_no_new)
                 | S _ => await (Reply (msg_found (length new)))
                 end) (saved json_dump E w1) =
          run E (await (summary_reply (length new))) (saved json_dump E w1))
    as -> by by destruct (length new).
  assert (writes (saved json_dump E w1) = S (writes w)) as Hwr.
  { unfold saved. destruct (env_write E (writes w1)); simpl; by rewrite Hw1. }
  rewrite run_await, saved_sent, Hs1, <-!app_assoc. cbn [app].
  destruct (env_transport E _ (summary_reply (length new))); cbn [fst snd];
    cbn [sent data writes with_sent];
    rewrite saved_sent, saved_data, Hs1, <-!app_assoc; cbn [app];
    (split_and!; try done;
      [cbn [length]; rewrite !length_app; cbn [length]; lia]).
Qed.

(** ** What the check handlers keep: they only put seen lists *)

Lemma keeps_init_seen_put (I : TrackingState -> Prop) f :
  (forall g l d, I d -> I (put_seen g l d)) ->
  keeps I (init_seen (text:=text) f).
Proof. intros Hput E w HI. rewrite run_init_seen. by apply Hput. Qed.

Lemma keeps_check_post_put (I : TrackingState -> Prop) f n post :
  (forall g l d, I d -> I (put_seen g l d)) ->
  keeps I (check_post (text:=text) f n post).
Proof.
  intros Hput E w HI. rewrite run_check_post.
  destruct (seen_posts (data w) !! f) as [seen|]; [|done].
  destruct (decide (id post ∈ seen)); [done|]. by apply Hput.
Qed.

Lemma keeps_periodic_post_put (I : TrackingState -> Prop) f post :
  (forall g l d, I d -> I (put_seen g l d)) ->
  keeps I (periodic_post (text:=text) f post).
Proof.
  intros Hput E w HI. unfold periodic_post. rewrite run_bind, run_lookup_seen.
  destruct (seen_posts (data w) !! f) as [seen|] eqn:Hf; [|done].
  destruct (decide (id post ∈ seen)); [done|].
  rewrite run_bind, (run_append_seen _ _ _ _ seen) by done.
  apply keeps_send_all. by apply Hput.
Qed.

Lemma keeps_check_feeds_put (I : TrackingState -> Prop) :
  (forall g l d, I d -> I (put_seen g l d)) ->
  keeps I (check_feeds json_dump).
Proof.
  intros Hput. unfold check_feeds.
  apply keeps_bind; [apply keeps_await|]. intros _.
  apply keeps_bind; [by intros E w HI|]. intros d.
  apply keeps_bind.
  { apply keeps_for_fold. intros n f _. unfold check_feed.
    apply keeps_bind; [apply keeps_get_feed_posts|]. intros posts.
    apply keeps_bind; [by apply keeps_init_seen_put|]. intros _.
    apply keeps_for_fold. intros n' post _. by apply keeps_check_post_put. }
  intros n. apply keeps_bind; [apply keeps_save_data|]. intros _.
  destruct n; apply keeps_await.
Qed.

Lemma keeps_check_feeds_periodic_put (I : TrackingState -> Prop) :
  (forall g l d, I d -> I (put_seen g l d)) ->
  keeps I (check_feeds_periodic json_dump).
Proof.
  intros Hput. unfold check_feeds_periodic.
  apply keeps_bind; [apply keeps_log|]. intros _.
  apply keeps_bind; [by intros E w HI|]. intros d.
  apply keeps_bind; [|intros _; apply keeps_save_data].
  apply keeps_for_each. intros f _. unfold periodic_feed.
  apply keeps_bind; [apply keeps_get_feed_posts|]. intros posts.
  apply keeps_bind; [by apply keeps_init_seen_put|]. intros _.
  apply keeps_for_each. intros post _. by apply keeps_periodic_post_put.
Qed.

(** ** Once every feed has a seen list, every feed keeps one *)

Lemma feeds_have_seen_put_seen g l d :
  feeds_have_seen d -> feeds_have_seen (put_seen g l d).
Proof.
  intros Hd f Hf. simpl in *. destruct (decide (g = f)) as [->|Hne].
  - by rewrite lookup_insert_eq.
  - rewrite lookup_insert_ne by done. by apply Hd.
Qed.

Lemma feeds_have_seen_added f posts d :
  feeds_have_seen d -> feeds_have_seen (added f posts d).
Proof.
  intros Hd g Hg. simpl in *. destruct (decide (f = g)) as [->|Hne].
  - by rewrite lookup_insert_eq.
  - rewrite lookup_insert_ne by done. apply Hd.
    apply elem_of_app in Hg as [Hg|Hg%list_elem_of_singleton]; [done|].
    by subst.
Qed.

Lemma feeds_have_seen_removed f d :
  NoDup (feeds d) -> feeds_have_seen d -> feeds_have_seen (removed f d).
Proof.
  intros Hnd Hd g Hg. simpl in *.
  apply list_remove_elem_of in Hg as [Hg Hne]; [|done].
  rewrite lookup_delete_ne by done. by apply Hd.
Qed.

Lemma handle_have_seen h E w :
  tracking_inv (data w) -> feeds_have_seen (data w) ->
  feeds_have_seen (data (run E (handle json_dump h) w).2).
Proof.
  intros Hinv Hall. destruct h as [c|args|has args| |]; cbn [handle].
  - by apply keeps_start.
  - destruct args as [|f args].
    { unfold add_feed. by rewrite run_await. }
    rewrite run_add_feed.
    destruct (decide (f ∈ feeds (data w))); [by rewrite run_await|].
    destruct (env_transport E (sent w) (Reply msg_validating)); [|done].
    cbn zeta. destruct (truthy (posts_of E f)); rewrite run_await; simpl.
    + rewrite saved_data. simpl. by apply feeds_have_seen_added.
    + by rewrite fetched_data.
  - destruct has; [|done]. destruct args as [|f args].
    { unfold remove_feed. by rewrite run_await. }
    rewrite run_remove_feed.
    destruct (decide (f ∈ feeds (data w))); rewrite run_await; simpl; [|done].
    rewrite saved_data. simpl. apply feeds_have_seen_removed; [|done].
    by destruct Hinv.
  - apply keeps_check_feeds_put; [|done]. intros g l d.
    apply feeds_have_seen_put_seen.
  - apply keeps_check_feeds_periodic_put; [|done]. intros g l d.
    apply feeds_have_seen_put_seen.
Qed.

Lemma reachable_have_seen d0 w :
  tracking_inv d0 -> feeds_have_seen d0 ->
  reachable_from json_dump json_load d0 w ->
  tracking_inv (data w) /\ feeds_have_seen (data w).
Proof.
  intros Hinv Hall Hw. induction Hw as [E file Hboot|E h w Hw IH].
  - by rewrite Hboot.
  - destruct IH as [IH1 IH2]. split.
    + by apply keeps_handle_inv.
    + by apply handle_have_seen.
Qed.

(** ** The claims *)

(** C5 — Summary truncation.  The notification of a post is a head that
    the summary has no part in, followed by the summary segment: when the
    summary has more than 500 characters, exactly its first 500 characters
    and then the three full stops ["..."], and nothing after them; when it
    has 500 characters or fewer, the summary whole, with nothing after
    it. *)
Theorem summary_truncation (post : Post) :
  ((500 < length (summary post))%nat ->
   format_message post =
   message_head post ++ take 500 (summary post) ++ lit "...")
  /\ ((length (summary post) <= 500)%nat ->
      format_message post = message_head post ++ summary post)
  /\ (forall post' : Post,
        title post' = title post -> link post' = link post ->
        published post' = published post ->
        message_head post' = message_head post).
Proof.
  unfold format_message, truncate_summary. split_and!.
  - intros Hlen.
    destruct (summary post) as [|c s] eqn:Hs; [simpl in Hlen; lia|].
    cbn [truthy]. by rewrite decide_True.
  - intros Hlen. destruct (summary post) as [|c s] eqn:Hs;
      [cbn [truthy]; by rewrite app_nil_r|].
    cbn [truthy]. rewrite decide_False by lia.
    by rewrite take_ge by done.
  - intros post' Ht Hl Hp. unfold message_head. by rewrite Ht, Hl, Hp.
Qed.

(** C1 — Idempotent dedup.  For every feed and every fetched list of
    posts, when the dedup loop of a feed has run, running it again on the
    same fetched posts finds no post new: the periodic body ends without a
    transport call, the manual body returns its counter unchanged, and in
    both the world is the one before but for the log line of a failed
    fetch ([fetched]): nothing is sent and nothing is appended.  The first
    manual run ends normally whenever the transport is reliable.  So a
    whole periodic cycle run after a cycle, over the same fetched posts,
    sends nothing and leaves [rss_bot.data] as it is. *)
Theorem dedup_idempotent E1 E2 f w :
  posts_of E2 f = posts_of E1 f ->
  (let w1 := (run E1 (periodic_feed f) w).2 in
   run E2 (periodic_feed f) w1 = (Ok tt, fetched E2 f w1))
  /\ (forall n n1 w1 n2,
        run E1 (check_feed n f) w = (Ok n1, w1) ->
        run E2 (check_feed n2 f) w1 = (Ok n2, fetched E2 f w1))
  /\ (forall n, reliable E1 ->
        exists n1 w1, run E1 (check_feed n f) w = (Ok n1, w1))
  /\ ((forall g, posts_of E2 g = posts_of E1 g) ->
      let w1 := (run E1 (check_feeds_periodic json_dump) w).2 in
      let w2 := (run E2 (check_feeds_periodic json_dump) w1).2 in
      sent w2 = sent w1 /\ data w2 = data w1).
Proof.
  intros Hposts. split_and!.
  - destruct (run_periodic_feed E1 f w) as (w1 & -> & Hd & _). simpl.
    eapply run_periodic_feed_seen.
    + rewrite Hd. simpl. apply lookup_insert_eq.
    + rewrite Hposts. intros post. apply elem_of_seen_after_r.
  - intros n n1 w1 n2 Hrun.
    pose proof (run_check_feed _ _ _ _ _ _ Hrun) as (_ & Hd & _).
    eapply run_check_feed_seen.
    + rewrite Hd. simpl. apply lookup_insert_eq.
    + rewrite Hposts. intros post. apply elem_of_seen_after_r.
  - intros n HE.
    destruct (run_check_feed_reliable E1 f n w HE) as (w1 & Hrun & _).
    eauto.
  - intros Hall w1 w2. subst w1 w2.
    destruct (check_feeds_periodic_cycle E1 w) as (_ & Hd1 & _).
    set (w1 := (run E1 (check_feeds_periodic json_dump) w).2) in *.
    destruct (check_feeds_periodic_cycle E2 w1) as (_ & Hd2 & Hs2).
    rewrite Hs2, Hd2, Hd1. simpl.
    rewrite cycle_new_idempotent, cycle_seen_idempotent by done.
    simpl. by rewrite app_nil_r.
Qed.

(** C10 — Duplicate-free seen lists.  Every handler appends an id to a seen
    list only after the membership test, so in every world reached from a
    process start whose data had duplicate-free seen lists (the default
    data has none at all), no id is twice in the seen list of a feed. *)
Theorem seen_posts_duplicate_free d0 w :
  seen_nodup d0 ->
  reachable_from json_dump json_load d0 w ->
  seen_nodup (data w).
Proof.
  intros H0 Hw. eapply reachable_keeps; [|exact H0|exact Hw].
  apply keeps_handle_nodup.
Qed.

(** C2, as amended — TrackingState invariant.  From a start whose data
    has distinct feeds, no orphaned seen list, and a seen list for every
    feed but possibly the seed feed of the default data (the default data
    is such a start, and so is any data the bot has saved), every world
    reached has the same: the feeds are distinct, no seen list is
    orphaned, and only the seed feed of the default data may lack a seen
    list, which it does until a check cycle makes it.  From a start in
    which every feed has a seen list, every feed has one in every world
    reached.  After a periodic cycle, and after a manual cycle that ends
    normally (as it does when the transport is reliable), every feed has
    one; and once every feed has one, every handler leaves it so.
    Removing a feed leaves neither the feed nor a seen list for it. *)
Theorem tracking_state_invariant d0 w :
  tracking_inv d0 ->
  reachable_from json_dump json_load d0 w ->
  tracking_inv (data w)
  /\ (feeds_have_seen d0 -> feeds_have_seen (data w))
  /\ (forall E,
        feeds_have_seen (data (run E (check_feeds_periodic json_dump) w).2))
  /\ (forall E,
        (run E (check_feeds json_dump) w).1 = Ok tt ->
        feeds_have_seen (data (run E (check_feeds json_dump) w).2))
  /\ (forall E, reliable E -> (run E (check_feeds json_dump) w).1 = Ok tt)
  /\ (forall E h,
        feeds_have_seen (data w) ->
        feeds_have_seen (data (run E (handle json_dump h) w).2))
  /\ (forall E f args,
        let w' := (run E (remove_feed json_dump true (f :: args)) w).2 in
        (f ∉ feeds (data w')) /\ seen_posts (data w') !! f = None).
Proof.
  intros H0 Hw.
  assert (tracking_inv (data w)) as Hinv.
  { eapply reachable_keeps; [|exact H0|exact Hw].
    apply keeps_handle_inv. }
  split_and!; [done|..].
  - intros Hall. by destruct (reachable_have_seen d0 w H0 Hall Hw).
  - intros E f Hf.
    destruct (check_feeds_periodic_cycle E w) as (_ & Hd & _).
    rewrite Hd in Hf |- *. simpl in *. apply cycle_seen_is_Some. by left.
  - intros E Hok f Hf.
    destruct (run_check_feeds_any E w) as (Hr & _ & _ & Hd).
    cbn zeta in Hr, Hd. rewrite Hok in Hr.
    destruct (calls_made E (sent w) _) as [made ok] eqn:Hm.
    cbn [fst snd] in *. destruct ok; [|done].
    pose proof (calls_made_ok E (sent w)
      (Reply msg_checking :: ((fun x => announce x.2) <$>
         cycle_new E (feeds (data w)) (seen_posts (data w))) ++
         [summary_reply (length (cycle_new E (feeds (data w))
                                   (seen_posts (data w))))])) as Hmade.
    rewrite Hm in Hmade. cbn [fst snd] in Hmade.
    destruct Hd as [Hd _]; [by rewrite Hmade|].
    rewrite Hd in Hf |- *. simpl in *. apply cycle_seen_is_Some. by left.
  - intros E HE. by destruct (check_feeds_cycle E w HE) as (Hr & _).
  - intros E h Hall. by apply handle_have_seen.
  - intros E f args w'. subst w'. rewrite run_remove_feed.
    destruct Hinv as (Hnd & Horph & _).
    destruct (decide (f ∈ feeds (data w))) as [Hf|Hf]; rewrite run_await;
      simpl.
    + rewrite saved_data. simpl. split; [|apply lookup_delete_eq].
      rewrite list_remove_elem_of by done. by intros [_ ?].
    + split; [done|]. apply eq_None_not_Some. intros Hs. apply Hf. by apply Horph.
Qed.

Lemma seen_after_nil_length posts :
  length (seen_after [] posts) = length (remove_dups (id <$> posts)).
Proof.
  apply Permutation_length, NoDup_Permutation.
  - apply seen_after_NoDup, NoDup_nil_2.
  - apply NoDup_remove_dups.
  - intros i. rewrite elem_of_seen_after, elem_of_remove_dups.
    split; [intros [?%not_elem_of_nil|?]; done|by right].
Qed.

Lemma seen_after_distinct seen posts :
  NoDup (seen ++ (id <$> posts)) ->
  seen_after seen posts = seen ++ (id <$> posts).
Proof.
  revert seen. induction posts as [|post posts IH]; intros seen Hnd; simpl.
  { by rewrite app_nil_r. }
  simpl in Hnd. rewrite decide_False.
  - rewrite IH; rewrite <-app_assoc; done.
  - apply NoDup_app in Hnd as (_ & Hdisj & _). intros Hin.
    apply (Hdisj _ Hin). by left.
Qed.

(** What a successful [add_feed] leaves. *)
Lemma add_feed_registered E f args w :
  f ∉ feeds (data w) ->
  f ∈ feeds (data (run E (add_feed json_dump (f :: args)) w).2) ->
  data (run E (add_feed json_dump (f :: args)) w).2 =
  added f (posts_of E f) (data w).
Proof.
  intros Hf. rewrite run_add_feed, decide_False by done.
  destruct (env_transport E (sent w) (Reply msg_validating)); [|done].
  cbn zeta. destruct (truthy (posts_of E f)); rewrite run_await; simpl.
  - by rewrite saved_data.
  - by rewrite fetched_data.
Qed.

(** C3, as amended — Add-feed pre-seeds history.  A successful add of a
    feed whose fetch returns N posts leaves for it a seen list that holds
    each of their ids once: its size is the number of distinct ids, and N
    when the N posts have distinct ids.  In the check cycle that follows,
    with the feed unchanged, no new post is of that feed: the cycle sends
    the messages of the new posts of the other feeds only, and leaves the
    seen list of the feed as it is. *)
Theorem add_feed_preseeds E f args w :
  f ∉ feeds (data w) ->
  let w' := (run E (add_feed json_dump (f :: args)) w).2 in
  f ∈ feeds (data w') ->
  (exists l,
      seen_posts (data w') !! f = Some l
      /\ NoDup l
      /\ (forall i, i ∈ l <-> i ∈ id <$> posts_of E f)
      /\ length l = length (remove_dups (id <$> posts_of E f))
      /\ (NoDup (id <$> posts_of E f) -> length l = length (posts_of E f)))
  /\ (forall E',
        posts_of E' f = posts_of E f ->
        let new := cycle_new E' (feeds (data w')) (seen_posts (data w')) in
        let wp := (run E' (check_feeds_periodic json_dump) w').2 in
        (forall x, x ∈ new -> x.1 <> f)
        /\ sent wp =
             sent w' ++ flat_map (fun x => fanout (chat_ids (data w')) x.2) new
        /\ seen_posts (data wp) !! f = seen_posts (data w') !! f
        /\ (reliable E' ->
             let wm := (run E' (check_feeds json_dump) w').2 in
             sent wm =
               sent w' ++ Reply msg_checking ::
                 ((fun x => announce x.2) <$> new) ++
                 [summary_reply (length new)]
             /\ seen_posts (data wm) !! f = seen_posts (data w') !! f)).
Proof.
  intros Hf w' Hreg. subst w'.
  pose proof (add_feed_registered E f args w Hf Hreg) as Hd.
  set (w' := (run E (add_feed json_dump (f :: args)) w).2) in *.
  assert (seen_posts (data w') !! f = Some (seen_after [] (posts_of E f)))
    as Hseen.
  { rewrite Hd. simpl. apply lookup_insert_eq. }
  split.
  - exists (seen_after [] (posts_of E f)). split_and!; [done|..].
    + apply seen_after_NoDup, NoDup_nil_2.
    + intros i. rewrite elem_of_seen_after.
      split; [intros [?%not_elem_of_nil|?]; done|by right].
    + apply seen_after_nil_length.
    + intros Hnd. rewrite seen_after_distinct by done.
      simpl. by rewrite length_fmap.
  - intros E' Hposts new wp.
    assert (forall post, post ∈ posts_of E' f ->
              id post ∈ seen_after [] (posts_of E f)) as Hall.
    { rewrite Hposts. intros post. apply elem_of_seen_after_r. }
    split_and!.
    + intros x. apply cycle_new_seen. unfold seen_of. by rewrite Hseen.
    + subst wp. by destruct (check_feeds_periodic_cycle E' w') as (_ & _ & ->).
    + subst wp. destruct (check_feeds_periodic_cycle E' w') as (_ & -> & _).
      simpl. rewrite Hseen. by apply cycle_seen_lookup_seen.
    + intros HE wm. subst wm.
      destruct (check_feeds_cycle E' w' HE) as (_ & -> & ->).
      split; [done|]. simpl. rewrite Hseen.
      by apply cycle_seen_lookup_seen.
Qed.

(** C7 — Remove-feed atomicity.  Removing a registered feed takes its entry
    out of the feeds list and its seen list out of [seen_posts], and leaves
    the rest as it is; when the feeds are distinct the URL is registered no
    more.  Adding the URL again then leaves for it a seen list built from
    the empty list over the posts fetched at that moment alone: no id of
    the old history is in it unless the feed still has the post. *)
Theorem remove_feed_atomic E f args w :
  f ∈ feeds (data w) ->
  let w1 := (run E (remove_feed json_dump true (f :: args)) w).2 in
  feeds (data w1) = list_remove f (feeds (data w))
  /\ seen_posts (data w1) = delete f (seen_posts (data w))
  /\ chat_ids (data w1) = chat_ids (data w)
  /\ seen_posts (data w1) !! f = None
  /\ (NoDup (feeds (data w)) -> f ∉ feeds (data w1))
  /\ (forall E' args',
        let w2 := (run E' (add_feed json_dump (f :: args')) w1).2 in
        f ∉ feeds (data w1) ->
        f ∈ feeds (data w2) ->
        seen_posts (data w2) !! f = Some (seen_after [] (posts_of E' f))
        /\ (forall i, i ∈ seen_after [] (posts_of E' f) ->
                      i ∈ id <$> posts_of E' f)).
Proof.
  intros Hf w1.
  assert (data w1 = removed f (data w)) as Hd.
  { subst w1. rewrite run_remove_feed, decide_True by done.
    rewrite run_await. simpl. by rewrite saved_data. }
  rewrite Hd. split_and!; try done.
  - simpl. apply lookup_delete_eq.
  - intros Hnd. simpl. rewrite list_remove_elem_of by done. by intros [_ ?].
  - rewrite <-Hd. intros E' args' w2 Hf1 Hreg. subst w2.
    rewrite (add_feed_registered E' f args' w1 Hf1 Hreg). split.
    + simpl. apply lookup_insert_eq.
    + intros i. rewrite elem_of_seen_after.
      intros [?%not_elem_of_nil|?]; done.
Qed.

(** C8 — Add-feed failure atomicity.  When the fetch of the URL yields no
    post (it raised, or the feed is empty), [add_feed] leaves
    [rss_bot.data] and the data file as they were and writes nothing; when
    the URL was not registered and the transport took the first reply, the
    caller is told that the feed could not be fetched. *)
Theorem add_feed_failure_atomic E f args w :
  posts_of E f = [] ->
  let w' := (run E (add_feed json_dump (f :: args)) w).2 in
  data w' = data w /\ disk w' = disk w /\ writes w' = writes w
  /\ (f ∉ feeds (data w) ->
      env_transport E (sent w) (Reply msg_validating) = true ->
      sent w' = sent w ++ [Reply msg_validating; Reply msg_could_not_fetch]).
Proof.
  intros Hposts w'. subst w'. rewrite run_add_feed, Hposts.
  destruct (decide (f ∈ feeds (data w))) as [Hf|Hf].
  { rewrite run_await. simpl. by split_and!. }
  destruct (env_transport E (sent w) (Reply msg_validating)).
  - cbn [truthy]. cbn zeta. rewrite run_await. simpl.
    rewrite fetched_data, fetched_disk, fetched_writes, fetched_sent.
    split_and!; try done. intros _ _. simpl. by rewrite <-app_assoc.
  - simpl. by split_and!.
Qed.

Lemma run_load_data E w :
  run E (load_data json_load) w =
  match disk w with
  | None => (Ok default_data, w)
  | Some t =>
    if env_read_ok E then
      match json_load t with
      | Some d => (Ok d, w)
      | None => (Ok default_data, with_log ErrLoading w)
      end
    else (Ok default_data, with_log ErrLoading w)
  end.
Proof.
  destruct w as [d [t|] s l n]; [|done]. cbn [disk].
  unfold load_data. cbn [bind run file_exists disk].
  unfold file_read, read_file. cbn [bind try_except run disk].
  unfold read_file. cbn [disk].
  destruct (env_read_ok E); [|done].
  unfold json_load_file. cbn [bind]. by destruct (json_load t).
Qed.

Lemma data_boot E file :
  data (boot json_load E file) =
  match file with
  | None => default_data
  | Some t =>
    if env_read_ok E then
      match json_load t with Some d => d | None => default_data end
    else default_data
  end.
Proof.
  unfold boot, init. rewrite run_bind, run_load_data. simpl.
  destruct file as [t|]; [|done].
  destruct (env_read_ok E); [|done]. by destruct (json_load t).
Qed.

(** The process starts from the default data when there is no data file,
    when the file cannot be read and when [json.load] raises. *)
Lemma boot_default E file :
  file = None
  \/ env_read_ok E = false
  \/ (exists t, file = Some t /\ json_load t = None) ->
  data (boot json_load E file) = default_data.
Proof.
  rewrite data_boot. intros [->|[Hread|(t & -> & Hload)]]; [done| |].
  - destruct file; [|done]. by rewrite Hread.
  - rewrite Hload. by destruct (env_read_ok E).
Qed.

(** When [json.load] reads the data back from what [json.dump] wrote for
    it, the write succeeds and the file can be read, [load_data] after
    [save_data] returns the data that was saved, and so does a process
    start on that file. *)
Lemma save_then_load E E' w :
  json_load (json_dump (data w)) = Some (data w) ->
  env_write E (writes w) = Written ->
  env_read_ok E' = true ->
  let w1 := (run E (save_data json_dump) w).2 in
  run E' (load_data json_load) w1 = (Ok (data w), w1)
  /\ data (boot json_load E' (disk w1)) = data w.
Proof.
  intros Hcodec Hwrite Hread w1. subst w1.
  rewrite run_save_data. unfold saved. rewrite Hwrite.
  rewrite data_boot, run_load_data. simpl.
  by rewrite Hread, Hcodec.
Qed.

End Properties.

(** ** The two checks on the event loop *)

Section OverlapProperties.

Context {text : Type}.
Variable json_dump : TrackingState -> text.
Variable E : env text.

Implicit Types (w : world text) (d : TrackingState).
Implicit Types (f g : pystr) (post : Post) (ps posts : list Post).
Implicit Types (fs : list pystr) (seen : list pystr) (n : nat).
Local Open Scope prog_scope.

Lemma advance_bind {A B} (m : prog text A) (k : A -> prog text B) w :
  advance E (bind m k) w =
  match advance E m w with
  | (Finished (Ok a), w') => advance E (k a) w'
  | (Finished (Raised e), w') => (Finished (Raised e), w')
  | (Suspended m', w') => (Suspended (bind m' k), w')
  end.
Proof.
  prog_induction m w.
Qed.

(** A coroutine run alone is the coroutine resumed until it ends. *)
Lemma run_advance {A} (p : prog text A) w :
  run E p w = complete E (advance E p w).1 (advance E p w).2.
Proof.
  prog_induction p w.
Qed.

Lemma advance_get_feed_posts f w :
  advance E (get_feed_posts f) w = (Finished (Ok (posts_of E f)), fetched E f w).
Proof.
  unfold get_feed_posts, posts_of, fetched. simpl.
  by destruct (env_parse E f).
Qed.

Lemma advance_init_seen f w :
  advance E (init_seen f) w =
  (Finished (Ok tt),
   with_data (put_seen f (seen_of (seen_posts (data w)) f) (data w)) w).
Proof.
  unfold init_seen, seen_of, put_seen. simpl.
  destruct (seen_posts (data w) !! f) as [l|] eqn:H; simpl; [|done].
  rewrite insert_id by done. by destruct w as [[] ? ? ? ?].
Qed.

Lemma advance_save_data w :
  advance E (save_data json_dump) w = (Finished (Ok tt), saved json_dump E w).
Proof.
  unfold save_data, saved. simpl. unfold write_file.
  by destruct (env_write E (writes w)).
Qed.

Lemma advance_check_post f n post w :
  advance E (check_post f n post) w =
  match seen_posts (data w) !! f with
  | Some seen =>
    if decide (id post ∈ seen) then (Finished (Ok n), w)
    else
      (Suspended
         ((if env_transport E (sent w) (announce post)
           then Ret tt else Raise TransportError) ;; Ret (S n)),
       with_sent (announce post)
         (with_data (put_seen f (seen ++ [id post]) (data w)) w))
  | None => (Finished (Raised KeyError), w)
  end.
Proof.
  unfold check_post, lookup_seen, append_seen, lookup_seen. simpl.
  destruct (seen_posts (data w) !! f) as [seen|] eqn:Hf; simpl; [|done].
  destruct (decide (id post ∈ seen)); simpl; [done|]. by rewrite Hf.
Qed.

Lemma advance_periodic_post f post w :
  advance E (periodic_post f post) w =
  match seen_posts (data w) !! f with
  | Some seen =>
    if decide (id post ∈ seen) then (Finished (Ok tt), w)
    else advance E (for_each (chat_ids (data w))
                             (send_one (format_message post)))
           (with_data (put_seen f (seen ++ [id post]) (data w)) w)
  | None => (Finished (Raised KeyError), w)
  end.
Proof.
  unfold periodic_post, lookup_seen, append_seen, lookup_seen. simpl.
  destruct (seen_posts (data w) !! f) as [seen|] eqn:Hf; simpl; [|done].
  destruct (decide (id post ∈ seen)); simpl; [done|]. by rewrite Hf.
Qed.

(** *** The manual check, one turn at a time *)

Lemma advance_check_feeds w :
  advance E (check_feeds json_dump) w =
  (if env_transport E (sent w) (Reply msg_checking)
   then Suspended (manual_begin json_dump) else Suspended (Raise TransportError),
   with_sent (Reply msg_checking) w).
Proof.
  unfold check_feeds. simpl.
  by destruct (env_transport E (sent w) (Reply msg_checking)).
Qed.

Lemma advance_manual_begin w :
  advance E (manual_begin json_dump) w =
  advance E (manual_feeds json_dump 0 (feeds (data w))) w.
Proof. reflexivity. Qed.

Lemma advance_manual_feeds_nil n w :
  advance E (manual_feeds json_dump n []) w =
  (if env_transport E (sent w) (summary_reply n)
   then Suspended (Ret tt) else Suspended (Raise TransportError),
   with_sent (summary_reply n) (saved json_dump E w)).
Proof.
  unfold manual_feeds, manual_tail. cbn [for_fold bind].
  rewrite advance_bind, advance_save_data, <-(saved_sent json_dump E w).
  destruct n; simpl;
    by destruct (env_transport E (sent (saved json_dump E w)) _).
Qed.

Lemma advance_manual_feeds_cons n f fs w :
  advance E (manual_feeds json_dump n (f :: fs)) w =
  advance E (manual_posts json_dump n f (posts_of E f) fs)
    (with_data (put_seen f (seen_of (seen_posts (data w)) f) (data w))
       (fetched E f w)).
Proof.
  unfold manual_feeds, manual_posts. cbn [for_fold]. unfold check_feed at 1.
  rewrite !advance_bind, advance_get_feed_posts.
  rewrite !advance_bind, advance_init_seen, fetched_data. done.
Qed.

Lemma advance_manual_posts_nil n f fs w :
  advance E (manual_posts json_dump n f [] fs) w =
  advance E (manual_feeds json_dump n fs) w.
Proof. reflexivity. Qed.

Lemma advance_manual_posts_cons n f post ps fs w :
  advance E (manual_posts json_dump n f (post :: ps) fs) w =
  match seen_posts (data w) !! f with
  | Some seen =>
    if decide (id post ∈ seen)
    then advance E (manual_posts json_dump n f ps fs) w
    else
      (if env_transport E (sent w) (announce post)
       then Suspended (manual_posts json_dump (S n) f ps fs)
       else Suspended (Raise TransportError),
       with_sent (announce post)
         (with_data (put_seen f (seen ++ [id post]) (data w)) w))
  | None => (Finished (Raised KeyError), w)
  end.
Proof.
  unfold manual_posts. cbn [for_fold].
  rewrite !advance_bind, advance_check_post.
  destruct (seen_posts (data w) !! f) as [seen|]; [|done].
  destruct (decide (id post ∈ seen)); [done|].
  by destruct (env_transport E (sent w) (announce post)).
Qed.

(** *** The periodic check, one turn at a time *)

Lemma advance_check_feeds_periodic w :
  advance E (check_feeds_periodic json_dump) w =
  advance E (periodic_feeds json_dump (feeds (data w)))
          (with_log InfoPeriodic w).
Proof. reflexivity. Qed.

Lemma advance_periodic_feeds_nil w :
  advance E (periodic_feeds json_dump []) w =
  (Finished (Ok tt), saved json_dump E w).
Proof. unfold periodic_feeds. cbn [for_each bind]. apply advance_save_data. Qed.

Lemma advance_periodic_feeds_cons f fs w :
  advance E (periodic_feeds json_dump (f :: fs)) w =
  advance E (periodic_posts json_dump f (posts_of E f) fs)
    (with_data (put_seen f (seen_of (seen_posts (data w)) f) (data w))
       (fetched E f w)).
Proof.
  unfold periodic_feeds, periodic_posts. cbn [for_each].
  unfold periodic_feed at 1.
  rewrite !advance_bind, advance_get_feed_posts.
  rewrite !advance_bind, advance_init_seen, fetched_data. done.
Qed.

Lemma advance_periodic_posts_nil f fs w :
  advance E (periodic_posts json_dump f [] fs) w =
  advance E (periodic_feeds json_dump fs) w.
Proof. reflexivity. Qed.

Lemma advance_periodic_posts_cons f post ps fs w :
  advance E (periodic_posts json_dump f (post :: ps) fs) w =
  match seen_posts (data w) !! f with
  | Some seen =>
    if decide (id post ∈ seen)
    then advance E (periodic_posts json_dump f ps fs) w
    else advance E (periodic_chats json_dump (Ret tt) (format_message post)
                                   (chat_ids (data w)) f ps fs)
           (with_data (put_seen f (seen ++ [id post]) (data w)) w)
  | None => (Finished (Raised KeyError), w)
  end.
Proof.
  unfold periodic_posts, periodic_chats. cbn [for_each bind].
  rewrite !advance_bind, advance_periodic_post.
  destruct (seen_posts (data w) !! f) as [seen|]; [|done].
  destruct (decide (id post ∈ seen)); [done|].
  by rewrite !advance_bind.
Qed.

Lemma advance_periodic_chats_after ok c message cs f ps fs w :
  advance E (periodic_chats json_dump (after_send ok c) message cs f ps fs) w =
  advance E (periodic_chats json_dump (Ret tt) message cs f ps fs)
          (if ok then w else with_log (ErrSending c) w).
Proof. by destruct ok. Qed.

Lemma advance_periodic_chats_nil message f ps fs w :
  advance E (periodic_chats json_dump (Ret tt) message [] f ps fs) w =
  advance E (periodic_posts json_dump f ps fs) w.
Proof. reflexivity. Qed.

Lemma advance_periodic_chats_cons message c cs f ps fs w :
  advance E (periodic_chats json_dump (Ret tt) message (c :: cs) f ps fs) w =
  (Suspended
     (periodic_chats json_dump
        (after_send (env_transport E (sent w) (Send c message)) c)
        message cs f ps fs),
   with_sent (Send c message) w).
Proof.
  unfold periodic_chats. cbn [for_each bind send_one try_except await advance].
  by destruct (env_transport E (sent w) (Send c message)).
Qed.

(** *** Histories and transport calls *)

Implicit Types (hist : list (bool * (pystr * Post))).
Implicit Types (new : list (pystr * Post)).

Lemma ids_of_app g (l1 l2 : list (pystr * Post)) :
  ids_of g (l1 ++ l2) = ids_of g l1 ++ ids_of g l2.
Proof. unfold ids_of. by rewrite filter_app, fmap_app. Qed.

Lemma ids_of_singleton g f post :
  ids_of g [(f, post)] = if decide (f = g) then [id post] else [].
Proof.
  unfold ids_of. destruct (decide (f = g)) as [->|Hne].
  - by rewrite filter_cons_True.
  - by rewrite filter_cons_False.
Qed.

Lemma found_by_app who hist1 hist2 :
  found_by who (hist1 ++ hist2) = found_by who hist1 ++ found_by who hist2.
Proof. unfold found_by. by rewrite filter_app, fmap_app. Qed.

Lemma found_by_same who new : found_by who (pair who <$> new) = new.
Proof.
  unfold found_by. induction new as [|x new IH]; [done|].
  rewrite fmap_cons, filter_cons_True by done. rewrite fmap_cons. by f_equal.
Qed.

Lemma found_by_other who new : found_by who (pair (negb who) <$> new) = [].
Proof.
  unfold found_by. induction new as [|x new IH]; [done|].
  rewrite fmap_cons, filter_cons_False; [done|]. simpl. by destruct who.
Qed.

Lemma snd_tagged (who : bool) new : snd <$> (pair who <$> new) = new.
Proof.
  induction new as [|x new IH]; [done|]. rewrite !fmap_cons. by f_equal.
Qed.

Lemma replies_of_reply l t :
  replies_of (l ++ [Reply t]) = replies_of l ++ [Reply t].
Proof. unfold replies_of. by rewrite filter_app, filter_cons_True. Qed.

Lemma replies_of_send l c t : replies_of (l ++ [Send c t]) = replies_of l.
Proof.
  unfold replies_of. rewrite filter_app, filter_cons_False by done.
  apply app_nil_r.
Qed.

Lemma sends_of_reply l t : sends_of (l ++ [Reply t]) = sends_of l.
Proof.
  unfold sends_of. rewrite filter_app, filter_cons_False by done.
  apply app_nil_r.
Qed.

Lemma sends_of_send l c t :
  sends_of (l ++ [Send c t]) = sends_of l ++ [Send c t].
Proof. unfold sends_of. by rewrite filter_app, filter_cons_True. Qed.

Lemma summary_reply_is_reply n : exists t, summary_reply n = Reply t.
Proof. destruct n; simpl; eauto. Qed.

(** *** The shared data under the steps of a turn *)

Variable w0 : world text.

Lemma seen_of_put_seen_same f g d :
  seen_of (seen_posts (put_seen f (seen_of (seen_posts d) f) d)) g =
  seen_of (seen_posts d) g.
Proof.
  simpl. destruct (decide (f = g)) as [->|Hne].
  - by rewrite seen_of_insert.
  - by rewrite seen_of_insert_ne.
Qed.

Lemma shared_data w w' hist :
  data w' = data w -> shared E w0 w hist -> shared E w0 w' hist.
Proof. unfold shared. by intros ->. Qed.

Lemma shared_init_seen f w hist :
  shared E w0 w hist ->
  shared E w0
    (with_data (put_seen f (seen_of (seen_posts (data w)) f) (data w))
       (fetched E f w)) hist.
Proof.
  intros (Hfs & Hcs & Hseen & Hnd & Hin). unfold shared. simpl.
  split_and!; try done.
  - intros g. rewrite <-Hseen. apply (seen_of_put_seen_same f g (data w)).
  - intros g. specialize (Hnd g).
    by rewrite <-(seen_of_put_seen_same f g (data w)) in Hnd.
Qed.

Lemma shared_append (who : bool) f post seen w w' hist :
  shared E w0 w hist ->
  seen_posts (data w) !! f = Some seen ->
  id post ∉ seen ->
  f ∈ feeds (data w0) ->
  post ∈ posts_of E f ->
  data w' = put_seen f (seen ++ [id post]) (data w) ->
  shared E w0 w' (hist ++ (pair who <$> [(f, post)])).
Proof.
  intros (Hfs & Hcs & Hseen & Hnd & Hin) Hf Hnew Hf0 Hpost Hd.
  assert (seen_of (seen_posts (data w)) f = seen) as Hsf.
  { unfold seen_of. by rewrite Hf. }
  unfold shared. rewrite Hd. simpl. split_and!; try done.
  - intros g. rewrite fmap_app, ids_of_app, app_assoc, <-Hseen.
    simpl. rewrite ids_of_singleton.
    destruct (decide (f = g)) as [->|Hne].
    + by rewrite seen_of_insert, Hsf.
    + by rewrite seen_of_insert_ne, app_nil_r.
  - intros g. destruct (decide (f = g)) as [->|Hne].
    + rewrite seen_of_insert. apply NoDup_snoc; [|done].
      rewrite <-Hsf. apply Hnd.
    + rewrite seen_of_insert_ne by done. apply Hnd.
  - intros x [Hx|Hx]%elem_of_app; [by apply Hin|].
    apply list_elem_of_singleton in Hx as ->. done.
Qed.

(** *** A turn of the manual check *)

Lemma within_tail w f post ps fs :
  within E w0 w (Some (f, post :: ps)) fs -> within E w0 w (Some (f, ps)) fs.
Proof.
  intros (Hfs & Hf & Hps & Hsome). split_and!; try done.
  intros p Hp. apply Hps. by right.
Qed.

Lemma within_none w cur fs : within E w0 w cur fs -> within E w0 w None fs.
Proof. by intros (Hfs & _). Qed.

Lemma within_entries w w' cur fs :
  entries_stay w w' -> within E w0 w cur fs -> within E w0 w' cur fs.
Proof.
  intros Hstay (Hfs & Hcur). split; [done|].
  destruct cur as [[f ps]|]; [|done].
  destruct Hcur as (? & ? & ?). split_and!; try done. by apply Hstay.
Qed.

Lemma within_feed w f fs :
  within E w0 w None (f :: fs) ->
  within E w0
    (with_data (put_seen f (seen_of (seen_posts (data w)) f) (data w))
       (fetched E f w))
    (Some (f, posts_of E f)) fs.
Proof.
  intros (Hfs & _). split_and!; try done.
  - intros g Hg. apply Hfs. by right.
  - apply Hfs. by left.
  - simpl. by rewrite lookup_insert_eq.
Qed.

Lemma entries_stay_put_seen f (l : list pystr) w w' :
  data w' = put_seen f l (data w) -> entries_stay w w'.
Proof.
  intros Hd g Hg. rewrite Hd. simpl. destruct (decide (f = g)) as [->|Hne].
  - by rewrite lookup_insert_eq.
  - by rewrite lookup_insert_ne.
Qed.

Lemma entries_stay_trans w w1 w2 :
  entries_stay w w1 -> entries_stay w1 w2 -> entries_stay w w2.
Proof. intros H1 H2 g Hg. by apply H2, H1. Qed.

Lemma settled_init_seen f w :
  f ∈ feeds (data w0) ->
  settled E w0 w ->
  put_seen f (seen_of (seen_posts (data w)) f) (data w) = data w.
Proof.
  intros Hf Hset. destruct (Hset f Hf) as [[]|[[l Hl] _]].
  apply put_seen_same. unfold seen_of. by rewrite Hl.
Qed.

(** A turn seen from an earlier world of the same turn. *)
Lemma manual_turn_from w w1 hist r :
  sends_of (sent w1) = sends_of (sent w) ->
  entries_stay w w1 ->
  (settled E w0 w ->
   settled E w0 w1 /\ data w1 = data w /\
   (persisted json_dump E w -> persisted json_dump E w1)) ->
  manual_turn json_dump E w0 w1 hist r ->
  manual_turn json_dump E w0 w hist r.
Proof.
  intros Hs Hstay Hset (pos' & new & Hr & Hsh & Hinv & Hs' & Hstay' & Hset').
  exists pos', new. split_and!; try done.
  - by rewrite Hs'.
  - by eapply entries_stay_trans.
  - intros Hw. destruct (Hset Hw) as (Hw1 & Hd1 & Hp1).
    destruct (Hset' Hw1) as (Hd' & Hp'). split; [congruence|].
    intros Hp. by apply Hp', Hp1.
Qed.

Lemma manual_turn_posts ps n f fs w hist :
  (forall n w hist,
     shared E w0 w hist ->
     manual_inv E w0 (MFeeds n fs) (found_by true hist) w ->
     manual_turn json_dump E w0 w hist
       (advance E (manual_feeds json_dump n fs) w)) ->
  shared E w0 w hist ->
  manual_inv E w0 (MPosts n f ps fs) (found_by true hist) w ->
  manual_turn json_dump E w0 w hist
    (advance E (manual_posts json_dump n f ps fs) w).
Proof.
  intros IHfs. induction ps as [|post ps IH]; intros Hsh (Hn & Hrep & Hin).
  { rewrite advance_manual_posts_nil. apply IHfs; [done|].
    split_and!; try done. by eapply within_none. }
  rewrite advance_manual_posts_cons.
  pose proof Hin as (Hfs & Hf & Hps & [seen Hseen]). rewrite Hseen.
  destruct (decide (id post ∈ seen)) as [Hold|Hnew].
  { apply IH; [done|]. split_and!; try done. by eapply within_tail. }
  set (w' := with_sent (announce post)
               (with_data (put_seen f (seen ++ [id post]) (data w)) w)).
  assert (shared E w0 w' (hist ++ (pair true <$> [(f, post)]))) as Hsh'.
  { eapply shared_append; try done. apply Hps. by left. }
  assert (entries_stay w w') as Hstay.
  { by eapply entries_stay_put_seen. }
  assert (replies_of (sent w') =
          replies_of (sent w0) ++ Reply msg_checking ::
            (announce_of <$> (found_by true hist ++ [(f, post)]))) as Hrep'.
  { subst w'. simpl. unfold announce. rewrite replies_of_reply, Hrep.
    rewrite fmap_app. simpl. by rewrite <-app_assoc. }
  assert (settled E w0 w -> False) as Hset.
  { intros Hw. destruct (Hw f Hf) as [[]|[_ Hall]].
    destruct (Hall post) as [Hp|[]]; [apply Hps; by left|].
    unfold seen_of in Hp. by rewrite Hseen in Hp. }
  destruct (env_transport E (sent w) (announce post)) eqn:Hcall.
  - exists (MPosts (S n) f ps fs), [(f, post)]. split_and!; try done.
    + split_and!; [|done|].
      * rewrite length_app. simpl. lia.
      * eapply within_entries; [done|]. by eapply within_tail.
    + subst w'. simpl. unfold announce. by rewrite sends_of_reply.
  - exists MFailed, [(f, post)]. split_and!; try done.
    + split; [by left|]. by exists (sent w), (announce post).
    + subst w'. simpl. unfold announce. by rewrite sends_of_reply.
Qed.

Lemma manual_turn_feeds fs n w hist :
  shared E w0 w hist ->
  manual_inv E w0 (MFeeds n fs) (found_by true hist) w ->
  manual_turn json_dump E w0 w hist
    (advance E (manual_feeds json_dump n fs) w).
Proof.
  revert n w hist. induction fs as [|f fs IH]; intros n w hist Hsh Hinv.
  - destruct Hinv as (Hn & Hrep & Hin). rewrite advance_manual_feeds_nil.
    set (w' := with_sent (summary_reply n) (saved json_dump E w)).
    destruct (summary_reply_is_reply n) as [t Ht].
    assert (data w' = data w) as Hd.
    { subst w'. simpl. apply saved_data. }
    assert (replies_of (sent w') =
            (replies_of (sent w0) ++ Reply msg_checking ::
               (announce_of <$> found_by true hist)) ++
            [summary_reply (length (found_by true hist))]) as Hrep'.
    { subst w'. simpl. rewrite saved_sent, <-Hn, Ht, replies_of_reply.
      by rewrite Hrep. }
    assert (forall pos',
              manual_inv E w0 pos' (found_by true hist) w' ->
              manual_turn json_dump E w0 w hist
                (manual_task json_dump pos', w')) as Hturn.
    { intros pos' Hinv'. exists pos', []. cbn [fst snd fmap list_fmap].
      rewrite !app_nil_r. split_and!; try done.
      - by eapply shared_data.
      - subst w'. simpl. by rewrite saved_sent, Ht, sends_of_reply.
      - intros g. by rewrite Hd.
      - intros _. split; [done|]. intros _ Hw. subst w'. simpl.
        unfold saved. by rewrite Hw. }
    destruct (env_transport E (sent w) (summary_reply n)) eqn:Hcall.
    + by apply (Hturn MLast).
    + apply (Hturn MFailed). split; [by right|].
      by exists (sent w), (summary_reply n).
  - destruct Hinv as (Hn & Hrep & Hin). rewrite advance_manual_feeds_cons.
    set (w1 := with_data _ (fetched E f w)).
    apply (manual_turn_from w w1).
    + subst w1. simpl. by rewrite fetched_sent.
    + by eapply entries_stay_put_seen.
    + intros Hw.
      assert (data w1 = data w) as Hd.
      { subst w1. simpl. apply settled_init_seen; [|done].
        destruct Hin as (Hfs & _). apply Hfs. by left. }
      split_and!; [|done|].
      * unfold settled, covered. by rewrite Hd.
      * unfold persisted. rewrite Hd. subst w1. simpl.
        by rewrite fetched_disk.
    + apply manual_turn_posts; [apply IH|by apply shared_init_seen|].
      split_and!; [done| |by apply within_feed].
      subst w1. simpl. by rewrite fetched_sent.
Qed.

(** A turn that leaves the data and the file as they are. *)
Lemma manual_turn_quiet pos' w w' hist :
  shared E w0 w hist ->
  manual_inv E w0 pos' (found_by true hist) w' ->
  data w' = data w -> disk w' = disk w ->
  sends_of (sent w') = sends_of (sent w) ->
  manual_turn json_dump E w0 w hist (manual_task json_dump pos', w').
Proof.
  intros Hsh Hinv Hd Hdisk Hs. exists pos', []. cbn [fst snd fmap list_fmap].
  rewrite !app_nil_r. split_and!; try done.
  - by eapply shared_data.
  - intros g. by rewrite Hd.
  - intros _. split; [done|]. unfold persisted. by rewrite Hd, Hdisk.
Qed.

Lemma manual_turn_resume pos w hist :
  shared E w0 w hist ->
  manual_inv E w0 pos (found_by true hist) w ->
  manual_turn json_dump E w0 w hist (resume E (manual_task json_dump pos) w).
Proof.
  intros Hsh Hinv. destruct pos as [| |n fs|n f ps fs| | |r]; cbn [manual_task resume].
  - destruct Hinv as [Hla Hrep]. rewrite advance_check_feeds.
    assert (replies_of (sent (with_sent (Reply msg_checking) w)) =
            replies_of (sent w0) ++ [Reply msg_checking]) as Hrep'.
    { simpl. by rewrite replies_of_reply, Hrep. }
    destruct (env_transport E (sent w) (Reply msg_checking)) eqn:Hcall.
    + apply (manual_turn_quiet MBegin); try done.
      simpl. by rewrite sends_of_reply.
    + apply (manual_turn_quiet MFailed); try done.
      * split; [|by exists (sent w), (Reply msg_checking)].
        left. by rewrite Hla.
      * simpl. by rewrite sends_of_reply.
  - destruct Hinv as [Hla Hrep]. rewrite advance_manual_begin.
    apply manual_turn_feeds; [done|]. rewrite Hla. split_and!; try done.
    split; [|done]. intros g Hg. destruct Hsh as (Hfs & _). by rewrite <-Hfs.
  - by apply manual_turn_feeds.
  - apply manual_turn_posts; [|done..]. intros. by apply manual_turn_feeds.
  - by apply (manual_turn_quiet (MDone (Ok tt))).
  - by apply (manual_turn_quiet (MDone (Raised TransportError))).
  - by apply (manual_turn_quiet (MDone r)).
Qed.

(** *** A turn of the periodic check *)

Lemma covered_data pos w w' :
  data w' = data w -> covered E w0 pos w -> covered E w0 pos w'.
Proof. unfold covered. by intros ->. Qed.

Lemma covered_grow pos w w' :
  entries_stay w w' ->
  (forall g i, i ∈ seen_of (seen_posts (data w)) g ->
               i ∈ seen_of (seen_posts (data w')) g) ->
  covered E w0 pos w -> covered E w0 pos w'.
Proof.
  intros Hstay Hgrow Hcov g Hg. destruct (Hcov g Hg) as [?|[Hsome Hall]];
    [by left|right].
  split; [by apply Hstay|]. intros post Hpost.
  destruct (Hall post Hpost) as [?|?]; [left; by apply Hgrow|by right].
Qed.

Lemma covered_weaken pos pos' w :
  (forall g, feed_to_do pos g -> feed_to_do pos' g) ->
  (forall g post, post_to_do pos g post ->
     post_to_do pos' g post \/ id post ∈ seen_of (seen_posts (data w)) g) ->
  covered E w0 pos w -> covered E w0 pos' w.
Proof.
  intros Hfeed Hpost Hcov g Hg. destruct (Hcov g Hg) as [?|[Hsome Hall]];
    [left; by apply Hfeed|right].
  split; [done|]. intros post Hp.
  destruct (Hall post Hp) as [?|Htodo]; [by left|].
  destruct (Hpost g post Htodo); [by right|by left].
Qed.

Lemma periodic_turn_from w w1 hist new1 r :
  replies_of (sent w1) = replies_of (sent w) ->
  entries_stay w w1 ->
  periodic_turn json_dump E w0 w1 (hist ++ (pair false <$> new1)) r ->
  periodic_turn json_dump E w0 w hist r.
Proof.
  intros Hrep Hstay (pos' & new & Hr & Hsh & Hinv & Hrep' & Hstay').
  exists pos', (new1 ++ new). split_and!; try done.
  - by rewrite fmap_app, app_assoc.
  - rewrite found_by_app, (found_by_same false), <-app_assoc in Hinv. done.
  - by rewrite Hrep'.
  - by eapply entries_stay_trans.
Qed.

Lemma periodic_turn_here pos' w hist :
  shared E w0 w hist ->
  periodic_inv json_dump E w0 pos' (found_by false hist) w ->
  periodic_turn json_dump E w0 w hist (periodic_task json_dump pos', w).
Proof.
  intros Hsh Hinv. exists pos', []. cbn [fst snd fmap list_fmap].
  rewrite !app_nil_r. split_and!; try done. by intros g.
Qed.

Lemma periodic_turn_chats c post cs f ps fs w hist :
  (forall w hist,
     shared E w0 w hist ->
     periodic_inv json_dump E w0 (PPosts f ps fs) (found_by false hist) w ->
     periodic_turn json_dump E w0 w hist
       (advance E (periodic_posts json_dump f ps fs) w)) ->
  shared E w0 w hist ->
  periodic_inv json_dump E w0 (PChats true c post cs f ps fs)
               (found_by false hist) w ->
  periodic_turn json_dump E w0 w hist
    (advance E (periodic_chats json_dump (Ret tt) (format_message post)
                               cs f ps fs) w).
Proof.
  intros IHps Hsh (Hcov & Hsends & Hin). destruct cs as [|c' cs].
  - rewrite advance_periodic_chats_nil. apply IHps; [done|].
    split_and!; try done. simpl in Hsends. by rewrite app_nil_r in Hsends.
  - rewrite advance_periodic_chats_cons.
    set (w' := with_sent (Send c' (format_message post)) w).
    apply (periodic_turn_from w w' hist []).
    + subst w'. simpl. by rewrite replies_of_send.
    + by intros g.
    + cbn [fmap list_fmap]. rewrite app_nil_r.
      apply (periodic_turn_here (PChats _ c' post cs f ps fs)).
      * by eapply shared_data.
      * split_and!; try done. subst w'. simpl.
        rewrite sends_of_send, <-app_assoc. exact Hsends.
Qed.

Lemma periodic_turn_posts ps f fs w hist :
  (forall w hist,
     shared E w0 w hist ->
     periodic_inv json_dump E w0 (PFeeds fs) (found_by false hist) w ->
     periodic_turn json_dump E w0 w hist
       (advance E (periodic_feeds json_dump fs) w)) ->
  shared E w0 w hist ->
  periodic_inv json_dump E w0 (PPosts f ps fs) (found_by false hist) w ->
  periodic_turn json_dump E w0 w hist
    (advance E (periodic_posts json_dump f ps fs) w).
Proof.
  intros IHfs. revert w hist.
  induction ps as [|post ps IH]; intros w hist Hsh (Hcov & Hsends & Hin).
  { rewrite advance_periodic_posts_nil. apply IHfs; [done|].
    split_and!; [|done|by eapply within_none].
    eapply covered_weaken; [| |exact Hcov]; [done|].
    by intros g p [_ ?%not_elem_of_nil]. }
  rewrite advance_periodic_posts_cons.
  pose proof Hin as (Hfs & Hf & Hps & [seen Hseen]). rewrite Hseen.
  assert (seen_of (seen_posts (data w)) f = seen) as Hsf.
  { unfold seen_of. by rewrite Hseen. }
  destruct (decide (id post ∈ seen)) as [Hold|Hnew].
  { apply IH; [done|]. split_and!; [|done|by eapply within_tail].
    eapply covered_weaken; [| |exact Hcov]; [done|].
    intros g p [-> [->|Hp]%elem_of_cons]; [right; by rewrite Hsf|by left]. }
  set (w1 := with_data (put_seen f (seen ++ [id post]) (data w)) w).
  assert (shared E w0 w1 (hist ++ (pair false <$> [(f, post)]))) as Hsh1.
  { eapply shared_append; try done. apply Hps. by left. }
  assert (entries_stay w w1) as Hstay.
  { by eapply entries_stay_put_seen. }
  apply (periodic_turn_from w w1 hist [(f, post)]); [done..|].
  pose proof Hsh as (_ & Hchats & _). rewrite Hchats.
  apply (periodic_turn_chats 0%Z); [exact IH|done|].
  rewrite found_by_app, (found_by_same false). split_and!.
  - eapply covered_weaken;
      [| |eapply (covered_grow _ w); [exact Hstay| |exact Hcov]]; [done| |].
    + intros g p [-> [->|Hp]%elem_of_cons]; [right|by left].
      subst w1. simpl. rewrite seen_of_insert. apply elem_of_app.
      right. by left.
    + intros g i Hi. subst w1. simpl. destruct (decide (f = g)) as [->|Hne].
      * rewrite seen_of_insert, <-Hsf. apply elem_of_app. by left.
      * by rewrite seen_of_insert_ne.
  - subst w1. simpl. rewrite Hsends, flat_map_app. simpl.
    by rewrite app_nil_r, app_assoc.
  - eapply within_entries; [done|]. by eapply within_tail.
Qed.

Lemma periodic_turn_feeds fs w hist :
  shared E w0 w hist ->
  periodic_inv json_dump E w0 (PFeeds fs) (found_by false hist) w ->
  periodic_turn json_dump E w0 w hist
    (advance E (periodic_feeds json_dump fs) w).
Proof.
  revert w hist.
  induction fs as [|f fs IH]; intros w hist Hsh (Hcov & Hsends & Hin).
  - rewrite advance_periodic_feeds_nil.
    apply (periodic_turn_from w (saved json_dump E w) hist []).
    + by rewrite saved_sent.
    + intros g. by rewrite saved_data.
    + cbn [fmap list_fmap]. rewrite app_nil_r.
      apply (periodic_turn_here (PDone (Ok tt))).
      * eapply shared_data; [|done]. apply saved_data.
      * split_and!; try done.
        -- eapply covered_data; [apply saved_data|].
           eapply covered_weaken; [| |exact Hcov]; [|done].
           by intros g ?%not_elem_of_nil.
        -- by rewrite saved_sent.
        -- intros Hw. unfold saved. by rewrite Hw.
  - rewrite advance_periodic_feeds_cons.
    set (w1 := with_data _ (fetched E f w)).
    assert (entries_stay w w1) as Hstay.
    { by eapply entries_stay_put_seen. }
    apply (periodic_turn_from w w1 hist []).
    + subst w1. simpl. by rewrite fetched_sent.
    + done.
    + cbn [fmap list_fmap]. rewrite app_nil_r.
      apply periodic_turn_posts; [exact IH|by apply shared_init_seen|].
      split_and!.
      * intros g Hg. destruct (Hcov g Hg) as [Htodo|[Hsome Hall]].
        -- apply elem_of_cons in Htodo as [->|Htodo]; [right|by left].
           split; [subst w1; simpl; by rewrite lookup_insert_eq|].
           intros post Hpost. by right.
        -- right. split; [by apply Hstay|]. intros post Hpost.
           destruct (Hall post Hpost) as [Hp|[]]. left. subst w1.
           cbn [data with_data].
           by rewrite (seen_of_put_seen_same f g (data w)).
      * subst w1. simpl. by rewrite fetched_sent.
      * by apply within_feed.
Qed.

Lemma periodic_turn_resume pos w hist :
  shared E w0 w hist ->
  periodic_inv json_dump E w0 pos (found_by false hist) w ->
  periodic_turn json_dump E w0 w hist
    (resume E (periodic_task json_dump pos) w).
Proof.
  intros Hsh Hinv.
  destruct pos as [|fs|f ps fs|ok c post cs f ps fs|r];
    cbn [periodic_task resume].
  - destruct Hinv as (Hcov & Hlb & Hsends).
    rewrite advance_check_feeds_periodic.
    apply (periodic_turn_from w (with_log InfoPeriodic w) hist []);
      [done|by intros g|].
    cbn [fmap list_fmap]. rewrite app_nil_r.
    apply periodic_turn_feeds; [done|]. rewrite Hlb.
    unfold periodic_inv. cbn [flat_map]. rewrite app_nil_r.
    split_and!; try done.
    + intros g Hg. left. simpl. by destruct Hsh as (-> & _).
    + split; [|done]. intros g Hg. by destruct Hsh as (<- & _).
  - by apply periodic_turn_feeds.
  - apply periodic_turn_posts; [|done..]. intros. by apply periodic_turn_feeds.
  - rewrite advance_periodic_chats_after.
    set (w1 := if ok then w else with_log (ErrSending c) w).
    assert (data w1 = data w /\ sent w1 = sent w) as [Hd Hs].
    { subst w1. by destruct ok. }
    apply (periodic_turn_from w w1 hist []).
    + by rewrite Hs.
    + intros g. by rewrite Hd.
    + cbn [fmap list_fmap]. rewrite app_nil_r.
      apply (periodic_turn_chats c).
      * intros. apply periodic_turn_posts; [|done..].
        intros. by apply periodic_turn_feeds.
      * by eapply shared_data.
      * destruct Hinv as (Hcov & Hsends & Hin). split_and!.
        -- by eapply covered_data.
        -- by rewrite Hs.
        -- eapply within_entries; [|done]. intros g. by rewrite Hd.
  - by apply (periodic_turn_here (PDone r)).
Qed.

(** *** Each handler keeps what the other relies on *)

Lemma manual_inv_stable pos la w w' :
  replies_of (sent w') = replies_of (sent w) ->
  entries_stay w w' ->
  manual_inv E w0 pos la w -> manual_inv E w0 pos la w'.
Proof.
  intros Hrep Hstay. unfold manual_inv. rewrite Hrep.
  destruct pos as [| |n fs|n f ps fs| | |[]]; try done.
  intros (? & ? & ?). split_and!; try done. by eapply within_entries.
Qed.

Lemma shared_grow w w' hist hist' g i :
  shared E w0 w hist -> shared E w0 w' (hist ++ hist') ->
  i ∈ seen_of (seen_posts (data w)) g ->
  i ∈ seen_of (seen_posts (data w')) g.
Proof.
  intros (_ & _ & Hseen & _) (_ & _ & Hseen' & _).
  rewrite Hseen, Hseen', fmap_app, ids_of_app, !elem_of_app. tauto.
Qed.

Lemma periodic_inv_stable pos lb w w' :
  sends_of (sent w') = sends_of (sent w) ->
  entries_stay w w' ->
  (forall g i, i ∈ seen_of (seen_posts (data w)) g ->
               i ∈ seen_of (seen_posts (data w')) g) ->
  (settled E w0 w ->
   data w' = data w /\ (persisted json_dump E w -> persisted json_dump E w')) ->
  periodic_inv json_dump E w0 pos lb w ->
  periodic_inv json_dump E w0 pos lb w'.
Proof.
  intros Hs Hstay Hgrow Hset [Hcov Hinv]. split; [by eapply covered_grow|].
  rewrite Hs. destruct pos as [|fs|f ps fs|ok c post cs f ps fs|r]; try done.
  - destruct Hinv. split; [done|]. by eapply within_entries.
  - destruct Hinv. split; [done|]. by eapply within_entries.
  - destruct Hinv as (? & ? & Hp). split_and!; try done.
    destruct (Hset Hcov) as [_ Hp']. by apply Hp'.
Qed.

(** *** The invariant on the event loop *)

Lemma overlap_inv_manual a b w :
  overlap_inv json_dump E w0 a b w ->
  overlap_inv json_dump E w0 (resume E a w).1 b (resume E a w).2.
Proof.
  intros (pa & pb & hist & -> & -> & Hsh & Ha & Hb).
  destruct (manual_turn_resume pa w hist Hsh Ha)
    as (pa' & new & Hr & Hsh' & Ha' & Hs & Hstay & Hset).
  exists pa', pb, (hist ++ (pair true <$> new)). split_and!; try done.
  - by rewrite found_by_app, found_by_same.
  - rewrite found_by_app, (found_by_other false), app_nil_r.
    eapply periodic_inv_stable; try done.
    intros g i. by eapply shared_grow.
Qed.

Lemma overlap_inv_periodic a b w :
  overlap_inv json_dump E w0 a b w ->
  overlap_inv json_dump E w0 a (resume E b w).1 (resume E b w).2.
Proof.
  intros (pa & pb & hist & -> & -> & Hsh & Ha & Hb).
  destruct (periodic_turn_resume pb w hist Hsh Hb)
    as (pb' & new & Hr & Hsh' & Hb' & Hrep & Hstay).
  exists pa, pb', (hist ++ (pair false <$> new)). split_and!; try done.
  - rewrite found_by_app, (found_by_other true), app_nil_r.
    by eapply manual_inv_stable.
  - by rewrite found_by_app, found_by_same.
Qed.

Lemma overlap_inv_interleave sched a b w :
  overlap_inv json_dump E w0 a b w ->
  overlap_inv json_dump E w0 (interleave E sched a b w).1.1
              (interleave E sched a b w).1.2 (interleave E sched a b w).2.
Proof.
  revert a b w. induction sched as [|[] sched IH]; intros a b w Hinv;
    cbn [interleave]; [done| |].
  - pose proof (overlap_inv_manual a b w Hinv) as Hinv'.
    destruct (resume E a w) as [a' w']. by apply IH.
  - pose proof (overlap_inv_periodic a b w Hinv) as Hinv'.
    destruct (resume E b w) as [b' w']. by apply IH.
Qed.

(** What the turns of a coroutine keep holds when it has run to its end. *)
Lemma complete_keeps {A} (P : status text A -> world text -> Prop) :
  (forall t w, P t w -> P (resume E t w).1 (resume E t w).2) ->
  forall t w, P t w -> P (Finished (complete E t w).1) (complete E t w).2.
Proof.
  intros Hstep.
  assert (forall (p : prog text A) w,
            P (advance E p w).1 (advance E p w).2 ->
            P (Finished (run E p w).1) (run E p w).2) as Hrun.
  { induction p as [a|e|k' IH|d' k' IH|u k' IH|o k' IH|k' IH|k' IH|t k' IH|m' k' IH];
      intros w; simpl; auto.
    - intros HP. apply IH. apply (Hstep (Suspended _) _ HP).
    - destruct (write_file E t w) as [ok w']. apply IH. }
  intros [r|p] w HP; [done|]. simpl. apply Hrun.
  apply (Hstep (Suspended p) w HP).
Qed.

(** *** What the invariant says when both have ended *)

Lemma elem_of_ids_of g i (l : list (pystr * Post)) :
  i ∈ ids_of g l <-> exists y, y ∈ l /\ y.1 = g /\ id y.2 = i.
Proof.
  unfold ids_of. rewrite list_elem_of_fmap. split.
  - intros (y & -> & Hy). apply list_elem_of_filter in Hy as [Hg Hy]. eauto.
  - intros (y & Hy & Hg & <-). exists y. split; [done|].
    by apply list_elem_of_filter.
Qed.

Lemma ids_of_cons g (x : pystr * Post) (l : list (pystr * Post)) :
  ids_of g (x :: l) = ids_of g [x] ++ ids_of g l.
Proof. apply (ids_of_app g [x] l). Qed.

Lemma NoDup_keys (l : list (pystr * Post)) :
  (forall g, NoDup (ids_of g l)) ->
  NoDup ((fun x => (x.1, id x.2)) <$> l).
Proof.
  induction l as [|[f post] l IH]; intros Hnd; [by apply NoDup_nil_2|].
  rewrite fmap_cons. apply NoDup_cons. split.
  - intros (y & Hkey & Hy)%list_elem_of_fmap. simpl in Hkey.
    injection Hkey as Hf Hid.
    specialize (Hnd f). rewrite ids_of_cons, ids_of_singleton in Hnd.
    rewrite decide_True in Hnd by done. simpl in Hnd.
    apply NoDup_cons in Hnd as [Hnotin _]. apply Hnotin.
    apply elem_of_ids_of. eauto.
  - apply IH. intros g. specialize (Hnd g).
    rewrite ids_of_cons in Hnd. by apply NoDup_app in Hnd as (_ & _ & ?).
Qed.

Lemma overlap_inv_start :
  seen_nodup (data w0) ->
  overlap_inv json_dump E w0 (Suspended (check_feeds json_dump))
              (Suspended (check_feeds_periodic json_dump)) w0.
Proof.
  intros Hnd. exists MStart, PStart, []. split_and!; try done.
  - split_and!; try done.
    + intros g. by rewrite app_nil_r.
    + intros g. unfold seen_of.
      destruct (seen_posts (data w0) !! g) as [l|] eqn:Hg;
        [by eapply Hnd|apply NoDup_nil_2].
    + by intros x ?%not_elem_of_nil.
  - split; [|done]. intros g Hg. by left.
Qed.

Lemma overlap_inv_overlap sched :
  seen_nodup (data w0) ->
  let r := overlap E sched (check_feeds json_dump)
                   (check_feeds_periodic json_dump) w0 in
  overlap_inv json_dump E w0 (Finished r.1.1) (Finished r.1.2) r.2.
Proof.
  intros Hnd r. subst r. unfold overlap.
  pose proof (overlap_inv_interleave sched _ _ _ (overlap_inv_start Hnd))
    as Hinv.
  destruct (interleave E sched _ _ w0) as [[a b] w1]. simpl in Hinv.
  pose proof (complete_keeps (fun t w => overlap_inv json_dump E w0 t b w)
                (fun t w => overlap_inv_manual t b w) a w1 Hinv) as Hinv2.
  destruct (complete E a w1) as [ra w2]. simpl in Hinv2.
  pose proof (complete_keeps
                (fun t w => overlap_inv json_dump E w0 (Finished ra) t w)
                (fun t w => overlap_inv_periodic (Finished ra) t w)
                b w2 Hinv2) as Hinv3.
  by destruct (complete E b w2) as [rb w3].
Qed.

(** C4, as amended — No double notification under overlapping checks.
    A manual check and a periodic check that overlap on the event loop,
    with the same fetched posts, switching at their [await]s in any order
    and with any transport failures: there is a history of the new posts
    found, each found by one of the two handlers, such that
    - no post of a feed is in it twice (by feed and id), every post in it
      is a fetched post of a feed of the list whose id was not seen, and
      every such post is in it: each new post is found exactly once, by
      one handler;
    - the periodic check ends normally and the messages it has sent are
      those of the posts it found, one per registered chat for each (none
      when no chat is registered), whether or not the transport took
      them;
    - the manual check ends normally or with the exception of a reply, and
      normally when the transport is reliable; its replies are the first
      reply and one for each post it found, followed by the count of them
      when it got there (always when it ends normally, and never by
      anything else);
    - the feeds and the chats are those at the start; every seen list is
      the one at the start followed by the ids of the new posts of its
      feed, holds no id twice and holds the id of every fetched post; when
      the writes succeed, the data file holds that data. *)
Theorem no_double_notification sched :
  seen_nodup (data w0) ->
  let '(ra, rb, w) := overlap E sched (check_feeds json_dump)
                              (check_feeds_periodic json_dump) w0 in
  exists hist : list (bool * (pystr * Post)),
    NoDup (post_key <$> hist)
    /\ (forall x, x ∈ hist ->
          x.2.1 ∈ feeds (data w0) /\ x.2.2 ∈ posts_of E x.2.1 /\
          id x.2.2 ∉ seen_of (seen_posts (data w0)) x.2.1)
    /\ (forall f post,
          f ∈ feeds (data w0) -> post ∈ posts_of E f ->
          id post ∉ seen_of (seen_posts (data w0)) f ->
          (f, id post) ∈ post_key <$> hist)
    /\ rb = Ok tt
    /\ sends_of (sent w) =
       sends_of (sent w0) ++ flat_map (fanout_of w0) (found_by false hist)
    /\ (let head := replies_of (sent w0) ++
                    Reply msg_checking ::
                      (announce_of <$> found_by true hist) in
        let count := summary_reply (length (found_by true hist)) in
        (ra = Ok tt /\ replies_of (sent w) = head ++ [count])
        \/ (ra = Raised TransportError
            /\ (replies_of (sent w) = head \/
                replies_of (sent w) = head ++ [count])
            /\ exists history o, env_transport E history o = false))
    /\ (reliable E -> ra = Ok tt)
    /\ feeds (data w) = feeds (data w0)
    /\ chat_ids (data w) = chat_ids (data w0)
    /\ (forall f, seen_of (seen_posts (data w)) f =
                  seen_of (seen_posts (data w0)) f ++ ids_of f (snd <$> hist))
    /\ seen_nodup (data w)
    /\ (forall f post,
          f ∈ feeds (data w0) -> post ∈ posts_of E f ->
          id post ∈ seen_of (seen_posts (data w)) f)
    /\ ((forall n, env_write E n = Written) ->
        disk w = Some (json_dump (data w))).
Proof.
  intros Hnd0. pose proof (overlap_inv_overlap sched Hnd0) as Hinv.
  destruct (overlap E sched _ _ w0) as [[ra rb] w]. simpl in Hinv.
  destruct Hinv as (pa & pb & hist & Hpa & Hpb & Hsh & Ha & Hb).
  assert (pa = MDone ra) as ->.
  { destruct pa; simpl in Hpa; by simplify_eq. }
  assert (pb = PDone rb) as ->.
  { destruct pb; simpl in Hpb; by simplify_eq. }
  destruct Hsh as (Hfs & Hcs & Hseen & Hnd & Hin).
  destruct Hb as (Hcov & -> & Hsends & Hdisk).
  assert (forall g, NoDup (ids_of g (snd <$> hist))) as Hids.
  { intros g. specialize (Hnd g). rewrite Hseen in Hnd.
    by apply NoDup_app in Hnd as (_ & _ & ?). }
  assert (forall f post, f ∈ feeds (data w0) -> post ∈ posts_of E f ->
            id post ∈ seen_of (seen_posts (data w)) f) as Hall.
  { intros f post Hf Hpost. destruct (Hcov f Hf) as [[]|[_ Hposts]].
    by destruct (Hposts post Hpost) as [?|[]]. }
  exists hist. split_and!; try done.
  - replace (post_key <$> hist)
      with ((fun x : pystr * Post => (x.1, id x.2)) <$> (snd <$> hist))
      by (by rewrite <-list_fmap_compose).
    by apply NoDup_keys.
  - intros x Hx. destruct (Hin x Hx) as [Hf Hpost]. split_and!; try done.
    intros Hold. specialize (Hnd x.2.1). rewrite Hseen in Hnd.
    apply NoDup_app in Hnd as (_ & Hdisj & _). apply (Hdisj _ Hold).
    apply elem_of_ids_of. exists x.2. split; [|done].
    apply list_elem_of_fmap. eauto.
  - intros f post Hf Hpost Hnew. specialize (Hall f post Hf Hpost).
    rewrite Hseen in Hall. apply elem_of_app in Hall as [?|Hi]; [done|].
    apply elem_of_ids_of in Hi as (y & Hy & <- & <-).
    apply list_elem_of_fmap in Hy as (x & -> & Hx).
    apply list_elem_of_fmap. by exists x.
  - cbn zeta. destruct ra as [[]|e].
    + left. by split.
    + right. destruct Ha as [-> Ha]. by split.
  - intros HE. destruct ra as [[]|e]; [done|].
    destruct Ha as (_ & _ & history & o & Hno). by rewrite HE in Hno.
  - intros f l Hf. specialize (Hnd f). unfold seen_of in Hnd.
    by rewrite Hf in Hnd.
Qed.

End OverlapProperties.

(** ** [json.dump] and [json.load] *)

Section JsonProperties.

Local Open Scope N_scope.

Implicit Types (s rest : pystr) (c n : N).

(** Arithmetic with the quotient and the remainder by a constant. *)
Ltac divmod := zify; Z.to_euclidean_division_equations; lia.

(** *** Shifts and masks as arithmetic *)

Lemma lor_shiftl (a y k : N) :
  y < 2 ^ k -> N.lor (N.shiftl a k) y = a * 2 ^ k + y.
Proof.
  intros Hy. rewrite <-N.shiftl_mul_pow2.
  assert (N.land (N.shiftl a k) y = 0) as Hland.
  { apply N.bits_inj. intros i. rewrite N.land_spec, N.bits_0.
    destruct (N.lt_ge_cases i k) as [Hlt|Hge].
    - by rewrite N.shiftl_spec_low.
    - apply andb_false_intro2. destruct (N.eq_dec y 0) as [->|Hne].
      + apply N.bits_0.
      + apply N.bits_above_log2. apply N.log2_lt_pow2; [lia|].
        eapply N.lt_le_trans; [exact Hy|]. by apply N.pow_le_mono_r. }
  by rewrite N.add_nocarry_lxor, N.lxor_lor.
Qed.

Lemma land_mask (a k : N) : N.land a (2 ^ k - 1) = a mod 2 ^ k.
Proof. rewrite <-N.land_ones. f_equal. by rewrite N.ones_equiv, N.pred_sub. Qed.

Lemma nibble (n k : N) : N.land (N.shiftr n k) 15 = n / 2 ^ k mod 16.
Proof.
  change 15 with (2 ^ 4 - 1). by rewrite land_mask, N.shiftr_div_pow2.
Qed.

Lemma low_nibble (n : N) : N.land n 15 = n mod 16.
Proof. change 15 with (2 ^ 4 - 1). by rewrite land_mask. Qed.

(** *** Four hexadecimal digits *)

Lemma unhex_hex_digit (d : N) :
  d < 16 -> Json.unhex_digit (Json.hex_digit d) = Some d.
Proof.
  intros Hd. unfold Json.unhex_digit, Json.hex_digit.
  destruct (N.ltb_spec d 10).
  - rewrite (proj2 (N.leb_le 48 (48 + d))), (proj2 (N.leb_le (48 + d) 57))
      by lia.
    simpl. f_equal. lia.
  - rewrite (proj2 (N.leb_gt (87 + d) 57)) by lia. rewrite andb_false_r.
    rewrite (proj2 (N.leb_le 97 (87 + d))), (proj2 (N.leb_le (87 + d) 102))
      by lia.
    simpl. f_equal. lia.
Qed.

Lemma unhex4_hex4 (n : N) :
  n < 65536 ->
  exists a b c d,
    Json.hex4 n = [a; b; c; d] /\ Json.unhex4 a b c d = Some n.
Proof.
  intros Hn. eexists _, _, _, _. split; [reflexivity|].
  unfold Json.unhex4.
  rewrite (nibble n 12), (nibble n 8), (nibble n 4), (low_nibble n).
  change (2 ^ 12) with 4096. change (2 ^ 8) with 256.
  change (2 ^ 4) with 16.
  rewrite !unhex_hex_digit by divmod.
  f_equal. rewrite !(lor_shiftl _ _ 4) by (change (2 ^ 4) with 16; divmod).
  change (2 ^ 4) with 16. divmod.
Qed.

(** *** A string literal *)

Lemma scan_pieces_raw c t :
  (c =? 34) = false -> (c =? 92) = false -> (c <? 32) = false ->
  Json.scan_pieces (c :: t) =
  match Json.scan_pieces t with
  | Some (ps, rest) => Some (Json.Raw c :: ps, rest)
  | None => None
  end.
Proof. intros H1 H2 H3. cbn [Json.scan_pieces]. by rewrite H1, H2, H3. Qed.

Lemma scan_pieces_short e x t :
  Json.simple_escape e = Some x -> (e =? 117) = false ->
  Json.scan_pieces (92 :: e :: t) =
  match Json.scan_pieces t with
  | Some (ps, rest) => Some (Json.Raw x :: ps, rest)
  | None => None
  end.
Proof.
  intros H1 H2. cbn [Json.scan_pieces].
  change (92 =? 34) with false. change (92 =? 92) with true. cbn iota.
  by rewrite H2, H1.
Qed.

Lemma scan_pieces_u n t :
  n < 65536 ->
  Json.scan_pieces (Json.escape_u n ++ t) =
  match Json.scan_pieces t with
  | Some (ps, rest) => Some (Json.Esc n :: ps, rest)
  | None => None
  end.
Proof.
  intros Hn. destruct (unhex4_hex4 n Hn) as (a & b & c & d & Hhex & Hun).
  unfold Json.escape_u. rewrite Hhex. cbn [app Json.scan_pieces].
  change (92 =? 34) with false. change (92 =? 92) with true.
  change (117 =? 117) with true. cbn iota. by rewrite Hun.
Qed.

Lemma high_half (n : N) :
  n < 1048576 ->
  N.lor 55296 (N.land (N.shiftr n 10) 1023) = 55296 + n / 1024.
Proof.
  intros Hn. change 1023 with (2 ^ 10 - 1).
  rewrite land_mask, N.shiftr_div_pow2.
  change 55296 with (N.shiftl 54 10) at 1.
  rewrite lor_shiftl by (apply N.mod_lt; lia).
  change (2 ^ 10) with 1024. divmod.
Qed.

Lemma low_half (n : N) : N.lor 56320 (N.land n 1023) = 56320 + n mod 1024.
Proof.
  change 1023 with (2 ^ 10 - 1). rewrite land_mask.
  change 56320 with (N.shiftl 55 10) at 1.
  rewrite lor_shiftl by (apply N.mod_lt; lia).
  change (2 ^ 10) with 1024. lia.
Qed.

Lemma join_halves (x y : N) :
  y < 1024 -> N.lor (N.shiftl x 10) y = x * 1024 + y.
Proof. intros Hy. by rewrite lor_shiftl. Qed.

(** The three ways a character is written. *)
Lemma pieces_of_cases c :
  c < 1114112 ->
  Json.pieces_of c = [Json.Raw c]
  \/ (Json.pieces_of c = [Json.Esc c] /\ c < 65536)
  \/ (exists h l,
        Json.pieces_of c = [Json.Esc h; Json.Esc l]
        /\ Json.is_high h = true /\ Json.is_low l = true
        /\ 65536 + N.lor (N.shiftl (h - 55296) 10) (l - 56320) = c).
Proof.
  intros Hc. unfold Json.pieces_of.
  destruct (_ || _); [by left|]. destruct (N.ltb_spec c 65536); [right; by left|].
  right. right. eexists _, _. split; [reflexivity|].
  rewrite high_half, low_half by lia.
  unfold Json.is_high, Json.is_low. split_and!.
  - apply andb_true_intro. split; [apply N.leb_le|apply N.leb_le]; divmod.
  - apply andb_true_intro. split; [apply N.leb_le|apply N.leb_le]; divmod.
  - rewrite join_halves by divmod. divmod.
Qed.

Lemma scan_escape_char c t :
  c < 1114112 ->
  Json.scan_pieces (Json.escape_char c ++ t) =
  match Json.scan_pieces t with
  | Some (ps, rest) => Some (Json.pieces_of c ++ ps, rest)
  | None => None
  end.
Proof.
  intros Hc. unfold Json.escape_char, Json.pieces_of.
  destruct (N.eqb_spec c 34) as [->|H34]; [by apply scan_pieces_short|].
  destruct (N.eqb_spec c 92) as [->|H92]; [by apply scan_pieces_short|].
  destruct (N.eqb_spec c 10) as [->|H10]; [by apply scan_pieces_short|].
  destruct (N.eqb_spec c 13) as [->|H13]; [by apply scan_pieces_short|].
  destruct (N.eqb_spec c 9) as [->|H9]; [by apply scan_pieces_short|].
  destruct (N.eqb_spec c 8) as [->|H8]; [by apply scan_pieces_short|].
  destruct (N.eqb_spec c 12) as [->|H12]; [by apply scan_pieces_short|].
  cbn [orb].
  destruct ((32 <=? c) && (c <=? 126)) eqn:Hprint.
  { apply andb_prop in Hprint as [H32%N.leb_le H126%N.leb_le].
    cbn [app]. apply scan_pieces_raw.
    - by apply N.eqb_neq.
    - by apply N.eqb_neq.
    - apply N.ltb_ge. lia. }
  destruct (N.ltb_spec c 65536); [by apply scan_pieces_u|].
  cbn zeta. rewrite <-app_assoc.
  rewrite high_half, low_half by lia.
  rewrite !scan_pieces_u by divmod.
  by destruct (Json.scan_pieces t) as [[ps rest]|].
Qed.

Lemma scan_escaped s t :
  Json.valid_str s ->
  Json.scan_pieces (flat_map Json.escape_char s ++ 34 :: t) =
  Some (flat_map Json.pieces_of s, t).
Proof.
  induction 1 as [|c s Hc Hs IH]; cbn [flat_map app].
  { cbn [Json.scan_pieces]. by change (34 =? 34) with true. }
  rewrite <-app_assoc, scan_escape_char, IH by done. done.
Qed.

(** The pieces of a plain string are its characters. *)
Lemma chars_of_esc h (ps : list Json.piece) :
  match ps with
  | Json.Esc l :: _ => Json.is_high h && Json.is_low l = false
  | _ => True
  end ->
  Json.chars_of (Json.Esc h :: ps) = h :: Json.chars_of ps.
Proof.
  destruct ps as [|[c|l] ps]; cbn [Json.chars_of]; [done..|].
  by intros ->.
Qed.

Lemma chars_of_pieces s :
  Json.plain_str s -> Json.chars_of (flat_map Json.pieces_of s) = s.
Proof.
  intros [Hvalid Hpair]. induction Hvalid as [|c s Hc Hs IH]; [done|].
  destruct Hpair as [Hhead Hpair]. specialize (IH Hpair).
  cbn [flat_map].
  destruct (pieces_of_cases c Hc) as [->|[[-> _]|(h & l & -> & Hh & Hl & Hjoin)]].
  - cbn [app Json.chars_of]. by rewrite IH.
  - cbn [app]. rewrite chars_of_esc; [by rewrite IH|].
    destruct s as [|c' s']; [done|]. cbn [flat_map].
    inversion Hs as [|? ? Hc' Hs']; subst.
    destruct (pieces_of_cases c' Hc')
      as [->|[[-> _]|(h' & l' & -> & Hh' & Hl' & _)]]; cbn [app]; [done| |].
    + destruct (Json.is_high c && Json.is_low c') eqn:Hboth; [|done].
      apply andb_prop in Hboth. by destruct Hhead.
    + apply andb_false_intro2. unfold Json.is_high, Json.is_low in *.
      apply andb_prop in Hh' as [?%N.leb_le ?%N.leb_le].
      apply andb_false_intro1. apply N.leb_gt. lia.
  - cbn [app Json.chars_of]. rewrite Hh, Hl. cbn [andb].
    by rewrite Hjoin, IH.
Qed.

Lemma scan_encode_string s t :
  Json.plain_str s ->
  exists ps,
    Json.scan_pieces (flat_map Json.escape_char s ++ 34 :: t) = Some (ps, t)
    /\ Json.chars_of ps = s.
Proof.
  intros Hs. exists (flat_map Json.pieces_of s). split.
  - apply scan_escaped. by destruct Hs.
  - by apply chars_of_pieces.
Qed.

(** *** An integer *)

Lemma closed_not_digit rest :
  Json.closed rest ->
  exists c r, rest = c :: r /\ Json.is_digit c = false /\ (c =? 46) = false
              /\ (c =? 101) = false /\ (c =? 69) = false
              /\ Json.is_ws c = negb (c =? 44).
Proof.
  intros (c & r & -> & [->| ->]); eexists _, _; by split_and!.
Qed.

Lemma scan_digits_written (u : Decimal.uint) rest :
  match rest with c :: _ => Json.is_digit c = false | [] => True end ->
  Json.scan_digits (Json.digits_of_uint u ++ rest) =
  (Json.digits_of_uint u, rest).
Proof.
  intros Hrest.
  induction u as [|u IH|u IH|u IH|u IH|u IH|u IH|u IH|u IH|u IH|u IH];
    cbn [Json.digits_of_uint app Json.scan_digits];
    try (change (Json.is_digit (Json.digit_char _)) with true; cbn iota;
         by rewrite IH).
  destruct rest as [|c r]; [done|]. cbn [Json.scan_digits]. by rewrite Hrest.
Qed.

Lemma uint_of_digits_written (u : Decimal.uint) :
  Json.uint_of_digits (Json.digits_of_uint u) = u.
Proof.
  unfold Json.uint_of_digits.
  induction u as [|u IH|u IH|u IH|u IH|u IH|u IH|u IH|u IH|u IH|u IH];
    cbn [Json.digits_of_uint foldr]; [done|..]; by rewrite IH.
Qed.

(** [N.to_uint] writes no zero in front, but [0] itself. *)
Lemma to_uint_normal (n : N) : Decimal.unorm (N.to_uint n) = N.to_uint n.
Proof.
  rewrite <-DecimalN.Unsigned.to_of. by rewrite DecimalN.Unsigned.of_to.
Qed.

Lemma to_uint_head (n : N) :
  N.to_uint n = Decimal.D0 Decimal.Nil
  \/ exists c t,
       Json.digits_of_uint (N.to_uint n) = c :: t
       /\ Json.is_digit c = true /\ (c =? 48) = false /\ (c =? 45) = false.
Proof.
  pose proof (to_uint_normal n) as Hnorm.
  destruct (N.to_uint n) as [|u|u|u|u|u|u|u|u|u|u] eqn:Hu;
    [by apply DecimalFacts.unorm_nonnil in Hnorm| |
     right; eexists _, _; by split_and!..].
  left. assert (u = Decimal.Nil \/ u <> Decimal.Nil) as [->|Hne]
    by (destruct u; (by left) || (by right)); [done|].
  exfalso. rewrite DecimalFacts.unorm_D0 in Hnorm.
  pose proof (DecimalFacts.nb_digits_unorm u Hne) as Hlen.
  rewrite Hnorm in Hlen. simpl in Hlen. lia.
Qed.

Lemma scan_number_written (z : Z) rest :
  Json.closed rest ->
  Json.scan_number (Json.encode_int z ++ rest) = Some (Json.Int z, rest).
Proof.
  intros Hrest.
  destruct (closed_not_digit rest Hrest)
    as (c & r & -> & Hdigit & Hpoint & He & HE & _).
  assert (Json.scan_integer (Json.digits_of_uint (N.to_uint (Z.abs_N z))
                             ++ c :: r) =
          Some (Json.digits_of_uint (N.to_uint (Z.abs_N z)), c :: r)) as Hint.
  { destruct (to_uint_head (Z.abs_N z)) as [->|(c0 & t & Heq & Hd & H0 & _)].
    - done.
    - pose proof (scan_digits_written (N.to_uint (Z.abs_N z)) (c :: r) Hdigit)
        as Hscan.
      rewrite Heq in Hscan |- *. cbn [app] in Hscan |- *.
      unfold Json.scan_integer. by rewrite H0, Hd, Hscan. }
  assert (Json.scan_fraction (c :: r) = ([], c :: r)) as Hfrac.
  { unfold Json.scan_fraction. by rewrite Hpoint. }
  assert (Json.scan_exponent (c :: r) = ([], c :: r)) as Hexp.
  { unfold Json.scan_exponent. by rewrite He, HE. }
  unfold Json.encode_int, Json.scan_number.
  destruct (Z.ltb_spec z 0) as [Hneg|Hpos].
  - cbn [app]. change (45 =? 45) with true. cbn iota.
    rewrite Hint, Hfrac, Hexp, uint_of_digits_written.
    rewrite DecimalN.Unsigned.of_to. do 3 f_equal. lia.
  - assert (exists c0 t,
              Json.digits_of_uint (N.to_uint (Z.abs_N z)) = c0 :: t
              /\ (c0 =? 45) = false) as (c0 & t & Heq & Hminus).
    { destruct (to_uint_head (Z.abs_N z)) as [->|(c0 & t & Heq & _ & _ & H45)].
      - by eexists _, _.
      - by eexists _, _. }
    rewrite Heq in Hint |- *. cbn [app] in Hint |- *. rewrite Hminus.
    rewrite Hint, Hfrac, Hexp. rewrite <-Heq, uint_of_digits_written.
    rewrite DecimalN.Unsigned.of_to. do 3 f_equal. lia.
Qed.

Lemma encode_int_head (z : Z) :
  exists c t,
    Json.encode_int z = c :: t
    /\ (c = 45 \/ Json.is_digit c = true).
Proof.
  unfold Json.encode_int. destruct (z <? 0)%Z.
  { eexists _, _. split; [done|by left]. }
  destruct (to_uint_head (Z.abs_N z)) as [->|(c & t & -> & Hd & _)].
  - eexists _, _. split; [done|by right].
  - eexists _, _. split; [done|by right].
Qed.

Lemma digit_bounds c : Json.is_digit c = true -> 48 <= c <= 57.
Proof.
  unfold Json.is_digit. by intros [?%N.leb_le ?%N.leb_le]%andb_prop.
Qed.

Lemma readable_int level (z : Z) : Json.readable 1 level (Json.Int z).
Proof.
  destruct (encode_int_head z) as (c & t & Heq & Hc).
  assert (c = 45 \/ 48 <= c <= 57) as Hrange.
  { destruct Hc as [->|?%digit_bounds]; [by left|by right]. }
  split.
  - exists c, t. cbn [Json.encode]. split; [done|].
    unfold Json.is_ws. split; [|lia].
    rewrite !orb_false_iff, !N.eqb_neq. lia.
  - intros fuel rest Hfuel Hrest. destruct fuel as [|fuel]; [lia|].
    cbn [Json.encode].
    pose proof (scan_number_written z rest Hrest) as Hscan.
    rewrite Heq in Hscan |- *. cbn [app] in Hscan |- *.
    cbn [Json.scan_value].
    rewrite (proj2 (N.eqb_neq c 34)), (proj2 (N.eqb_neq c 123)),
      (proj2 (N.eqb_neq c 91)) by lia.
    by rewrite Hscan.
Qed.

Lemma readable_str level s :
  Json.plain_str s -> Json.readable 1 level (Json.Str s).
Proof.
  intros Hs. split.
  - eexists _, _. cbn [Json.encode]. unfold Json.encode_string.
    cbn [app]. by split_and!.
  - intros fuel rest Hfuel _. destruct fuel as [|fuel]; [lia|].
    cbn [Json.encode]. unfold Json.encode_string.
    cbn [app Json.scan_value]. change (34 =? 34) with true. cbn iota.
    rewrite <-app_assoc. cbn [app].
    destruct (scan_encode_string s rest Hs) as (ps & -> & ->). done.
Qed.

(** *** Lists and dicts *)

Implicit Types (level k fuel : nat) (v : Json.value) (t : pystr).

Lemma skip_ws_spaces (m : nat) c r :
  Json.is_ws c = false ->
  Json.skip_ws (replicate m 32 ++ c :: r) = c :: r.
Proof.
  intros Hc. induction m as [|m IH]; cbn [replicate app Json.skip_ws].
  - by rewrite Hc.
  - by change (Json.is_ws 32) with true.
Qed.

Lemma skip_ws_indent level c r :
  Json.is_ws c = false ->
  Json.skip_ws (Json.newline_indent level ++ c :: r) = c :: r.
Proof.
  intros Hc. unfold Json.newline_indent. cbn [app Json.skip_ws].
  change (Json.is_ws 10) with true. cbn iota. by apply skip_ws_spaces.
Qed.

Lemma opens_app t t' : Json.opens t -> Json.opens (t ++ t').
Proof. intros (c & r & -> & ?). exists c, (r ++ t'). by split. Qed.

Lemma opens_join (separator : pystr) (items : list pystr) :
  items <> [] -> Forall Json.opens items ->
  Json.opens (Json.join separator items).
Proof.
  intros Hne Hall. destruct Hall as [|x items Hx Hall]; [done|].
  destruct items; cbn [Json.join]; [done|]. by apply opens_app.
Qed.

Lemma closed_comma t : Json.closed (44 :: t).
Proof. exists 44, t. split; [done|by left]. Qed.

Lemma closed_indent level t : Json.closed (Json.newline_indent level ++ t).
Proof. eexists 10, _. split; [done|by right]. Qed.

Lemma join_more (separator x y : pystr) (items : list pystr) :
  Json.join separator (x :: y :: items) =
  x ++ separator ++ Json.join separator (y :: items).
Proof. done. Qed.

Lemma opens_items level k (vs : list Json.value) :
  vs <> [] -> Forall (Json.readable k level) vs ->
  Json.opens (Json.join (44 :: Json.newline_indent level)
                        (Json.encode level <$> vs)).
Proof.
  intros Hne Hall. apply opens_join; [by destruct vs|].
  apply Forall_fmap. eapply Forall_impl; [exact Hall|]. by intros ? [? _].
Qed.

Lemma scan_items_written k level (vs : list Json.value) :
  Forall (Json.readable k (S level)) vs -> vs <> [] ->
  forall (acc : list Json.value) fuel rest,
    (k + length vs <= fuel)%nat ->
    Json.scan_items fuel acc
      (Json.join (44 :: Json.newline_indent (S level))
                 (Json.encode (S level) <$> vs)
       ++ Json.newline_indent level ++ 93 :: rest) =
    Some (Json.Arr (acc ++ vs), rest).
Proof.
  induction 1 as [|v vs [Hopen Hread] Hall IH]; [done|].
  intros _ acc fuel rest Hfuel. cbn [length] in Hfuel.
  destruct fuel as [|fuel]; [lia|]. cbn [Json.scan_items].
  destruct vs as [|v' vs'].
  - rewrite fmap_cons, fmap_nil. cbn [Json.join].
    rewrite Hread by (lia || apply closed_indent).
    by rewrite skip_ws_indent.
  - rewrite fmap_cons, (fmap_cons _ v' vs'), join_more, <-(fmap_cons _ v' vs').
    rewrite <-!app_assoc.
    rewrite Hread by (lia || apply closed_comma).
    cbn [app Json.skip_ws]. change (Json.is_ws 44) with false. cbn iota.
    change (44 =? 93) with false. change (44 =? 44) with true. cbn iota.
    destruct (opens_items (S level) k (v' :: vs')) as (c & r & Heq & Hws & _);
      [done..|].
    specialize (IH ltac:(done) (acc ++ [v]) fuel rest).
    rewrite Heq in IH |- *. cbn [app] in IH |- *.
    rewrite skip_ws_indent by done. rewrite IH by (cbn [length] in *; lia).
    by rewrite <-app_assoc.
Qed.

Lemma block_empty (opening closing : N) level :
  Json.block opening closing level [] = [opening; closing].
Proof. done. Qed.

Lemma block_items (opening closing : N) level (items : list pystr) :
  items <> [] ->
  Json.block opening closing level items =
  [opening] ++ Json.newline_indent (S level) ++
  Json.join (44 :: Json.newline_indent (S level)) items ++
  Json.newline_indent level ++ [closing].
Proof. by destruct items. Qed.

Lemma encode_arr level (vs : list Json.value) :
  Json.encode level (Json.Arr vs) =
  Json.block 91 93 level (Json.encode (S level) <$> vs).
Proof. done. Qed.

Lemma encode_obj level (kvs : list (pystr * Json.value)) :
  Json.encode level (Json.Obj kvs) =
  Json.block 123 125 level
    ((fun kv => Json.encode_string kv.1 ++ [58; 32] ++
                Json.encode (S level) kv.2) <$> kvs).
Proof. done. Qed.

(** A list of readable values is read back, whatever follows it. *)
Lemma scan_arr k level (vs : list Json.value) fuel rest :
  Forall (Json.readable k (S level)) vs ->
  (k + length vs + 1 <= fuel)%nat ->
  Json.scan_value fuel (Json.encode level (Json.Arr vs) ++ rest) =
  Some (Json.Arr vs, rest).
Proof.
  intros Hall Hfuel. destruct fuel as [|fuel]; [lia|].
  rewrite encode_arr. destruct vs as [|v vs].
  { by rewrite fmap_nil, block_empty. }
  rewrite block_items by done. rewrite <-!app_assoc.
  cbn [app Json.scan_value].
  change (91 =? 34) with false. change (91 =? 123) with false.
  change (91 =? 91) with true. cbn iota.
  destruct (opens_items (S level) k (v :: vs)) as (c & r & Heq & Hws & Hc & _);
    [done..|].
  pose proof (scan_items_written k level (v :: vs) Hall ltac:(done)
                [] fuel rest) as Hscan.
  rewrite Heq in Hscan |- *. cbn [app] in Hscan |- *.
  rewrite skip_ws_indent by done.
  rewrite (proj2 (N.eqb_neq c 93)) by done.
  apply Hscan. lia.
Qed.

Lemma opens_block (opening closing : N) level (items : list pystr) :
  Json.is_ws opening = false -> opening <> 93 -> opening <> 125 ->
  Json.opens (Json.block opening closing level items).
Proof.
  intros. destruct items; eexists _, _; by split_and!.
Qed.

Lemma readable_arr k level (vs : list Json.value) :
  Forall (Json.readable k (S level)) vs ->
  Json.readable (k + length vs + 1) level (Json.Arr vs).
Proof.
  intros Hall. split.
  - rewrite encode_arr. by apply opens_block.
  - intros fuel rest Hfuel _. by apply (scan_arr k).
Qed.

Lemma readable_more k k' level v :
  (k <= k')%nat -> Json.readable k level v -> Json.readable k' level v.
Proof.
  intros Hk [Hopen Hread]. split; [done|].
  intros fuel rest Hfuel Hrest. apply Hread; [lia|done].
Qed.

Lemma opens_member level (kv : pystr * Json.value) :
  Json.opens (Json.member_text level kv).
Proof.
  eexists _, _. unfold Json.member_text, Json.encode_string. by split_and!.
Qed.

Lemma member_text_head level (kv : pystr * Json.value) t :
  Json.member_text level kv ++ t =
  34 :: flat_map Json.escape_char kv.1 ++
        34 :: 58 :: 32 :: Json.encode (S level) kv.2 ++ t.
Proof.
  unfold Json.member_text, Json.encode_string. by rewrite <-!app_assoc.
Qed.

Lemma opens_members (separator : pystr) level
    (kvs : list (pystr * Json.value)) :
  kvs <> [] ->
  exists r, Json.join separator (Json.member_text level <$> kvs) = 34 :: r.
Proof.
  intros Hne. destruct kvs as [|kv kvs]; [done|].
  rewrite fmap_cons. destruct kvs as [|kv' kvs].
  - rewrite fmap_nil. cbn [Json.join]. eexists.
    unfold Json.member_text, Json.encode_string. by cbn [app].
  - rewrite fmap_cons, join_more. eexists.
    unfold Json.member_text at 1, Json.encode_string. by cbn [app].
Qed.

Lemma skip_ws_opens t : Json.opens t -> Json.skip_ws t = t.
Proof. intros (c & r & -> & Hws & _). cbn [Json.skip_ws]. by rewrite Hws. Qed.

Lemma scan_members_written k level (kvs : list (pystr * Json.value)) :
  Forall (fun kv => Json.plain_str kv.1 /\ Json.readable k (S level) kv.2)
         kvs ->
  kvs <> [] ->
  forall (acc : list (pystr * Json.value)) fuel rest,
    (k + length kvs <= fuel)%nat ->
    Json.scan_members fuel acc
      (Json.join (44 :: Json.newline_indent (S level))
                 (Json.member_text level <$> kvs)
       ++ Json.newline_indent level ++ 125 :: rest) =
    Some (Json.Obj (acc ++ kvs), rest).
Proof.
  induction 1 as [|[key v] kvs [Hkey [Hopen Hread]] Hall IH]; [done|].
  intros _ acc fuel rest Hfuel. cbn [length] in Hfuel.
  cbn [fst snd] in Hkey, Hopen, Hread.
  destruct fuel as [|fuel]; [lia|].
  assert (forall t,
            Json.closed t ->
            Json.scan_members (S fuel) acc
              (Json.member_text level (key, v) ++ t) =
            match Json.skip_ws t with
            | c' :: r' =>
              if c' =? 125 then Some (Json.Obj (acc ++ [(key, v)]), r')
              else if c' =? 44
              then Json.scan_members fuel (acc ++ [(key, v)]) (Json.skip_ws r')
              else None
            | [] => None
            end) as Hmember.
  { intros t Ht. rewrite member_text_head. cbn [fst snd Json.scan_members].
    change (34 =? 34) with true. cbn iota.
    destruct (scan_encode_string key
                (58 :: 32 :: Json.encode (S level) v ++ t) Hkey)
      as (ps & -> & ->).
    cbn [Json.skip_ws]. change (Json.is_ws 58) with false. cbn iota.
    change (58 =? 58) with true. cbn iota.
    cbn [Json.skip_ws]. change (Json.is_ws 32) with true. cbn iota.
    rewrite skip_ws_opens by by apply opens_app.
    by rewrite Hread by (lia || done). }
  destruct kvs as [|kv' kvs'].
  - rewrite fmap_cons, fmap_nil. cbn [Json.join].
    rewrite Hmember by apply closed_indent.
    rewrite skip_ws_indent by done. by change (125 =? 125) with true.
  - rewrite fmap_cons, (fmap_cons _ kv' kvs'), join_more,
      <-(fmap_cons _ kv' kvs').
    rewrite <-!app_assoc. rewrite Hmember by apply closed_comma.
    cbn [app Json.skip_ws]. change (Json.is_ws 44) with false. cbn iota.
    change (44 =? 125) with false. change (44 =? 44) with true. cbn iota.
    destruct (opens_members (44 :: Json.newline_indent (S level)) level
                (kv' :: kvs')) as [r Heq]; [done|].
    specialize (IH ltac:(done) (acc ++ [(key, v)]) fuel rest).
    rewrite Heq in IH |- *. cbn [app] in IH |- *.
    rewrite skip_ws_indent by done. rewrite IH by (cbn [length] in *; lia).
    by rewrite <-app_assoc.
Qed.

(** A dict of readable values under plain keys is read back, whatever
    follows it. *)
Lemma scan_obj k level (kvs : list (pystr * Json.value)) fuel rest :
  Forall (fun kv => Json.plain_str kv.1 /\ Json.readable k (S level) kv.2)
         kvs ->
  (k + length kvs + 1 <= fuel)%nat ->
  Json.scan_value fuel (Json.encode level (Json.Obj kvs) ++ rest) =
  Some (Json.Obj kvs, rest).
Proof.
  intros Hall Hfuel. destruct fuel as [|fuel]; [lia|].
  rewrite encode_obj.
  change (fun kv : pystr * Json.value =>
            Json.encode_string kv.1 ++ [58; 32] ++ Json.encode (S level) kv.2)
    with (Json.member_text level).
  destruct kvs as [|kv kvs].
  { by rewrite fmap_nil, block_empty. }
  rewrite block_items by done. rewrite <-!app_assoc.
  cbn [app Json.scan_value].
  change (123 =? 34) with false. change (123 =? 123) with true. cbn iota.
  destruct (opens_members (44 :: Json.newline_indent (S level)) level
              (kv :: kvs)) as [r Heq]; [done|].
  pose proof (scan_members_written k level (kv :: kvs) Hall ltac:(done)
                [] fuel rest) as Hscan.
  rewrite Heq in Hscan |- *. cbn [app] in Hscan |- *.
  rewrite skip_ws_indent by done.
  change (34 =? 125) with false. cbn iota.
  apply Hscan. lia.
Qed.

Lemma readable_obj k level (kvs : list (pystr * Json.value)) :
  Forall (fun kv => Json.plain_str kv.1 /\ Json.readable k (S level) kv.2)
         kvs ->
  Json.readable (k + length kvs + 1) level (Json.Obj kvs).
Proof.
  intros Hall. split.
  - rewrite encode_obj. by apply opens_block.
  - intros fuel rest Hfuel _. by apply (scan_obj k).
Qed.

(** *** The fuel of [loads] *)

Local Open Scope nat_scope.

Lemma list_sum_cons (a : nat) (l : list nat) :
  list_sum (a :: l) = a + list_sum l.
Proof. done. Qed.

Lemma length_join (c : N) (separator : pystr) (items : list pystr) :
  list_sum (length <$> items) + length items <=
  S (length (Json.join (c :: separator) items)).
Proof.
  induction items as [|x items IH]; [cbn; lia|].
  destruct items as [|y items].
  - cbn. lia.
  - rewrite join_more, fmap_cons, !length_app, list_sum_cons.
    cbn [length] in IH |- *. lia.
Qed.

Lemma length_block (opening closing : N) level (items : list pystr) :
  list_sum (length <$> items) + length items + 2 <=
  length (Json.block opening closing level items).
Proof.
  destruct items as [|x items]; [done|].
  rewrite block_items by done. rewrite !length_app.
  pose proof (length_join 44%N (Json.newline_indent (S level)) (x :: items)).
  unfold Json.newline_indent at 1 3. cbn [length] in *. lia.
Qed.

Lemma length_item (x : pystr) (items : list pystr) :
  x ∈ items -> length x <= list_sum (length <$> items).
Proof.
  induction 1 as [x items|x y items _ IH];
    rewrite fmap_cons, list_sum_cons; lia.
Qed.

Lemma written_str level s : Json.plain_str s -> Json.written level (Json.Str s).
Proof.
  intros Hs. eapply readable_more; [|by apply readable_str]. lia.
Qed.

Lemma written_int level (z : Z) : Json.written level (Json.Int z).
Proof. eapply readable_more; [|by apply readable_int]. lia. Qed.

Lemma written_arr level (vs : list Json.value) :
  Forall (Json.written (S level)) vs -> Json.written level (Json.Arr vs).
Proof.
  intros Hall.
  set (k := S (list_sum (length <$> (Json.encode (S level) <$> vs)))).
  apply (readable_more (k + length vs + 1)).
  - rewrite encode_arr.
    pose proof (length_block 91 93 level (Json.encode (S level) <$> vs)) as Hlen.
    rewrite length_fmap in Hlen. subst k. lia.
  - apply readable_arr. apply Forall_forall. intros v Hv.
    rewrite Forall_forall in Hall. eapply readable_more; [|by apply Hall].
    subst k. apply le_n_S, length_item. by apply list_elem_of_fmap_2.
Qed.

Lemma length_member_text level (kv : pystr * Json.value) :
  length (Json.encode (S level) kv.2) <= length (Json.member_text level kv).
Proof. unfold Json.member_text. rewrite !length_app. lia. Qed.

(** A dict of written values under plain keys is read back by a scanner
    with more fuel than the text of the dict has characters, whatever
    follows it. *)
Lemma scan_obj_written level (kvs : list (pystr * Json.value)) fuel rest :
  Forall (fun kv => Json.plain_str kv.1 /\ Json.written (S level) kv.2) kvs ->
  length (Json.encode level (Json.Obj kvs)) < fuel ->
  Json.scan_value fuel (Json.encode level (Json.Obj kvs) ++ rest) =
  Some (Json.Obj kvs, rest).
Proof.
  intros Hall Hfuel.
  set (k := S (list_sum (length <$> (Json.member_text level <$> kvs)))).
  apply (scan_obj k).
  - apply Forall_forall. intros kv Hkv.
    rewrite Forall_forall in Hall. destruct (Hall kv Hkv) as [Hkey Hv].
    split; [done|]. eapply readable_more; [|exact Hv].
    subst k. apply le_n_S. etrans; [apply length_member_text|].
    apply length_item. by apply list_elem_of_fmap_2.
  - rewrite encode_obj in Hfuel.
    pose proof (length_block 123 125 level (Json.member_text level <$> kvs))
      as Hlen.
    rewrite length_fmap in Hlen. subst k. unfold Json.member_text in *. lia.
Qed.

Lemma written_obj level (kvs : list (pystr * Json.value)) :
  Forall (fun kv => Json.plain_str kv.1 /\ Json.written (S level) kv.2) kvs ->
  Json.written level (Json.Obj kvs).
Proof.
  intros Hall. split.
  - rewrite encode_obj. by apply opens_block.
  - intros fuel rest Hfuel _. apply scan_obj_written; [done|lia].
Qed.

(** *** The data structure of the bot *)

(** A string of characters below the surrogates is plain: every literal
    of the source is. *)
Lemma plain_below_surrogates s :
  Forall (fun c => (c < 55296)%N) s -> Json.plain_str s.
Proof.
  intros Hs. split.
  - eapply Forall_impl; [exact Hs|]. intros c Hc. cbn beta in *. lia.
  - induction Hs as [|c s Hc Hs IH]; [done|]. cbn [Json.no_pair].
    split; [|done]. destruct s; [done|]. intros [Hhigh _].
    unfold Json.is_high in Hhigh.
    apply andb_prop in Hhigh as [Hhigh%N.leb_le _]. lia.
Qed.

Lemma plain_lit (s : string) : Json.plain_str (lit s).
Proof.
  apply plain_below_surrogates. unfold lit. apply Forall_fmap, Forall_forall.
  intros a _. cbn. pose proof (N_ascii_bounded a). lia.
Qed.

Lemma written_strings level (l : list pystr) :
  Forall Json.plain_str l -> Json.written level (Json.Arr (Json.Str <$> l)).
Proof.
  intros Hl. apply written_arr, Forall_fmap.
  eapply Forall_impl; [exact Hl|]. intros s Hs. by apply written_str.
Qed.

Lemma written_ints level (l : list Z) :
  Json.written level (Json.Arr (Json.Int <$> l)).
Proof.
  apply written_arr, Forall_fmap, Forall_forall. intros z _.
  apply written_int.
Qed.

Lemma plain_seen (d : TrackingState) :
  Json.plain d ->
  Forall (fun kv : pystr * list pystr =>
            Json.plain_str kv.1 /\ Forall Json.plain_str kv.2)
         (map_to_list (seen_posts d)).
Proof.
  intros [_ Hseen]. apply Forall_forall. intros [f l] Hfl.
  apply elem_of_map_to_list in Hfl. by apply Hseen.
Qed.

(** What [json.load] reads from what [json.dump] wrote for a plain data
    structure is the value that was written. *)
Lemma loads_dump (d : TrackingState) :
  Json.plain d -> Json.loads (Json.dump d) = Some (Json.of_state d).
Proof.
  intros Hd. unfold Json.loads, Json.dump.
  rewrite skip_ws_opens by by apply opens_block.
  rewrite <-(app_nil_r (Json.encode 0 (Json.of_state d))) at 2.
  unfold Json.of_state. rewrite scan_obj_written; [done| |lia].
  repeat (apply Forall_cons_2; [split; [apply plain_lit|cbn [snd]]|]);
    [| | |by apply Forall_nil_2].
  - apply written_strings. by destruct Hd.
  - apply written_obj, Forall_fmap.
    eapply Forall_impl; [by apply plain_seen|].
    intros [f l] [Hf Hl]. cbn [fst snd] in *. split; [done|].
    by apply written_strings.
  - apply written_ints.
Qed.

Lemma as_strings (l : list pystr) :
  Json.as_list Json.as_str (Json.Arr (Json.Str <$> l)) = Some l.
Proof.
  cbn [Json.as_list]. induction l as [|s l IH]; [done|].
  rewrite fmap_cons. cbn [mapM]. rewrite IH. done.
Qed.

Lemma as_ints (l : list Z) :
  Json.as_list Json.as_int (Json.Arr (Json.Int <$> l)) = Some l.
Proof.
  cbn [Json.as_list]. induction l as [|z l IH]; [done|].
  rewrite fmap_cons. cbn [mapM]. rewrite IH. done.
Qed.

Lemma as_seen (m : gmap pystr (list pystr)) :
  Json.as_dict (Json.as_list Json.as_str)
    (Json.Obj ((fun kv => (kv.1, Json.Arr (Json.Str <$> kv.2)))
                 <$> map_to_list m)) = Some m.
Proof.
  cbn [Json.as_dict].
  assert (forall l : list (pystr * list pystr),
            mapM (fun kv : pystr * Json.value =>
                    pair kv.1 <$> Json.as_list Json.as_str kv.2)
                 ((fun kv : pystr * list pystr =>
                     (kv.1, Json.Arr (Json.Str <$> kv.2))) <$> l) =
            Some l) as Hall.
  { induction l as [|[f l'] l IH]; [done|].
    rewrite fmap_cons. cbn [mapM fst snd]. rewrite as_strings, IH. done. }
  rewrite Hall. cbn. f_equal.
  rewrite <-(list_to_map_to_list m) at 2.
  symmetry. apply list_to_map_proper; [apply NoDup_fst_map_to_list|].
  symmetry. apply reverse_Permutation.
Qed.

(** Two literals of the source that differ. *)
Ltac differ :=
  let Heq := fresh in intros Heq; vm_compute in Heq; discriminate Heq.

(** The value of a data structure is that data structure. *)
Lemma to_state_of_state (d : TrackingState) :
  Json.to_state (Json.of_state d) = Some d.
Proof.
  unfold Json.to_state, Json.of_state, Json.member.
  rewrite !reverse_cons, reverse_nil. cbn [app].
  rewrite !list_to_map_cons, list_to_map_nil.
  rewrite (lookup_insert_ne _ (lit "chat_ids") (lit "feeds")) by differ.
  rewrite (lookup_insert_ne _ (lit "seen_posts") (lit "feeds")) by differ.
  rewrite (lookup_insert_ne _ (lit "chat_ids") (lit "seen_posts")) by differ.
  rewrite !lookup_insert_eq.
  cbn [mbind option_bind]. rewrite as_strings, as_seen, as_ints.
  cbn. by destruct d.
Qed.

(** [json.load] reads back the plain data structure [json.dump] wrote. *)
Lemma load_dump (d : TrackingState) :
  Json.plain d -> Json.load (Json.dump d) = Some d.
Proof.
  intros Hd. unfold Json.load. rewrite loads_dump by done.
  apply to_state_of_state.
Qed.

End JsonProperties.

(** ** The data file read back *)

Section Persistence.

Implicit Types (E : env pystr) (w : world pystr) (d : TrackingState).

(** C6 — Round-trip persistence.  For data whose strings hold no high
    surrogate directly followed by a low surrogate, when the write of
    [save_data] succeeds and the data file can be read: the file holds the
    text [json.dump] writes for the data, [json.load] reads the data back
    from that text, [load_data] after [save_data] returns the data that
    was saved, equal in its three fields, and so does a process start on
    that file.  Lists of seen posts and the list of chats may be empty. *)
Theorem save_load_roundtrip E E' w :
  Json.plain (data w) ->
  env_write E (writes w) = Written ->
  env_read_ok E' = true ->
  let w1 := (run E (save_data Json.dump) w).2 in
  disk w1 = Some (Json.dump (data w))
  /\ Json.load (Json.dump (data w)) = Some (data w)
  /\ (exists d, run E' (load_data Json.load) w1 = (Ok d, w1)
                /\ feeds d = feeds (data w)
                /\ seen_posts d = seen_posts (data w)
                /\ chat_ids d = chat_ids (data w))
  /\ data (boot Json.load E' (disk w1)) = data w.
Proof.
  intros Hplain Hwrite Hread w1.
  pose proof (load_dump (data w) Hplain) as Hcodec.
  destruct (save_then_load Json.dump Json.load E E' w Hcodec Hwrite Hread)
    as [Hload Hboot].
  split_and!; [|done|by exists (data w)|done].
  subst w1. rewrite run_save_data. unfold saved. by rewrite Hwrite.
Qed.

End Persistence.


(** ** The claims at concrete inputs *)

Lemma summary_truncation_witness :
  format_message (Sample.post_with_summary 600) =
    message_head (Sample.post_with_summary 600) ++
    replicate 500 120%N ++ [46; 46; 46]%N
  /\ format_message (Sample.post_with_summary 3) =
    message_head (Sample.post_with_summary 3) ++ replicate 3 120%N.
Proof.
  split.
  - apply (proj1 (summary_truncation (Sample.post_with_summary 600))).
    vm_compute. lia.
  - apply (proj1 (proj2 (summary_truncation (Sample.post_with_summary 3)))).
    vm_compute. lia.
Defined.

Lemma seen_nodup_default : seen_nodup default_data.
Proof. intros f l Hf. simpl in Hf. by rewrite lookup_empty in Hf. Qed.

Lemma reachable_w0 :
  reachable_from Sample.dump Sample.load default_data Sample.w0.
Proof. by apply reach_boot. Qed.

Lemma reachable_w1 :
  reachable_from Sample.dump Sample.load default_data Sample.w1.
Proof.
  apply (reach_handle Sample.dump Sample.load default_data Sample.E
           (HAddFeed [Sample.url_a])), reachable_w0.
Qed.

Lemma dedup_idempotent_witness :
  run Sample.E (periodic_feed Sample.url_a)
      (run Sample.E (periodic_feed Sample.url_a) Sample.w0).2 =
  (Ok tt, fetched Sample.E Sample.url_a
            (run Sample.E (periodic_feed Sample.url_a) Sample.w0).2).
Proof.
  apply (dedup_idempotent Sample.dump Sample.E Sample.E Sample.url_a
           Sample.w0).
  reflexivity.
Defined.

Lemma seen_posts_duplicate_free_witness : seen_nodup (data Sample.w1).
Proof.
  apply (seen_posts_duplicate_free Sample.dump Sample.load default_data).
  - apply seen_nodup_default.
  - apply reachable_w1.
Defined.

Lemma tracking_state_invariant_witness :
  tracking_inv default_data /\ tracking_inv (data Sample.w1).
Proof.
  split; [apply tracking_inv_default|].
  apply (tracking_state_invariant Sample.dump Sample.load default_data
           Sample.w1).
  - apply tracking_inv_default.
  - apply reachable_w1.
Defined.

(** C2, as the spec states it, fails in the very first state: the default
    data lists the seed feed and has no seen list for it. *)
Lemma feeds_have_seen_counterexample :
  ~ (forall w,
       reachable_from Sample.dump Sample.load default_data w ->
       feeds_have_seen (data w)).
Proof.
  intros Hall. destruct (Hall Sample.w0 reachable_w0 seed_feed) as [l Hl].
  - by left.
  - vm_compute in Hl. discriminate.
Qed.

(** C3, as the spec states it, fails for a feed whose posts share an id:
    [Sample.url_b] returns two posts and the add leaves one id. *)
Lemma add_feed_size_counterexample :
  ~ (forall (E : env TrackingState) f args w,
       f ∉ feeds (data w) ->
       let w' := (run E (add_feed Sample.dump (f :: args)) w).2 in
       f ∈ feeds (data w') ->
       exists l, seen_posts (data w') !! f = Some l
                 /\ length l = length (posts_of E f)).
Proof.
  intros Hall.
  destruct (Hall Sample.E Sample.url_b [] Sample.w0) as (l & Hl & Hlen).
  - vm_compute. by intros [?|?%not_elem_of_nil]%elem_of_cons.
  - vm_compute. right. by left.
  - vm_compute in Hl. injection Hl as <-. vm_compute in Hlen. discriminate.
Qed.

Lemma add_feed_preseeds_witness :
  (Sample.url_a ∉ feeds (data Sample.w0))
  /\ Sample.url_a ∈ feeds (data Sample.w1)
  /\ (exists l,
      seen_posts (data Sample.w1) !! Sample.url_a = Some l
      /\ NoDup l
      /\ (forall i, i ∈ l <-> i ∈ id <$> posts_of Sample.E Sample.url_a)
      /\ length l =
         length (remove_dups (id <$> posts_of Sample.E Sample.url_a))
      /\ (NoDup (id <$> posts_of Sample.E Sample.url_a) ->
          length l = length (posts_of Sample.E Sample.url_a))).
Proof.
  assert (Sample.url_a ∉ feeds (data Sample.w0)) as H0.
  { vm_compute. by intros [?|?%not_elem_of_nil]%elem_of_cons. }
  assert (Sample.url_a ∈ feeds (data Sample.w1)) as H1.
  { vm_compute. right. by left. }
  split_and!; [exact H0|exact H1|].
  exact (proj1 (add_feed_preseeds Sample.dump Sample.E Sample.url_a []
                  Sample.w0 H0 H1)).
Defined.

Lemma remove_feed_atomic_witness :
  Sample.url_a ∈ feeds (data Sample.w1)
  /\ seen_posts
       (data (run Sample.E (remove_feed Sample.dump true [Sample.url_a])
                  Sample.w1).2) !! Sample.url_a = None.
Proof.
  assert (Sample.url_a ∈ feeds (data Sample.w1)) as H1.
  { vm_compute. right. by left. }
  split; [exact H1|].
  apply (remove_feed_atomic Sample.dump Sample.E Sample.url_a []
           Sample.w1 H1).
Defined.

Lemma add_feed_failure_atomic_witness :
  posts_of Sample.E Sample.url_c = []
  /\ data (run Sample.E (add_feed Sample.dump [Sample.url_c]) Sample.w0).2 =
     data Sample.w0.
Proof.
  split; [reflexivity|].
  apply (add_feed_failure_atomic Sample.dump Sample.E Sample.url_c []
           Sample.w0).
  reflexivity.
Defined.



Example check_feeds_aborted :
  let r := run Cases.E_refusing (check_feeds Sample.dump) Sample.w3 in
  r.1 = Raised TransportError
  /\ sent r.2 =
     [Reply msg_checking;
      announce (post_of_entry (Sample.entry "1"));
      announce (post_of_entry (Sample.entry "2"))]
  /\ seen_posts (data r.2) !! Sample.url_a = Some [lit "1"; lit "2"]
  /\ seen_posts (data r.2) !! Sample.url_c = None
  /\ seen_posts (data r.2) !! Sample.url_b = None
  /\ logs r.2 = [] /\ disk r.2 = None /\ writes r.2 = 0%nat.
Proof. vm_compute. by split_and!. Qed.

(** The manual cycle over the three feeds of [Sample.w3]: the two posts
    of the first feed and the one of the third are announced, and three
    new posts are reported. *)
Example check_feeds_three_feeds :
  run Sample.E (check_feeds Sample.dump) Sample.w3 =
  (Ok tt,
   {| data := {| feeds := [Sample.url_a; Sample.url_c; Sample.url_b];
                 seen_posts :=
                   <[Sample.url_b := [lit "7"]]>
                     (<[Sample.url_c := []]>
                        (<[Sample.url_a := [lit "1"; lit "2"]]> ∅));
                 chat_ids := [42] |};
      disk := Some {| feeds := [Sample.url_a; Sample.url_c; Sample.url_b];
                      seen_posts :=
                        <[Sample.url_b := [lit "7"]]>
                          (<[Sample.url_c := []]>
                             (<[Sample.url_a := [lit "1"; lit "2"]]> ∅));
                      chat_ids := [42] |};
      sent := [Reply msg_checking;
               announce (post_of_entry (Sample.entry "1"));
               announce (post_of_entry (Sample.entry "2"));
               announce (post_of_entry (Sample.entry "7"));
               Reply (msg_found 3)];
      logs := [ErrFetching Sample.url_c];
      writes := 1 |}).
Proof. vm_compute. reflexivity. Qed.

Example dump_pair :
  Json.dump Cases.d_pair =
  lit "{" ++ nl ++
  lit "  " ++ [34%N] ++ lit "feeds" ++ [34%N] ++ lit ": [" ++ nl ++
  lit "    " ++ [34%N] ++ lit "\ud83d\ude00" ++ [34%N] ++ nl ++
  lit "  ]," ++ nl ++
  lit "  " ++ [34%N] ++ lit "seen_posts" ++ [34%N] ++ lit ": {}," ++ nl ++
  lit "  " ++ [34%N] ++ lit "chat_ids" ++ [34%N] ++ lit ": []" ++ nl ++
  lit "}".
Proof. vm_compute. reflexivity. Qed.

Lemma plain_mixed : Json.plain Cases.d_mixed.
Proof.
  assert (Json.plain_str
            (lit "http://a/" ++ [34; 92; 10; 233; 128512; 55357]%N)) as Ha.
  { split.
    - unfold Json.valid_str. by repeat constructor.
    - cbn. split_and!; try done; by intros [? ?]. }
  split.
  - cbn [Cases.d_mixed feeds].
    repeat (apply Forall_cons_2; [apply Ha || apply plain_lit|]).
    apply Forall_nil_2.
  - intros f l. cbn [Cases.d_mixed seen_posts].
    intros [[<- <-]|[_ [[<- <-]|[_ Hf]]%lookup_insert_Some]]%lookup_insert_Some.
    + split; [apply plain_lit|].
      repeat (apply Forall_cons_2; [apply plain_lit|]). apply Forall_nil_2.
    + by split.
    + by rewrite lookup_empty in Hf.
Qed.

Lemma save_load_roundtrip_witness :
  Json.plain (data (Cases.holding Cases.d_mixed))
  /\ env_write Cases.E_disk (writes (Cases.holding Cases.d_mixed)) = Written
  /\ env_read_ok Cases.E_disk = true
  /\ data (boot Json.load Cases.E_disk
             (disk (run Cases.E_disk (save_data Json.dump)
                        (Cases.holding Cases.d_mixed)).2)) = Cases.d_mixed.
Proof.
  split_and!; [apply plain_mixed|reflexivity..|].
  apply (save_load_roundtrip Cases.E_disk Cases.E_disk
           (Cases.holding Cases.d_mixed) plain_mixed eq_refl eq_refl).
Defined.

Lemma seen_nodup_w3 : seen_nodup (data Sample.w3).
Proof. intros f l Hf. simpl in Hf. by rewrite lookup_empty in Hf. Qed.

Lemma no_double_notification_witness :
  seen_nodup (data Sample.w3)
  /\ (overlap Sample.E Sample.turns (check_feeds Sample.dump)
              (check_feeds_periodic Sample.dump) Sample.w3).1.2 = Ok tt.
Proof.
  split; [apply seen_nodup_w3|].
  pose proof (no_double_notification Sample.dump Sample.E Sample.w3
                Sample.turns seen_nodup_w3) as Hthm.
  destruct (overlap Sample.E Sample.turns (check_feeds Sample.dump)
              (check_feeds_periodic Sample.dump) Sample.w3) as [[ra rb] w].
  destruct Hthm as (hist & _ & _ & _ & Hrb & _). exact Hrb.
Defined.

(** The two checks of [Sample.turns] over the three feeds of [Sample.w3]:
    the manual check announces the first new post and reports one, the
    periodic check sends the other two to the chat, and each id is once in
    its seen list. *)
Example overlap_three_feeds :
  let '(ra, rb, w) :=
    overlap Sample.E Sample.turns (check_feeds Sample.dump)
            (check_feeds_periodic Sample.dump) Sample.w3 in
  ra = Ok tt /\ rb = Ok tt
  /\ sent w =
     [Reply msg_checking;
      announce (post_of_entry (Sample.entry "1"));
      Send 42 (format_message (post_of_entry (Sample.entry "2")));
      Send 42 (format_message (post_of_entry (Sample.entry "7")));
      Reply (msg_found 1)]
  /\ seen_posts (data w) !! Sample.url_a = Some [lit "1"; lit "2"]
  /\ seen_posts (data w) !! Sample.url_b = Some [lit "7"]
  /\ disk w = Some (data w).
Proof. vm_compute. by split_and!. Qed.

(** C4, as the spec states it, fails when the periodic check finds a new
    post: its notification goes out once per registered chat, so not at
    all when no chat is registered (the post is marked seen and saved all
    the same) and twice when two are. *)
Lemma overlap_notifications_counterexample :
  (let '(ra, rb, w) :=
     overlap Sample.E [false] (check_feeds Sample.dump)
             (check_feeds_periodic Sample.dump) Cases.w_no_chat in
   ra = Ok tt /\ rb = Ok tt
   /\ seen_posts (data Cases.w_no_chat) !! Sample.url_a = None
   /\ seen_posts (data w) !! Sample.url_a = Some [lit "1"; lit "2"]
   /\ disk w = Some (data w)
   /\ sent w = [Reply msg_checking; Reply msg_no_new]
   /\ notifications Cases.post_1 (sent w) = 0%nat)
  /\ (let '(ra, rb, w) :=
        overlap Sample.E [false] (check_feeds Sample.dump)
                (check_feeds_periodic Sample.dump) Cases.w_two_chats in
      ra = Ok tt /\ rb = Ok tt
      /\ notifications Cases.post_1 (sent w) = 2%nat).
Proof. vm_compute. by split_and!. Qed.

(** C6, what the claim leaves out.  A feed URL made of a high surrogate
    followed by a low surrogate is written as two escapes, which
    [json.load] reads as the one character U+1F600: the data loaded
    differs from the data saved.  When the write raises, or the file
    cannot be read, [load_data] returns the default data structure. *)
Lemma roundtrip_counterexample :
  ~ (forall E E' (w : world pystr),
       env_write E (writes w) = Written -> env_read_ok E' = true ->
       (run E' (load_data Json.load) (run E (save_data Json.dump) w).2).1 =
       Ok (data w))
  /\ ~ (forall E E' (w : world pystr),
         Json.plain (data w) -> env_read_ok E' = true ->
         (run E' (load_data Json.load) (run E (save_data Json.dump) w).2).1 =
         Ok (data w))
  /\ ~ (forall E E' (w : world pystr),
         Json.plain (data w) -> env_write E (writes w) = Written ->
         (run E' (load_data Json.load) (run E (save_data Json.dump) w).2).1 =
         Ok (data w)).
Proof.
  assert (Json.plain Cases.d_small) as Hsmall.
  { split.
    - apply Forall_cons_2; [apply plain_lit|apply Forall_nil_2].
    - intros f l. cbn [Cases.d_small seen_posts].
      intros [[<- <-]|[_ Hf]]%lookup_insert_Some.
      + split; [apply plain_lit|done].
      + by rewrite lookup_empty in Hf. }
  split_and!.
  - intros Hall.
    specialize (Hall Cases.E_disk Cases.E_disk (Cases.holding Cases.d_pair)
                  eq_refl eq_refl).
    vm_compute in Hall. discriminate Hall.
  - intros Hall.
    specialize (Hall Cases.E_disk_full Cases.E_disk
                  (Cases.holding Cases.d_small) Hsmall eq_refl).
    vm_compute in Hall. discriminate Hall.
  - intros Hall.
    specialize (Hall Cases.E_disk Cases.E_unreadable
                  (Cases.holding Cases.d_small) Hsmall eq_refl).
    vm_compute in Hall. discriminate Hall.
Qed.
